(** * Coverage collection: range merger and coverage trackers

    A shallow embedding of [Coverage.ts] (the [JSCoverage] and [CSSCoverage]
    trackers and the sweep-line function [convertToDisjointRanges]) together
    with the properties stated about them.

    Conventions of the embedding:
    - JavaScript numbers that hold protocol offsets and hit counts are
      integers; they are modelled as [Z] (no wrap-around is involved);
    - arrays are lists in array order: [push] appends, [pop] removes the last
      element, [a[a.length - 1]] is the last element;
    - [Array.prototype.sort] is a stable sort; for a comparator that is a total
      preorder its result is fixed by stability, and it is modelled as the
      stable insertion sort [sort_points];
    - a JavaScript [Map] is an association list in insertion order. *)

From Stdlib Require Import ZArith List Bool Lia String Ascii Permutation Sorted.
Import ListNotations.
Open Scope Z_scope.

(** ** The range merger *)

Module Merger.

(** An element of [nestedRanges]: [{startOffset, endOffset, count}]. *)
Record UsageRange : Type := mkUsage {
  startOffset : Z;
  endOffset : Z;
  count : Z
}.

(** An element of the result: [{start, end}]. *)
Record DisjointRange : Type := mkRange {
  start : Z;
  end_ : Z
}.

(** A boundary point [{offset, type, range}]; [type] is [0] for the start
    point of [range] and [1] for its end point. *)
Record Point : Type := mkPoint {
  offset : Z;
  type : Z;
  range : UsageRange
}.

Definition startPoint (r : UsageRange) : Point := mkPoint (startOffset r) 0 r.
Definition endPoint (r : UsageRange) : Point := mkPoint (endOffset r) 1 r.

(** The first loop: two points per range, in input order. *)
Definition pointsOf (nestedRanges : list UsageRange) : list Point :=
  flat_map (fun r => [startPoint r; endPoint r]) nestedRanges.

(** The comparator handed to [points.sort]. *)
Definition comparePoints (a b : Point) : Z :=
  if negb (offset a =? offset b) then offset a - offset b
  else if negb (type a =? type b) then type b - type a
  else
    let aLength := endOffset (range a) - startOffset (range a) in
    let bLength := endOffset (range b) - startOffset (range b) in
    if type a =? 0 then bLength - aLength else aLength - bLength.

(** Stable insertion: [a] comes from before every element of [l] in the
    original array, so it is put in front of the first element it does not
    have to follow. *)
Fixpoint insert_point (a : Point) (l : list Point) : list Point :=
  match l with
  | [] => [a]
  | b :: l' => if comparePoints a b <=? 0 then a :: l else b :: insert_point a l'
  end.

Definition sort_points (l : list Point) : list Point :=
  fold_right insert_point [] l.

(** [a[a.length - 1]], undefined on the empty array. *)
Fixpoint lastOf {A : Type} (a : list A) : option A :=
  match a with
  | [] => None
  | [x] => Some x
  | _ :: a' => lastOf a'
  end.

(** The variables of the scanning loop; both arrays in array order. *)
Record Sweep : Type := mkSweep {
  hitCountStack : list Z;
  results : list DisjointRange;
  lastOffset : Z
}.

Definition sweep_init : Sweep := mkSweep [] [] 0.

(** One iteration of [for (const point of points)].  [lastResult.end = ...]
    updates the last element of [results] where it stands; [pop] on the
    empty array does nothing. *)
Definition sweep_step (st : Sweep) (point : Point) : Sweep :=
  let results' :=
    match lastOf (hitCountStack st) with
    | None => results st
    | Some top =>
        if (lastOffset st <? offset point) && (top >? 0) then
          match lastOf (results st) with
          | Some lastResult =>
              if end_ lastResult =? lastOffset st
              then removelast (results st)
                     ++ [mkRange (start lastResult) (offset point)]
              else results st ++ [mkRange (lastOffset st) (offset point)]
          | None => results st ++ [mkRange (lastOffset st) (offset point)]
          end
        else results st
    end in
  let stack' :=
    if type point =? 0
    then hitCountStack st ++ [count (range point)]
    else removelast (hitCountStack st) in
  mkSweep stack' results' (offset point).

Definition sweep (points : list Point) (st : Sweep) : Sweep :=
  fold_left sweep_step points st.

Definition convertToDisjointRanges (nestedRanges : list UsageRange)
  : list DisjointRange :=
  let points := sort_points (pointsOf nestedRanges) in
  let final := sweep points sweep_init in
  filter (fun range => end_ range - start range >? 0) (results final).

End Merger.

(** ** JavaScript [Map] with string keys

    [set] on a key that is present replaces the value where it stands; on a
    new key it appends.  [keys] iterates in insertion order. *)

Module JSMap.
Section Ops.
Context {V : Type}.

Definition t : Type := list (string * V).

Definition empty : t := [].

Fixpoint get (m : t) (k : string) : option V :=
  match m with
  | [] => None
  | (k', v) :: m' => if String.eqb k' k then Some v else get m' k
  end.

Fixpoint set (k : string) (v : V) (m : t) : t :=
  match m with
  | [] => [(k, v)]
  | (k', v') :: m' =>
      if String.eqb k' k then (k', v) :: m' else (k', v') :: set k v m'
  end.

Definition clear (m : t) : t := [].

Definition keys (m : t) : list string := map fst m.

Definition has (m : t) (k : string) : bool :=
  match get m k with Some _ => true | None => false end.
End Ops.
Arguments t : clear implicits.
End JSMap.

(** ** Protocol payloads and the session *)

Module Protocol.

(** [Profiler.FunctionCoverage]; its [ranges] are [Profiler.CoverageRange]
    records [{startOffset, endOffset, count}]. *)
Record FunctionCoverage : Type := mkFunctionCoverage {
  functionName : string;
  ranges : list Merger.UsageRange;
  isBlockCoverage : bool
}.

(** [Profiler.ScriptCoverage]. *)
Record ScriptCoverage : Type := mkScriptCoverage {
  scriptId : string;
  url : string;
  functions : list FunctionCoverage
}.

(** [CSS.RuleUsage]. *)
Record RuleUsage : Type := mkRuleUsage {
  styleSheetId : string;
  startOffset : Z;
  endOffset : Z;
  used : bool
}.

(** [Debugger.ScriptParsedEvent], the fields the tracker reads. *)
Module ScriptParsedEvent.
Record t : Type := mk {
  scriptId : string;
  url : string
}.
End ScriptParsedEvent.

(** [CSS.CSSStyleSheetHeader], the fields the tracker reads. *)
Module CSSStyleSheetHeader.
Record t : Type := mk {
  styleSheetId : string;
  sourceURL : string
}.
End CSSStyleSheetHeader.

(** [CSS.StyleSheetAddedEvent]. *)
Module StyleSheetAddedEvent.
Record t : Type := mk {
  header : CSSStyleSheetHeader.t
}.
End StyleSheetAddedEvent.

(** The commands the two trackers send. *)
Inductive Command : Type :=
| Profiler_enable
| Profiler_startPreciseCoverage (callCount detailed : bool)
| Debugger_enable
| Debugger_setSkipAllPauses (skip : bool)
| Debugger_getScriptSource (scriptId : string)
| Profiler_takePreciseCoverage
| Profiler_stopPreciseCoverage
| Profiler_disable
| Debugger_disable
| DOM_enable
| CSS_enable
| CSS_startRuleUsageTracking
| CSS_getStyleSheetText (styleSheetId : string)
| CSS_stopRuleUsageTracking
| CSS_disable
| DOM_disable.

(** The typed result of each command. *)
Definition Response (c : Command) : Type :=
  match c with
  | Debugger_getScriptSource _ => string
  | CSS_getStyleSheetText _ => string
  | Profiler_takePreciseCoverage => list ScriptCoverage
  | CSS_stopRuleUsageTracking => list RuleUsage
  | _ => unit
  end.

(** A [CDPSession] as the trackers use it: [send c] settles with the
    command's result, or is rejected ([None]). *)
Definition CDPSession : Type := forall c : Command, option (Response c).

End Protocol.

(** ** Errors, assertions and subscriptions *)

Inductive Error : Type :=
| AssertionError (message : string)
| ProtocolError (command : Protocol.Command).

(** How an [async] method settles. *)
Inductive Outcome (A : Type) : Type :=
| Resolved (value : A)
| Rejected (error : Error).
Arguments Resolved {A} value.
Arguments Rejected {A} error.

(** Modelled from the spec: [assert] of [util/assert.js], which is not among
    the sources; the lifecycle guards fail the call with an error carrying the
    message when the asserted value is false.  [None] means that the
    assertion passed. *)
Definition assert (value : bool) (message : string) : option Error :=
  if value then None else Some (AssertionError message).

(** The handlers a tracker registers. *)
Inductive Handler : Type :=
| onScriptParsedH
| onStyleSheetH
| onExecutionContextsClearedH.

(** An [EventSubscription]: event name and handler. *)
Record EventSubscription : Type := mkSubscription {
  eventName : string;
  handler : Handler
}.

(** Modelled from the spec: [DisposableStack] of [util/disposable.js], which is
    not among the sources; it holds the subscriptions acquired by [use] until
    [dispose] releases them all. *)
Record DisposableStack : Type := mkStack {
  disposed : bool;
  stack : list EventSubscription
}.

Definition newDisposableStack : DisposableStack := mkStack false [].

Definition use (s : DisposableStack) (r : EventSubscription) : DisposableStack :=
  mkStack (disposed s) (r :: stack s).

Definition dispose (s : DisposableStack) : DisposableStack :=
  mkStack true [].

(** Truthiness of a string and of a possibly undefined string. *)
Definition truthy (s : string) : bool := negb (String.eqb s EmptyString).

Definition truthy_opt (s : option string) : bool :=
  match s with Some s' => truthy s' | None => false end.

(** [Promise.all] over commands without payload: the first rejection, if
    any. *)
Fixpoint sendAll (client : Protocol.CDPSession) (cs : list Protocol.Command)
  : option Error :=
  match cs with
  | [] => None
  | c :: cs' =>
      match client c with
      | None => Some (ProtocolError c)
      | Some _ => sendAll client cs'
      end
  end.

(** A [CoverageEntry]; [rawScriptCoverage] is present on the entries of the
    script tracker when raw coverage was asked for. *)
Record CoverageEntry : Type := mkEntry {
  url : string;
  ranges : list Merger.DisjointRange;
  text : string;
  rawScriptCoverage : option Protocol.ScriptCoverage
}.

Definition subscribed (s : option DisposableStack) (h : Handler) : bool :=
  match s with
  | Some d =>
      existsb (fun r => match handler r, h with
                        | onScriptParsedH, onScriptParsedH => true
                        | onStyleSheetH, onStyleSheetH => true
                        | onExecutionContextsClearedH, onExecutionContextsClearedH => true
                        | _, _ => false
                        end) (stack d)
  | None => false
  end.

(** ** The script tracker *)

Module JSCoverage.

Module Options.
Record t : Type := mk {
  resetOnNavigation : option bool;
  reportAnonymousScripts : option bool;
  includeRawScriptCoverage : option bool;
  useBlockCoverage : option bool
}.
(** [{}], the default argument of [start]. *)
Definition none : t := mk None None None None.
End Options.

(** The private fields of the class. *)
Record t : Type := mk {
  client : Protocol.CDPSession;
  enabled : bool;
  scriptURLs : JSMap.t string;
  scriptSources : JSMap.t string;
  subscriptions : option DisposableStack;
  resetOnNavigation : bool;
  reportAnonymousScripts : bool;
  includeRawScriptCoverage : bool
}.

Definition new (client : Protocol.CDPSession) : t :=
  mk client false JSMap.empty JSMap.empty None false false false.

(** Destructuring with a default: the default is taken when the option is
    undefined. *)
Definition orDefault (d : bool) (o : option bool) : bool :=
  match o with Some b => b | None => d end.

Definition start (options : Options.t) (this : t) : t * Outcome unit :=
  match assert (negb (enabled this)) "JSCoverage is already enabled" with
  | Some e => (this, Rejected e)
  | None =>
      let resetOnNavigation := orDefault true (Options.resetOnNavigation options) in
      let reportAnonymousScripts :=
        orDefault false (Options.reportAnonymousScripts options) in
      let includeRawScriptCoverage :=
        orDefault false (Options.includeRawScriptCoverage options) in
      let useBlockCoverage := orDefault true (Options.useBlockCoverage options) in
      let subscriptions :=
        use (use newDisposableStack
               (mkSubscription "Debugger.scriptParsed" onScriptParsedH))
            (mkSubscription "Runtime.executionContextsCleared"
               onExecutionContextsClearedH) in
      let this' :=
        mk (client this) true
           (JSMap.clear (scriptURLs this)) (JSMap.clear (scriptSources this))
           (Some subscriptions)
           resetOnNavigation reportAnonymousScripts includeRawScriptCoverage in
      match sendAll (client this')
              [Protocol.Profiler_enable;
               Protocol.Profiler_startPreciseCoverage
                 includeRawScriptCoverage useBlockCoverage;
               Protocol.Debugger_enable;
               Protocol.Debugger_setSkipAllPauses true] with
      | Some e => (this', Rejected e)
      | None => (this', Resolved tt)
      end
  end.

Definition onExecutionContextsCleared (this : t) : t :=
  if negb (resetOnNavigation this) then this
  else
    mk (client this) (enabled this)
       (JSMap.clear (scriptURLs this)) (JSMap.clear (scriptSources this))
       (subscriptions this)
       (resetOnNavigation this) (reportAnonymousScripts this)
       (includeRawScriptCoverage this).

(** [onScriptParsed] up to its [await]: the command it sends, or [None] when
    it returns before sending.  [isPuppeteerURL] is [PuppeteerURL.isPuppeteerURL]
    of [common/util.js], which is not among the sources. *)
Definition onScriptParsed_request (isPuppeteerURL : string -> bool) (this : t)
    (event : Protocol.ScriptParsedEvent.t) : option Protocol.Command :=
  if isPuppeteerURL (Protocol.ScriptParsedEvent.url event) then None
  else if negb (truthy (Protocol.ScriptParsedEvent.url event))
          && negb (reportAnonymousScripts this) then None
  else Some (Protocol.Debugger_getScriptSource
               (Protocol.ScriptParsedEvent.scriptId event)).

(** [onScriptParsed] after its [await]: [response] is the script source, or
    [None] when the command was rejected (the [catch] branch only logs). *)
Definition onScriptParsed_resume (this : t)
    (event : Protocol.ScriptParsedEvent.t) (response : option string) : t :=
  match response with
  | Some scriptSource =>
      mk (client this) (enabled this)
         (JSMap.set (Protocol.ScriptParsedEvent.scriptId event)
            (Protocol.ScriptParsedEvent.url event) (scriptURLs this))
         (JSMap.set (Protocol.ScriptParsedEvent.scriptId event)
            scriptSource (scriptSources this))
         (subscriptions this)
         (resetOnNavigation this) (reportAnonymousScripts this)
         (includeRawScriptCoverage this)
  | None => this
  end.

(** [flattenRanges] of one snapshot entry. *)
Definition flattenRanges (entry : Protocol.ScriptCoverage)
  : list Merger.UsageRange :=
  flat_map Protocol.ranges (Protocol.functions entry).

(** The body of [for (const entry of profileResponse.result)]. *)
Definition stop_body (this : t) (coverage : list CoverageEntry)
    (entry : Protocol.ScriptCoverage) : list CoverageEntry :=
  let url := JSMap.get (scriptURLs this) (Protocol.scriptId entry) in
  let url :=
    if negb (truthy_opt url) && reportAnonymousScripts this
    then Some ("debugger://VM" ++ Protocol.scriptId entry)%string
    else url in
  let text := JSMap.get (scriptSources this) (Protocol.scriptId entry) in
  match text, url with
  | Some text, Some url =>
      let ranges := Merger.convertToDisjointRanges (flattenRanges entry) in
      if negb (includeRawScriptCoverage this)
      then coverage ++ [mkEntry url ranges text None]
      else coverage ++ [mkEntry url ranges text (Some entry)]
  | _, _ => coverage
  end.

Definition stop (this : t) : t * Outcome (list CoverageEntry) :=
  match assert (enabled this) "JSCoverage is not enabled" with
  | Some e => (this, Rejected e)
  | None =>
      let this1 :=
        mk (client this) false (scriptURLs this) (scriptSources this)
           (subscriptions this) (resetOnNavigation this)
           (reportAnonymousScripts this) (includeRawScriptCoverage this) in
      match client this1 Protocol.Profiler_takePreciseCoverage with
      | None => (this1, Rejected (ProtocolError Protocol.Profiler_takePreciseCoverage))
      | Some profileResponse =>
          match sendAll (client this1)
                  [Protocol.Profiler_stopPreciseCoverage;
                   Protocol.Profiler_disable;
                   Protocol.Debugger_disable] with
          | Some e => (this1, Rejected e)
          | None =>
              let this2 :=
                mk (client this1) (enabled this1) (scriptURLs this1)
                   (scriptSources this1)
                   (option_map dispose (subscriptions this1))
                   (resetOnNavigation this1) (reportAnonymousScripts this1)
                   (includeRawScriptCoverage this1) in
              (this2, Resolved (fold_left (stop_body this2) profileResponse []))
          end
      end
  end.

(** The tasks that run on the tracker between [start] and [stop]: an event is
    dispatched to its handler, or an awaited [Debugger.getScriptSource]
    settles and the suspended handler goes on. *)
Inductive Task : Type :=
| ScriptParsed (event : Protocol.ScriptParsedEvent.t)
| ScriptSourceSettled (n : nat) (response : option string)
| ExecutionContextsCleared.

(** The tracker with the handlers suspended at their [await]. *)
Record Loop : Type := mkLoop {
  tracker : t;
  inflight : list Protocol.ScriptParsedEvent.t
}.

Fixpoint remove_nth {A : Type} (n : nat) (l : list A) : list A :=
  match n, l with
  | _, [] => []
  | O, _ :: l' => l'
  | S n', a :: l' => a :: remove_nth n' l'
  end.

(** [ScriptSourceSettled n response] lets the [n]-th suspended handler go on;
    fetches settle in any order. *)
Definition run_task (isPuppeteerURL : string -> bool) (w : Loop) (task : Task)
  : Loop :=
  match task with
  | ScriptParsed event =>
      if subscribed (subscriptions (tracker w)) onScriptParsedH then
        match onScriptParsed_request isPuppeteerURL (tracker w) event with
        | Some _ => mkLoop (tracker w) (inflight w ++ [event])
        | None => w
        end
      else w
  | ScriptSourceSettled n response =>
      match nth_error (inflight w) n with
      | Some event =>
          mkLoop (onScriptParsed_resume (tracker w) event response)
                 (remove_nth n (inflight w))
      | None => w
      end
  | ExecutionContextsCleared =>
      if subscribed (subscriptions (tracker w)) onExecutionContextsClearedH
      then mkLoop (onExecutionContextsCleared (tracker w)) (inflight w)
      else w
  end.

Definition run (isPuppeteerURL : string -> bool) (tasks : list Task) (w : Loop)
  : Loop :=
  fold_left (run_task isPuppeteerURL) tasks w.

End JSCoverage.

(** ** The stylesheet tracker *)

Module CSSCoverage.

Module Options.
Record t : Type := mk {
  resetOnNavigation : option bool
}.
Definition none : t := mk None.
End Options.

(** The private fields of the class. *)
Record t : Type := mk {
  client : Protocol.CDPSession;
  enabled : bool;
  stylesheetURLs : JSMap.t string;
  stylesheetSources : JSMap.t string;
  eventListeners : option DisposableStack;
  resetOnNavigation : bool
}.

Definition new (client : Protocol.CDPSession) : t :=
  mk client false JSMap.empty JSMap.empty None false.

Definition start (options : Options.t) (this : t) : t * Outcome unit :=
  match assert (negb (enabled this)) "CSSCoverage is already enabled" with
  | Some e => (this, Rejected e)
  | None =>
      let resetOnNavigation :=
        JSCoverage.orDefault true (Options.resetOnNavigation options) in
      let eventListeners :=
        use (use newDisposableStack
               (mkSubscription "CSS.styleSheetAdded" onStyleSheetH))
            (mkSubscription "Runtime.executionContextsCleared"
               onExecutionContextsClearedH) in
      let this' :=
        mk (client this) true
           (JSMap.clear (stylesheetURLs this))
           (JSMap.clear (stylesheetSources this))
           (Some eventListeners) resetOnNavigation in
      match sendAll (client this')
              [Protocol.DOM_enable; Protocol.CSS_enable;
               Protocol.CSS_startRuleUsageTracking] with
      | Some e => (this', Rejected e)
      | None => (this', Resolved tt)
      end
  end.

Definition onExecutionContextsCleared (this : t) : t :=
  if negb (resetOnNavigation this) then this
  else
    mk (client this) (enabled this)
       (JSMap.clear (stylesheetURLs this))
       (JSMap.clear (stylesheetSources this))
       (eventListeners this) (resetOnNavigation this).

(** [onStyleSheet] up to its [await]. *)
Definition onStyleSheet_request (this : t)
    (event : Protocol.StyleSheetAddedEvent.t) : option Protocol.Command :=
  let header := Protocol.StyleSheetAddedEvent.header event in
  if negb (truthy (Protocol.CSSStyleSheetHeader.sourceURL header)) then None
  else Some (Protocol.CSS_getStyleSheetText
               (Protocol.CSSStyleSheetHeader.styleSheetId header)).

(** [onStyleSheet] after its [await]. *)
Definition onStyleSheet_resume (this : t)
    (event : Protocol.StyleSheetAddedEvent.t) (response : option string) : t :=
  let header := Protocol.StyleSheetAddedEvent.header event in
  match response with
  | Some text =>
      mk (client this) (enabled this)
         (JSMap.set (Protocol.CSSStyleSheetHeader.styleSheetId header)
            (Protocol.CSSStyleSheetHeader.sourceURL header)
            (stylesheetURLs this))
         (JSMap.set (Protocol.CSSStyleSheetHeader.styleSheetId header)
            text (stylesheetSources this))
         (eventListeners this) (resetOnNavigation this)
  | None => this
  end.

(** The body of [for (const entry of ruleTrackingResponse.ruleUsage)]: the
    array stored under the stylesheet id grows by one range. *)
Definition aggregate_body
    (styleSheetIdToCoverage : JSMap.t (list Merger.UsageRange))
    (entry : Protocol.RuleUsage) : JSMap.t (list Merger.UsageRange) :=
  let ranges :=
    match JSMap.get styleSheetIdToCoverage (Protocol.styleSheetId entry) with
    | Some ranges => ranges
    | None => []
    end in
  JSMap.set (Protocol.styleSheetId entry)
    (ranges ++ [Merger.mkUsage (Protocol.startOffset entry)
                  (Protocol.endOffset entry)
                  (if Protocol.used entry then 1 else 0)])
    styleSheetIdToCoverage.

Definition aggregate (ruleUsage : list Protocol.RuleUsage)
  : JSMap.t (list Merger.UsageRange) :=
  fold_left aggregate_body ruleUsage JSMap.empty.

(** The body of [for (const styleSheetId of this.#stylesheetURLs.keys())];
    an assertion that fails ends the loop with its error. *)
Definition stop_body (this : t)
    (styleSheetIdToCoverage : JSMap.t (list Merger.UsageRange))
    (acc : Outcome (list CoverageEntry)) (styleSheetId : string)
  : Outcome (list CoverageEntry) :=
  match acc with
  | Rejected e => Rejected e
  | Resolved coverage =>
      match JSMap.get (stylesheetURLs this) styleSheetId with
      | None =>
          Rejected (AssertionError
            ("Stylesheet URL is undefined (styleSheetId=" ++ styleSheetId ++ ")"))
      | Some url =>
          match JSMap.get (stylesheetSources this) styleSheetId with
          | None =>
              Rejected (AssertionError
                ("Stylesheet text is undefined (styleSheetId="
                   ++ styleSheetId ++ ")"))
          | Some text =>
              let ranges :=
                Merger.convertToDisjointRanges
                  (match JSMap.get styleSheetIdToCoverage styleSheetId with
                   | Some ranges => ranges
                   | None => []
                   end) in
              Resolved (coverage ++ [mkEntry url ranges text None])
          end
      end
  end.

Definition stop (this : t) : t * Outcome (list CoverageEntry) :=
  match assert (enabled this) "CSSCoverage is not enabled" with
  | Some e => (this, Rejected e)
  | None =>
      let this1 :=
        mk (client this) false (stylesheetURLs this) (stylesheetSources this)
           (eventListeners this) (resetOnNavigation this) in
      match client this1 Protocol.CSS_stopRuleUsageTracking with
      | None => (this1, Rejected (ProtocolError Protocol.CSS_stopRuleUsageTracking))
      | Some ruleUsage =>
          match sendAll (client this1)
                  [Protocol.CSS_disable; Protocol.DOM_disable] with
          | Some e => (this1, Rejected e)
          | None =>
              let this2 :=
                mk (client this1) (enabled this1) (stylesheetURLs this1)
                   (stylesheetSources this1)
                   (option_map dispose (eventListeners this1))
                   (resetOnNavigation this1) in
              let styleSheetIdToCoverage := aggregate ruleUsage in
              (this2,
               fold_left (stop_body this2 styleSheetIdToCoverage)
                 (JSMap.keys (stylesheetURLs this2)) (Resolved []))
          end
      end
  end.

(** The tasks that run on the tracker between [start] and [stop]. *)
Inductive Task : Type :=
| StyleSheetAdded (event : Protocol.StyleSheetAddedEvent.t)
| StyleSheetTextSettled (n : nat) (response : option string)
| ExecutionContextsCleared.

Record Loop : Type := mkLoop {
  tracker : t;
  inflight : list Protocol.StyleSheetAddedEvent.t
}.

Definition run_task (w : Loop) (task : Task) : Loop :=
  match task with
  | StyleSheetAdded event =>
      if subscribed (eventListeners (tracker w)) onStyleSheetH then
        match onStyleSheet_request (tracker w) event with
        | Some _ => mkLoop (tracker w) (inflight w ++ [event])
        | None => w
        end
      else w
  | StyleSheetTextSettled n response =>
      match nth_error (inflight w) n with
      | Some event =>
          mkLoop (onStyleSheet_resume (tracker w) event response)
                 (JSCoverage.remove_nth n (inflight w))
      | None => w
      end
  | ExecutionContextsCleared =>
      if subscribed (eventListeners (tracker w)) onExecutionContextsClearedH
      then mkLoop (onExecutionContextsCleared (tracker w)) (inflight w)
      else w
  end.

Definition run (tasks : list Task) (w : Loop) : Loop :=
  fold_left run_task tasks w.

End CSSCoverage.

(** ** The facade *)

Module Coverage.

Record t : Type := mk {
  jsCoverage : JSCoverage.t;
  cssCoverage : CSSCoverage.t
}.

Definition new (client : Protocol.CDPSession) : t :=
  mk (JSCoverage.new client) (CSSCoverage.new client).

Definition startJSCoverage (options : JSCoverage.Options.t) (this : t)
  : t * Outcome unit :=
  let (js, r) := JSCoverage.start options (jsCoverage this) in
  (mk js (cssCoverage this), r).

Definition stopJSCoverage (this : t) : t * Outcome (list CoverageEntry) :=
  let (js, r) := JSCoverage.stop (jsCoverage this) in
  (mk js (cssCoverage this), r).

Definition startCSSCoverage (options : CSSCoverage.Options.t) (this : t)
  : t * Outcome unit :=
  let (css, r) := CSSCoverage.start options (cssCoverage this) in
  (mk (jsCoverage this) css, r).

Definition stopCSSCoverage (this : t) : t * Outcome (list CoverageEntry) :=
  let (css, r) := CSSCoverage.stop (cssCoverage this) in
  (mk (jsCoverage this) css, r).

End Coverage.

(** ** Vocabulary of the properties *)

Import Merger.

Module RangeSpec.

(** Position [p] lies in the usage range [r]. *)
Definition contains (r : UsageRange) (p : Z) : Prop :=
  startOffset r <= p < endOffset r.

(** Position [p] lies in the output range [d]. *)
Definition inside (d : DisjointRange) (p : Z) : Prop :=
  start d <= p < end_ d.

(** Position [p] lies in some range of the output [out]. *)
Definition covered (out : list DisjointRange) (p : Z) : Prop :=
  exists d, In d out /\ inside d p.

Definition ascending (out : list DisjointRange) : Prop :=
  forall i j a b, (i < j)%nat ->
    nth_error out i = Some a -> nth_error out j = Some b -> start a < start b.

Definition all_nonempty (out : list DisjointRange) : Prop :=
  Forall (fun d => start d < end_ d) out.

Definition pairwise_disjoint (out : list DisjointRange) : Prop :=
  forall i j a b, i <> j ->
    nth_error out i = Some a -> nth_error out j = Some b ->
    forall p, ~ (inside a p /\ inside b p).

Definition never_contiguous (out : list DisjointRange) : Prop :=
  forall i a b,
    nth_error out i = Some a -> nth_error out (S i) = Some b ->
    end_ a <> start b.

(** Every range of the list ends strictly before the next one starts. *)
Definition canonical (out : list DisjointRange) : Prop :=
  all_nonempty out /\ StronglySorted (fun a b => end_ a < start b) out.

(** The bounds of a usage range, as an output range. *)
Definition bounds (r : UsageRange) : DisjointRange :=
  mkRange (startOffset r) (endOffset r).

Definition length_of (r : UsageRange) : Z := endOffset r - startOffset r.

(** Two ranges are disjoint or one lies within the other. *)
Definition nested_or_disjoint (a b : UsageRange) : Prop :=
  endOffset a <= startOffset b \/ endOffset b <= startOffset a \/
  (startOffset a <= startOffset b /\ endOffset b <= endOffset a) \/
  (startOffset b <= startOffset a /\ endOffset a <= endOffset b).

Definition properly_nested (rs : list UsageRange) : Prop :=
  forall a b, In a rs -> In b rs -> nested_or_disjoint a b.

Definition hit (r : UsageRange) : bool := count r >? 0.

(** Ranges with the same bounds agree on being hit. *)
Definition ties_agree (rs : list UsageRange) : Prop :=
  forall a b, In a rs -> In b rs ->
    startOffset a = startOffset b -> endOffset a = endOffset b ->
    hit a = hit b.

(** [r] is a shortest range of [rs] that contains [p]. *)
Definition innermost (rs : list UsageRange) (p : Z) (r : UsageRange) : Prop :=
  In r rs /\ contains r p /\
  forall r', In r' rs -> contains r' p -> length_of r <= length_of r'.

(** The precondition of the fidelity property. *)
Definition well_nested (rs : list UsageRange) : Prop :=
  Forall (fun r => startOffset r < endOffset r) rs /\
  properly_nested rs /\ ties_agree rs.

End RangeSpec.

Import RangeSpec.

(** ** Vocabulary of the proofs *)

(** The scanning loop with both arrays kept last element first, which is how
    the proofs follow it: the top of the stack and the last result are at
    the head of their lists. *)
Definition rsweep_step (st : Sweep) (point : Point) : Sweep :=
  let results' :=
    match hitCountStack st with
    | [] => results st
    | top :: _ =>
        if (lastOffset st <? offset point) && (top >? 0) then
          match results st with
          | lastResult :: rest =>
              if end_ lastResult =? lastOffset st
              then mkRange (start lastResult) (offset point) :: rest
              else mkRange (lastOffset st) (offset point) :: results st
          | [] => [mkRange (lastOffset st) (offset point)]
          end
        else results st
    end in
  let stack' :=
    if type point =? 0
    then count (range point) :: hitCountStack st
    else tl (hitCountStack st) in
  mkSweep stack' results' (offset point).

Definition rsweep (points : list Point) (st : Sweep) : Sweep :=
  fold_left rsweep_step points st.

(** A state of the loop, read last element first. *)
Definition mirror (st : Sweep) : Sweep :=
  mkSweep (rev (hitCountStack st)) (rev (results st)) (lastOffset st).

Definition convert_rev (nestedRanges : list UsageRange) : list DisjointRange :=
  filter (fun range => end_ range - start range >? 0)
    (rev (results (rsweep (sort_points (pointsOf nestedRanges)) sweep_init))).

(** The comparator puts [a] before [b], or ties them. *)
Definition le_point (a b : Point) : Prop := comparePoints a b <= 0.

(** The comparator ties [a] and [b]. *)
Definition tied (a b : Point) : bool := comparePoints a b =? 0.

(** [results] (last range first): every range is non-empty and starts
    strictly after the end of all older ones. *)
Fixpoint rchain (R : list DisjointRange) : Prop :=
  match R with
  | [] => True
  | d :: R' =>
      start d < end_ d /\ (forall d', In d' R' -> end_ d' < start d) /\ rchain R'
  end.

(** The invariant of the scanning loop behind the canonical output; [rest]
    are the points still to come. *)
Definition sweep_ok (st : Sweep) (rest : list Point) : Prop :=
  rchain (results st) /\
  (forall d, In d (results st) -> end_ d <= lastOffset st) /\
  (results st <> [] -> Forall (fun q => lastOffset st <= offset q) rest).

(** A hit count replaced by its sign: [1] when positive, [0] otherwise. *)
Definition normalize (r : UsageRange) : UsageRange :=
  mkUsage (startOffset r) (endOffset r) (if hit r then 1 else 0).

Definition normalize_point (q : Point) : Point :=
  mkPoint (offset q) (type q) (normalize (range q)).

Definition normalize_sweep (st : Sweep) : Sweep :=
  mkSweep (map (fun c => if c >? 0 then 1 else 0) (hitCountStack st))
          (results st) (lastOffset st).

(** Ranges with the same bounds are one and the same range. *)
Definition ties_equal (rs : list UsageRange) : Prop :=
  forall a b, In a rs -> In b rs ->
    startOffset a = startOffset b -> endOffset a = endOffset b -> a = b.

(** Equality of ranges and of points is decidable. *)
Definition UsageRange_eq_dec (a b : UsageRange) : {a = b} + {a <> b}.
Proof. decide equality; apply Z.eq_dec. Defined.

Definition Point_eq_dec (a b : Point) : {a = b} + {a <> b}.
Proof. decide equality; try apply Z.eq_dec. apply UsageRange_eq_dec. Defined.

(** How many start points (end points) of [r] a list of points holds. *)
Definition opens (l : list Point) (r : UsageRange) : nat :=
  count_occ Point_eq_dec l (startPoint r).

Definition closes (l : list Point) (r : UsageRange) : nat :=
  count_occ Point_eq_dec l (endPoint r).

(** [a] lies within [b]. *)
Definition within (a b : UsageRange) : Prop :=
  startOffset b <= startOffset a /\ endOffset a <= endOffset b.

(** The points of [rs] as the scanning loop receives them. *)
Definition sorted_points (rs : list UsageRange) : list Point :=
  sort_points (pointsOf rs).

(** Some shortest range containing [p] is hit. *)
Definition hit_innermost (rs : list UsageRange) (p : Z) : Prop :=
  exists r, innermost rs p r /\ hit r = true.

(** The top of the stack decides whether the next stretch is recorded. *)
Definition live (st : Sweep) : bool :=
  match hitCountStack st with
  | [] => false
  | top :: _ => top >? 0
  end.

(** The ghost stack [G]: the ranges whose hit counts are on the hit count
    stack, innermost first.  [pre] are the points already consumed. *)
Definition ghost (pre : list Point) (G : list UsageRange) : Prop :=
  StronglySorted within G /\
  forall r, (count_occ UsageRange_eq_dec G r + closes pre r = opens pre r)%nat.

(** The loop invariant: [pre] are the points consumed so far, [suf] the
    points to come. *)
Definition fid_inv (N : list UsageRange) (pre suf : list Point) (st : Sweep)
  : Prop :=
  exists G,
    hitCountStack st = map count G /\
    ghost pre G /\
    (forall q, In q pre -> offset q <= lastOffset st) /\
    (pre <> [] -> exists q, In q pre /\ offset q = lastOffset st) /\
    (forall p, covered (results st) p <->
               pre <> [] /\ p < lastOffset st /\ hit_innermost N p) /\
    sweep_ok st suf.

(** A call that fails with [message] and leaves the tracker as it was. *)
Definition fails_unchanged {S A : Type} (call : S -> S * Outcome A)
    (this : S) (message : string) : Prop :=
  call this = (this, Rejected (AssertionError message)).

(** The fields of the script tracker other than its two maps. *)
Definition js_frame (a b : JSCoverage.t) : Prop :=
  JSCoverage.client b = JSCoverage.client a /\
  JSCoverage.enabled b = JSCoverage.enabled a /\
  JSCoverage.subscriptions b = JSCoverage.subscriptions a /\
  JSCoverage.resetOnNavigation b = JSCoverage.resetOnNavigation a /\
  JSCoverage.reportAnonymousScripts b = JSCoverage.reportAnonymousScripts a /\
  JSCoverage.includeRawScriptCoverage b = JSCoverage.includeRawScriptCoverage a.

(** The fields of the stylesheet tracker other than its two maps. *)
Definition css_frame (a b : CSSCoverage.t) : Prop :=
  CSSCoverage.client b = CSSCoverage.client a /\
  CSSCoverage.enabled b = CSSCoverage.enabled a /\
  CSSCoverage.eventListeners b = CSSCoverage.eventListeners a /\
  CSSCoverage.resetOnNavigation b = CSSCoverage.resetOnNavigation a.

(** The fields that [stop_body] reads are those of the tracker on which
    [stop] was called. *)
Definition js_same_cache (a b : JSCoverage.t) : Prop :=
  JSCoverage.scriptURLs b = JSCoverage.scriptURLs a /\
  JSCoverage.scriptSources b = JSCoverage.scriptSources a /\
  JSCoverage.reportAnonymousScripts b = JSCoverage.reportAnonymousScripts a /\
  JSCoverage.includeRawScriptCoverage b = JSCoverage.includeRawScriptCoverage a.

(** The script [id] is in neither map and no fetch of its source is under
    way. *)
Definition js_unknown (w : JSCoverage.Loop) (id : string) : Prop :=
  JSMap.get (JSCoverage.scriptURLs (JSCoverage.tracker w)) id = None /\
  JSMap.get (JSCoverage.scriptSources (JSCoverage.tracker w)) id = None /\
  Forall (fun ev => Protocol.ScriptParsedEvent.scriptId ev <> id)
         (JSCoverage.inflight w).


(** The ranges that [stop] hands to the merger for a stylesheet. *)
Definition css_usage (ruleUsage : list Protocol.RuleUsage) (id : string)
  : list UsageRange :=
  match JSMap.get (CSSCoverage.aggregate ruleUsage) id with
  | Some ranges => ranges
  | None => []
  end.

(** [e] is the entry that [stop] builds for the stylesheet [id]. *)
Definition css_entry_for (this : CSSCoverage.t)
    (ruleUsage : list Protocol.RuleUsage) (id : string) (e : CoverageEntry)
  : Prop :=
  JSMap.get (CSSCoverage.stylesheetURLs this) id = Some (url e) /\
  JSMap.get (CSSCoverage.stylesheetSources this) id = Some (text e) /\
  ranges e = convertToDisjointRanges (css_usage ruleUsage id) /\
  rawScriptCoverage e = None.

(** [l] lists some of the elements of [order], in the order of [order]. *)
Fixpoint subsequence (l order : list string) : bool :=
  match l, order with
  | [], _ => true
  | _ :: _, [] => false
  | a :: l', b :: order' =>
      if String.eqb a b then subsequence l' order' else subsequence l order'
  end.

(** ** Concrete sessions *)

Module Demo.

(** A session that accepts every command. *)
Definition session (snapshot : list Protocol.ScriptCoverage)
    (ruleUsage : list Protocol.RuleUsage) : Protocol.CDPSession :=
  fun c =>
    match c return option (Protocol.Response c) with
    | Protocol.Debugger_getScriptSource _ => Some "source"%string
    | Protocol.CSS_getStyleSheetText _ => Some "text"%string
    | Protocol.Profiler_takePreciseCoverage => Some snapshot
    | Protocol.CSS_stopRuleUsageTracking => Some ruleUsage
    | _ => Some tt
    end.

Definition isPuppeteerURL (url : string) : bool := String.prefix "pptr:" url.

Definition script (id : string) (ranges : list UsageRange)
  : Protocol.ScriptCoverage :=
  Protocol.mkScriptCoverage id ""
    [Protocol.mkFunctionCoverage "" ranges true].

(** The profiler lists script 2 before script 1. *)
Definition snapshot : list Protocol.ScriptCoverage :=
  [script "2" [mkUsage 0 4 1]; script "1" [mkUsage 0 10 1; mkUsage 2 5 0]].

Definition parsed (id url : string) : JSCoverage.Task :=
  JSCoverage.ScriptParsed (Protocol.ScriptParsedEvent.mk id url).

Definition js_started (options : JSCoverage.Options.t) : JSCoverage.Loop :=
  JSCoverage.mkLoop
    (fst (JSCoverage.start options (JSCoverage.new (session snapshot []))))
    [].

(** Scripts 1 and 2 are registered and fetched in this order. *)
Definition js_two_scripts : JSCoverage.t :=
  JSCoverage.tracker
    (JSCoverage.run isPuppeteerURL
       [parsed "1" "a.js"; parsed "2" "b.js";
        JSCoverage.ScriptSourceSettled 0 (Some "A"%string);
        JSCoverage.ScriptSourceSettled 0 (Some "B"%string)]
       (js_started JSCoverage.Options.none)).


(** A tracker that reports anonymous scripts. *)
Definition js_reporting : JSCoverage.t :=
  JSCoverage.tracker
    (js_started (JSCoverage.Options.mk None (Some true) None None)).

Definition added (id url : string) : CSSCoverage.Task :=
  CSSCoverage.StyleSheetAdded
    (Protocol.StyleSheetAddedEvent.mk (Protocol.CSSStyleSheetHeader.mk id url)).

Definition ruleUsage : list Protocol.RuleUsage :=
  [Protocol.mkRuleUsage "s1" 0 5 true; Protocol.mkRuleUsage "s1" 5 9 false].

(** Stylesheets s1 and s2 are registered in this order; the text of s2
    arrives first. *)
Definition css_two_sheets : CSSCoverage.t :=
  CSSCoverage.tracker
    (CSSCoverage.run
       [added "s1" "a.css"; added "s2" "b.css";
        CSSCoverage.StyleSheetTextSettled 1 (Some "B"%string);
        CSSCoverage.StyleSheetTextSettled 0 (Some "A"%string)]
       (CSSCoverage.mkLoop
          (fst (CSSCoverage.start CSSCoverage.Options.none
                  (CSSCoverage.new (session [] ruleUsage))))
          [])).

(** The facade over the two trackers above. *)
Definition coverage : Coverage.t := Coverage.mk js_two_scripts css_two_sheets.

End Demo.

(** ** Vocabulary of the further properties *)

(** [z] is the start or the end of a range of [rs]. *)
Definition boundary_of (rs : list UsageRange) (z : Z) : Prop :=
  exists r, In r rs /\ (z = startOffset r \/ z = endOffset r).

(** Position [p] lies in some range of [rs]. *)
Definition union_of (rs : list UsageRange) (p : Z) : Prop :=
  exists r, In r rs /\ contains r p.

(** How many points of a list push on the hit count stack, and how many
    pop: the loop pushes on type [0] and pops on every other type. *)
Definition pushes (l : list Point) : nat :=
  List.length (filter (fun q => type q =? 0) l).

Definition pops (l : list Point) : nat :=
  List.length (filter (fun q => negb (type q =? 0)) l).

(** [G] without its first occurrence of [r]. *)
Fixpoint remove_first (r : UsageRange) (G : list UsageRange)
  : list UsageRange :=
  match G with
  | [] => []
  | g :: G' => if UsageRange_eq_dec g r then G' else g :: remove_first r G'
  end.

(** [G] holds the ranges that the points [pre] have opened and not yet
    closed, each as often as it is open. *)
Definition open_ranges (pre : list Point) (G : list UsageRange) : Prop :=
  forall r, (count_occ UsageRange_eq_dec G r + closes pre r = opens pre r)%nat.

(** The loop invariant for ranges that may overlap without nesting. *)
Definition union_inv (N : list UsageRange) (pre suf : list Point) (st : Sweep)
  : Prop :=
  exists G,
    List.length (hitCountStack st) = List.length G /\
    open_ranges pre G /\
    (List.length (hitCountStack st) + pops pre = pushes pre)%nat /\
    Forall (fun c => exists r, In r N /\ c = count r) (hitCountStack st) /\
    (forall q, In q pre -> offset q <= lastOffset st) /\
    (pre <> [] -> exists q, In q pre /\ offset q = lastOffset st) /\
    (forall p, covered (results st) p -> union_of N p) /\
    (Forall (fun r => count r > 0) N ->
     forall p, pre <> [] -> p < lastOffset st -> union_of N p ->
               covered (results st) p) /\
    sweep_ok st suf.

(** Every registration of the script [id] among [tasks] carries a URL that
    [isPuppeteerURL] recognizes. *)
Definition puppeteer_only (isPuppeteerURL : string -> bool)
    (tasks : list JSCoverage.Task) (id : string) : Prop :=
  forall ev, In (JSCoverage.ScriptParsed ev) tasks ->
    Protocol.ScriptParsedEvent.scriptId ev = id ->
    isPuppeteerURL (Protocol.ScriptParsedEvent.url ev) = true.

(** The stylesheet [id] is in neither map and no fetch of its text is under
    way. *)
Definition css_unknown (w : CSSCoverage.Loop) (id : string) : Prop :=
  JSMap.get (CSSCoverage.stylesheetURLs (CSSCoverage.tracker w)) id = None /\
  JSMap.get (CSSCoverage.stylesheetSources (CSSCoverage.tracker w)) id = None /\
  Forall (fun ev =>
            Protocol.CSSStyleSheetHeader.styleSheetId
              (Protocol.StyleSheetAddedEvent.header ev) <> id)
         (CSSCoverage.inflight w).

(** Every registration of the stylesheet [id] among [tasks] comes without a
    source URL. *)
Definition css_anonymous_only (tasks : list CSSCoverage.Task) (id : string)
  : Prop :=
  forall ev, In (CSSCoverage.StyleSheetAdded ev) tasks ->
    Protocol.CSSStyleSheetHeader.styleSheetId
      (Protocol.StyleSheetAddedEvent.header ev) = id ->
    Protocol.CSSStyleSheetHeader.sourceURL
      (Protocol.StyleSheetAddedEvent.header ev) = EmptyString.

(** The two maps of the script tracker hold the same scripts. *)
Definition js_maps_agree (this : JSCoverage.t) : Prop :=
  JSMap.keys (JSCoverage.scriptURLs this)
  = JSMap.keys (JSCoverage.scriptSources this).

(** The two maps of the stylesheet tracker hold the same stylesheets. *)
Definition css_maps_agree (this : CSSCoverage.t) : Prop :=
  JSMap.keys (CSSCoverage.stylesheetURLs this)
  = JSMap.keys (CSSCoverage.stylesheetSources this).

(** The range that [stop] makes of one [CSS.RuleUsage]. *)
Definition usage_of_rule (u : Protocol.RuleUsage) : UsageRange :=
  mkUsage (Protocol.startOffset u) (Protocol.endOffset u)
    (if Protocol.used u then 1 else 0).

(** The array stored under [id], or the empty array. *)
Definition ranges_at (m : JSMap.t (list UsageRange)) (id : string)
  : list UsageRange :=
  match JSMap.get m id with
  | Some ranges => ranges
  | None => []
  end.

(** Every cached URL of the script tracker, and the URL of every
    registration whose fetch is under way, is non-empty, unless anonymous
    scripts are reported. *)
Definition js_urls_named (w : JSCoverage.Loop) : Prop :=
  JSCoverage.reportAnonymousScripts (JSCoverage.tracker w) = true \/
  (Forall (fun kv => truthy (snd kv) = true)
          (JSCoverage.scriptURLs (JSCoverage.tracker w)) /\
   Forall (fun ev => truthy (Protocol.ScriptParsedEvent.url ev) = true)
          (JSCoverage.inflight w)).

(** Every cached URL of the stylesheet tracker, and the source URL of every
    registration whose fetch is under way, is non-empty. *)
Definition css_urls_named (w : CSSCoverage.Loop) : Prop :=
  Forall (fun kv => truthy (snd kv) = true)
         (CSSCoverage.stylesheetURLs (CSSCoverage.tracker w)) /\
  Forall (fun ev =>
            truthy (Protocol.CSSStyleSheetHeader.sourceURL
                      (Protocol.StyleSheetAddedEvent.header ev)) = true)
         (CSSCoverage.inflight w).

(** ** Sessions that reject a command *)

Module Refusing.

Definition isDebuggerEnable (c : Protocol.Command) : bool :=
  match c with Protocol.Debugger_enable => true | _ => false end.

Definition isProfilerDisable (c : Protocol.Command) : bool :=
  match c with Protocol.Profiler_disable => true | _ => false end.

(** A session that rejects [Debugger.enable]. *)
Definition noDebugger : Protocol.CDPSession :=
  fun c => if isDebuggerEnable c then None else Demo.session Demo.snapshot [] c.

(** A session that rejects [Profiler.disable]. *)
Definition noProfilerDisable : Protocol.CDPSession :=
  fun c => if isProfilerDisable c then None else Demo.session Demo.snapshot [] c.

End Refusing.

(** ** Vocabulary of the anonymous-script property *)



Module Leak.




End Leak.

(** * Properties of the range merger *)

(** ** The comparator is a total preorder *)

Ltac cmp_cases :=
  unfold le_point, comparePoints in *;
  repeat match goal with
  | H : context [Z.eqb ?x ?y] |- _ => destruct (Z.eqb_spec x y); simpl in H
  | |- context [Z.eqb ?x ?y] => destruct (Z.eqb_spec x y); simpl
  end;
  cbn [negb] in *.

Lemma le_point_total a b : le_point a b \/ le_point b a.
Proof. cmp_cases; lia. Qed.

Lemma le_point_trans a b c : le_point a b -> le_point b c -> le_point a c.
Proof. intros Hab Hbc. cmp_cases; lia. Qed.

Lemma le_point_offset a b : le_point a b -> offset a <= offset b.
Proof. intros H. cmp_cases; lia. Qed.

Lemma gt_point_le a b : ~ le_point a b -> le_point b a.
Proof. destruct (le_point_total a b); tauto. Qed.

(** ** The sort

    [sort_points] returns a sorted permutation of its argument and is stable:
    points that the comparator ties keep the order they had.  A sorted
    permutation that keeps this order is unique, so [sort_points] is what any
    stable sort returns. *)

Lemma insert_point_perm a l : Permutation (a :: l) (insert_point a l).
Proof.
  induction l as [|b l IH]; simpl; [reflexivity|].
  destruct (comparePoints a b <=? 0); [reflexivity|].
  rewrite perm_swap. now constructor.
Qed.

Lemma sort_points_perm l : Permutation l (sort_points l).
Proof.
  induction l as [|a l IH]; simpl; [constructor|].
  rewrite <- insert_point_perm. now constructor.
Qed.

Lemma insert_point_sorted a l :
  StronglySorted le_point l -> StronglySorted le_point (insert_point a l).
Proof.
  induction 1 as [|b l Hs IH Hb]; simpl.
  - repeat constructor.
  - destruct (Z.leb_spec (comparePoints a b) 0) as [Hle|Hgt].
    + constructor; [now constructor|].
      constructor; [exact Hle|].
      eapply Forall_impl; [|exact Hb].
      intros c Hc. eapply le_point_trans; eassumption.
    + constructor; [exact IH|].
      assert (Hba : le_point b a) by (apply gt_point_le; unfold le_point; lia).
      assert (Hall : Forall (le_point b) (a :: l)) by now constructor.
      eapply Permutation_Forall; [apply insert_point_perm|exact Hall].
Qed.

Lemma sort_points_sorted l : StronglySorted le_point (sort_points l).
Proof.
  induction l as [|a l IH]; simpl; [constructor|].
  now apply insert_point_sorted.
Qed.

Lemma tied_le a b : tied a b = true <-> le_point a b /\ le_point b a.
Proof.
  unfold tied. rewrite Z.eqb_eq. split; [intros H|intros [H1 H2]].
  - split; cmp_cases; lia.
  - cmp_cases; lia.
Qed.

Lemma tied_refl a : tied a a = true.
Proof. unfold tied. apply Z.eqb_eq. cmp_cases; lia. Qed.

Lemma insert_point_stable p a l :
  filter (tied p) (insert_point a l) = filter (tied p) (a :: l).
Proof.
  induction l as [|b l IH]; [reflexivity|].
  cbn [insert_point].
  destruct (Z.leb_spec (comparePoints a b) 0) as [Hle|Hgt]; [reflexivity|].
  cbn [filter] in *. rewrite IH.
  destruct (tied p a) eqn:Ea, (tied p b) eqn:Eb; try reflexivity.
  exfalso. apply tied_le in Ea, Eb. destruct Ea as [Ea1 Ea2], Eb as [Eb1 Eb2].
  assert (H : le_point a b) by (eapply le_point_trans; eassumption).
  unfold le_point in H. lia.
Qed.

Lemma sort_points_stable p l :
  filter (tied p) (sort_points l) = filter (tied p) l.
Proof.
  induction l as [|a l IH]; [reflexivity|].
  cbn [sort_points fold_right]. fold (sort_points l).
  rewrite insert_point_stable. cbn [filter]. now rewrite IH.
Qed.

Lemma stable_sort_unique l1 :
  forall l2,
    StronglySorted le_point l1 -> StronglySorted le_point l2 ->
    Permutation l1 l2 ->
    (forall p, filter (tied p) l1 = filter (tied p) l2) ->
    l1 = l2.
Proof.
  induction l1 as [|a l1 IH]; intros l2 H1 H2 Hp Hst.
  - now apply Permutation_nil in Hp.
  - destruct l2 as [|b l2].
    + symmetry in Hp. now apply Permutation_nil in Hp.
    + inversion H1 as [|? ? Hs1 Ha]; subst. inversion H2 as [|? ? Hs2 Hb]; subst.
      rewrite Forall_forall in Ha, Hb.
      assert (Hab : le_point a b).
      { assert (Hin : In b (a :: l1))
          by (eapply Permutation_in; [symmetry; exact Hp|now left]).
        destruct Hin as [->|Hin]; [destruct (le_point_total b b); assumption|].
        now apply Ha. }
      assert (Hba : le_point b a).
      { assert (Hin : In a (b :: l2))
          by (eapply Permutation_in; [exact Hp|now left]).
        destruct Hin as [->|Hin]; [destruct (le_point_total a a); assumption|].
        now apply Hb. }
      assert (E : a = b).
      { pose proof (Hst a) as Hf. cbn [filter] in Hf.
        rewrite tied_refl in Hf.
        replace (tied a b) with true in Hf
          by (symmetry; apply tied_le; now split).
        now injection Hf. }
      subst b. f_equal. apply IH; try assumption.
      * eapply Permutation_cons_inv; exact Hp.
      * intros p. specialize (Hst p). cbn [filter] in Hst.
        destruct (tied p a); [now injection Hst|exact Hst].
Qed.

(** Whatever stable sort the engine runs, it returns [sort_points]. *)
Lemma sort_points_is_the_stable_sort l l' :
  StronglySorted le_point l' -> Permutation l l' ->
  (forall p, filter (tied p) l' = filter (tied p) l) ->
  l' = sort_points l.
Proof.
  intros Hs Hp Hst. apply stable_sort_unique.
  - exact Hs.
  - apply sort_points_sorted.
  - rewrite <- Hp. apply sort_points_perm.
  - intros p. now rewrite Hst, sort_points_stable.
Qed.

(** ** The loop on arrays and the loop on mirrored arrays *)

Lemma lastOf_snoc {A} (l : list A) x : lastOf (l ++ [x]) = Some x.
Proof.
  induction l as [|a l IH]; [reflexivity|].
  simpl. rewrite IH. now destruct (l ++ [x]) eqn:E; [destruct l; discriminate|].
Qed.

Lemma lastOf_rev {A} (l : list A) : lastOf l = hd_error (rev l).
Proof.
  destruct (rev l) as [|x r] eqn:E.
  - apply (f_equal (@rev A)) in E. rewrite rev_involutive in E. now subst.
  - apply (f_equal (@rev A)) in E. rewrite rev_involutive in E. subst l.
    simpl. apply lastOf_snoc.
Qed.

Lemma removelast_rev {A} (l : list A) : rev (removelast l) = tl (rev l).
Proof.
  destruct (rev l) as [|x r] eqn:E.
  - apply (f_equal (@rev A)) in E. rewrite rev_involutive in E. now subst.
  - apply (f_equal (@rev A)) in E. rewrite rev_involutive in E. subst l.
    simpl. now rewrite removelast_last, rev_involutive.
Qed.

Lemma mirror_step st q : mirror (sweep_step st q) = rsweep_step (mirror st) q.
Proof.
  unfold mirror, sweep_step, rsweep_step; simpl. f_equal.
  - destruct (type q =? 0); [apply rev_unit|apply removelast_rev].
  - rewrite (lastOf_rev (hitCountStack st)).
    destruct (rev (hitCountStack st)) as [|top stk]; simpl; [reflexivity|].
    destruct ((lastOffset st <? offset q) && (top >? 0)); [|reflexivity].
    rewrite (lastOf_rev (results st)).
    destruct (rev (results st)) as [|l R] eqn:E; simpl.
    + apply (f_equal (@rev DisjointRange)) in E.
      rewrite rev_involutive in E. now rewrite E.
    + destruct (end_ l =? lastOffset st).
      * rewrite rev_unit, removelast_rev, E. reflexivity.
      * now rewrite rev_unit, E.
Qed.

Lemma mirror_sweep pts :
  forall st, mirror (sweep pts st) = rsweep pts (mirror st).
Proof.
  induction pts as [|q pts IH]; intros st; [reflexivity|].
  simpl. now rewrite IH, mirror_step.
Qed.

(** The merger, computed on the mirrored arrays. *)
Lemma convert_rev_eq rs : convertToDisjointRanges rs = convert_rev rs.
Proof.
  unfold convertToDisjointRanges, convert_rev.
  change sweep_init with (mirror sweep_init) at 2.
  rewrite <- mirror_sweep. simpl. now rewrite rev_involutive.
Qed.

(** ** The output is canonical *)

Lemma sweep_step_ok st q rest :
  StronglySorted le_point (q :: rest) ->
  sweep_ok st (q :: rest) -> sweep_ok (rsweep_step st q) rest.
Proof.
  intros Hs (Hc & Hb & Hl).
  assert (Hrest : Forall (fun q' => offset q <= offset q') rest).
  { inversion Hs; subst. eapply Forall_impl; [|eassumption].
    intros c Hc'. now apply le_point_offset. }
  assert (Hkeep : sweep_ok (mkSweep (if type q =? 0
                                     then count (range q) :: hitCountStack st
                                     else tl (hitCountStack st))
                              (results st) (offset q)) rest).
  { unfold sweep_ok; simpl. split; [exact Hc|]. split; [|intros _; exact Hrest].
    intros d Hd. assert (Hne : results st <> []) by (intros E; rewrite E in Hd; inversion Hd).
    specialize (Hl Hne). inversion Hl; subst. specialize (Hb d Hd). lia. }
  unfold rsweep_step.
  destruct (hitCountStack st) as [|top stk] eqn:Estk; [exact Hkeep|].
  destruct ((lastOffset st <? offset q) && (top >? 0)) eqn:Econd;
    [|exact Hkeep].
  apply andb_true_iff in Econd. destruct Econd as [Hlt _].
  apply Z.ltb_lt in Hlt.
  destruct (results st) as [|l R] eqn:ER.
  - unfold sweep_ok; simpl. split; [|split].
    + repeat split; [exact Hlt|]. intros d' [].
    + intros d [<-|[]]. simpl. lia.
    + intros _. exact Hrest.
  - simpl in Hc. destruct Hc as (Hl1 & Hl2 & Hl3).
    destruct (Z.eqb_spec (end_ l) (lastOffset st)) as [Heq|Hneq];
      unfold sweep_ok; simpl; (split; [|split]).
    + repeat split; [lia|exact Hl2|exact Hl3].
    + intros d [<-|Hd]; simpl; [lia|]. specialize (Hl2 d Hd). lia.
    + intros _. exact Hrest.
    + repeat split; [exact Hlt| |exact Hl1|exact Hl2|exact Hl3].
      intros d' [Hd'|Hd'].
      * subst d'. specialize (Hb l (or_introl eq_refl)). lia.
      * specialize (Hl2 d' Hd'). specialize (Hb l (or_introl eq_refl)). lia.
    + intros d [<-|Hd]; simpl; [lia|]. specialize (Hb d Hd). lia.
    + intros _. exact Hrest.
Qed.

Lemma sweep_ok_final pts st :
  StronglySorted le_point pts -> sweep_ok st pts ->
  rchain (results (rsweep pts st)).
Proof.
  revert st. induction pts as [|q pts IH]; intros st Hs Hok; simpl.
  - apply Hok.
  - apply IH; [now inversion Hs|]. now apply sweep_step_ok.
Qed.

Lemma StronglySorted_snoc {A} (R : A -> A -> Prop) l a :
  StronglySorted R l -> Forall (fun b => R b a) l -> StronglySorted R (l ++ [a]).
Proof.
  induction 1 as [|b l Hs IH Hb]; intros Hall; simpl.
  - repeat constructor.
  - inversion Hall; subst. constructor; [now apply IH|].
    apply Forall_app. split; [exact Hb|]. now repeat constructor.
Qed.

Lemma rchain_rev R : rchain R -> canonical (rev R).
Proof.
  unfold canonical, all_nonempty.
  induction R as [|d R IH]; simpl; intros H.
  - split; constructor.
  - destruct H as (H1 & H2 & H3). destruct (IH H3) as [Ha Hb]. split.
    + apply Forall_app. split; [exact Ha|]. now repeat constructor.
    + apply StronglySorted_snoc; [exact Hb|].
      apply Forall_forall. intros b Hin. apply H2. now apply in_rev.
Qed.

Lemma filter_all_nonempty out :
  all_nonempty out -> filter (fun range => end_ range - start range >? 0) out = out.
Proof.
  unfold all_nonempty. induction 1 as [|d out Hd _ IH]; simpl; [reflexivity|].
  replace (end_ d - start d >? 0) with true; [now rewrite IH|].
  symmetry. rewrite Z.gtb_ltb. apply Z.ltb_lt. lia.
Qed.

Lemma sweep_chain rs :
  rchain (results (rsweep (sort_points (pointsOf rs)) sweep_init)).
Proof.
  apply sweep_ok_final; [apply sort_points_sorted|].
  unfold sweep_ok, sweep_init; simpl.
  split; [exact I|]. split; [intros d []|]. intros H. now elim H.
Qed.

(** The final [filter] removes nothing: the loop never records an empty
    range. *)
Lemma convert_unfiltered rs :
  convertToDisjointRanges rs
  = rev (results (rsweep (sort_points (pointsOf rs)) sweep_init)).
Proof.
  rewrite convert_rev_eq. unfold convert_rev. apply filter_all_nonempty.
  apply rchain_rev, sweep_chain.
Qed.

Lemma convert_canonical rs : canonical (convertToDisjointRanges rs).
Proof. rewrite convert_unfiltered. apply rchain_rev, sweep_chain. Qed.

Lemma StronglySorted_nth {A} (R : A -> A -> Prop) l :
  StronglySorted R l ->
  forall i j a b, (i < j)%nat ->
    nth_error l i = Some a -> nth_error l j = Some b -> R a b.
Proof.
  induction 1 as [|x l Hs IH Hx]; intros i j a b Hij Ha Hb.
  - destruct i; discriminate.
  - destruct j as [|j]; [lia|]. simpl in Hb. destruct i as [|i]; simpl in Ha.
    + injection Ha as <-. rewrite Forall_forall in Hx. apply Hx.
      eapply nth_error_In; eassumption.
    + eapply IH; [|eassumption|eassumption]. lia.
Qed.

Lemma canonical_apart out :
  canonical out ->
  forall i j a b, (i < j)%nat ->
    nth_error out i = Some a -> nth_error out j = Some b ->
    start a < end_ a /\ end_ a < start b /\ start b < end_ b.
Proof.
  intros [Hne Hs] i j a b Hij Ha Hb.
  unfold all_nonempty in Hne. rewrite Forall_forall in Hne.
  repeat split.
  - apply Hne. eapply nth_error_In; eassumption.
  - eapply (StronglySorted_nth _ _ Hs); eassumption.
  - apply Hne. eapply nth_error_In; eassumption.
Qed.

(** C2: for every list of usage ranges the output is sorted ascending by
    start, every output range has [start < end], no two output ranges
    overlap, and no output range ends where the next one starts. *)
Theorem convertToDisjointRanges_minimal (rs : list UsageRange) :
  ascending (convertToDisjointRanges rs) /\
  all_nonempty (convertToDisjointRanges rs) /\
  pairwise_disjoint (convertToDisjointRanges rs) /\
  never_contiguous (convertToDisjointRanges rs).
Proof.
  pose proof (convert_canonical rs) as Hc.
  pose proof (canonical_apart _ Hc) as Hap.
  split; [|split; [|split]].
  - intros i j a b Hij Ha Hb. specialize (Hap i j a b Hij Ha Hb). lia.
  - apply Hc.
  - intros i j a b Hij Ha Hb p [Hpa Hpb]. unfold inside in *.
    destruct (Nat.lt_total i j) as [Hlt|[Heq|Hgt]]; [|contradiction|].
    + specialize (Hap i j a b Hlt Ha Hb). lia.
    + specialize (Hap j i b a Hgt Hb Ha). lia.
  - intros i a b Ha Hb. specialize (Hap i (S i) a b (Nat.lt_succ_diag_r i) Ha Hb).
    lia.
Qed.

(** C5: the three concrete scenarios. *)
Theorem convertToDisjointRanges_scenarios :
  convertToDisjointRanges [mkUsage 0 10 1; mkUsage 2 5 1] = [mkRange 0 10] /\
  convertToDisjointRanges [mkUsage 0 5 1; mkUsage 5 10 1] = [mkRange 0 10] /\
  convertToDisjointRanges [mkUsage 0 5 0; mkUsage 5 10 1] = [mkRange 5 10].
Proof. repeat split; reflexivity. Qed.

(** ** Idempotence *)

Lemma lt_offset_le_point a b : offset a < offset b -> le_point a b.
Proof. intros H. cmp_cases; lia. Qed.

Lemma canonical_cons_inv d out :
  canonical (d :: out) ->
  start d < end_ d /\ canonical out /\
  (forall d', hd_error out = Some d' -> end_ d < start d').
Proof.
  intros [Hne Hs]. inversion Hne; subst. inversion Hs; subst.
  repeat split; try assumption.
  intros d' Hd'. destruct out as [|x out]; [discriminate|].
  injection Hd' as ->. now inversion H4.
Qed.

(** The points of a canonical list of ranges are already in order. *)
Lemma sort_points_canonical U :
  canonical (map bounds U) -> sort_points (pointsOf U) = pointsOf U.
Proof.
  induction U as [|u U IH]; intros Hc; [reflexivity|].
  simpl in Hc. apply canonical_cons_inv in Hc. destruct Hc as (Hu & Hc & Hnext).
  simpl in Hu. change (pointsOf (u :: U)) with (startPoint u :: endPoint u :: pointsOf U).
  simpl. fold (sort_points (pointsOf U)). rewrite (IH Hc).
  assert (E : insert_point (endPoint u) (pointsOf U) = endPoint u :: pointsOf U).
  { destruct U as [|v U]; [reflexivity|].
    change (pointsOf (v :: U)) with (startPoint v :: endPoint v :: pointsOf U).
    simpl. specialize (Hnext _ eq_refl). simpl in Hnext.
    assert (H : le_point (endPoint u) (startPoint v))
      by (apply lt_offset_le_point; simpl; lia).
    unfold le_point in H. apply Z.leb_le in H. now rewrite H. }
  rewrite E. simpl.
  assert (H : le_point (startPoint u) (endPoint u))
    by (apply lt_offset_le_point; simpl; lia).
  unfold le_point in H. apply Z.leb_le in H. now rewrite H.
Qed.

(** Sweeping the points of a canonical list of hit ranges records exactly
    these ranges. *)
Lemma sweep_canonical U :
  Forall (fun u => count u > 0) U ->
  canonical (map bounds U) ->
  forall R lo,
    (forall l u, hd_error R = Some l -> hd_error U = Some u ->
                 end_ l < startOffset u) ->
    hitCountStack (rsweep (pointsOf U) (mkSweep [] R lo)) = [] /\
    results (rsweep (pointsOf U) (mkSweep [] R lo)) = rev (map bounds U) ++ R.
Proof.
  induction 1 as [|u U Hu _ IH]; intros Hc R lo Hhd; [now split|].
  simpl in Hc. apply canonical_cons_inv in Hc. destruct Hc as (Hne & Hc & Hnext).
  simpl in Hne.
  change (pointsOf (u :: U)) with (startPoint u :: endPoint u :: pointsOf U).
  unfold rsweep. simpl fold_left.
  assert (E : rsweep_step (rsweep_step (mkSweep [] R lo) (startPoint u)) (endPoint u)
              = mkSweep [] (bounds u :: R) (endOffset u)).
  { unfold rsweep_step; simpl.
    replace (startOffset u <? endOffset u) with true
      by (symmetry; apply Z.ltb_lt; lia).
    replace (count u >? 0) with true
      by (symmetry; rewrite Z.gtb_ltb; apply Z.ltb_lt; lia).
    simpl. destruct R as [|l R]; [reflexivity|].
    specialize (Hhd l u eq_refl eq_refl).
    destruct (Z.eqb_spec (end_ l) (startOffset u)); [lia|reflexivity]. }
  rewrite E. fold (rsweep (pointsOf U) (mkSweep [] (bounds u :: R) (endOffset u))).
  destruct (IH Hc (bounds u :: R) (endOffset u)) as [H1 H2].
  { intros l v Hl Hv. injection Hl as <-. simpl.
    destruct U as [|w U]; [discriminate|]. injection Hv as ->.
    apply (Hnext (bounds v)). reflexivity. }
  split; [exact H1|]. rewrite H2. simpl. now rewrite <- app_assoc.
Qed.

Lemma convert_canonical_fixpoint U :
  Forall (fun u => count u > 0) U ->
  canonical (map bounds U) ->
  convertToDisjointRanges U = map bounds U.
Proof.
  intros Hpos Hc. rewrite convert_unfiltered, (sort_points_canonical _ Hc).
  destruct (sweep_canonical U Hpos Hc [] 0) as [_ H].
  { intros l u Hl. discriminate. }
  unfold sweep_init. rewrite H, app_nil_r. apply rev_involutive.
Qed.

(** C4: the merger is idempotent.  Whatever positive hit counts the output
    ranges of [rs] are given when they are fed back as usage ranges [U], the
    merger returns the output of [rs] again. *)
Theorem convertToDisjointRanges_idempotent
    (rs U : list UsageRange)
    (Hhit : Forall (fun u => count u > 0) U)
    (Hfeed : map bounds U = convertToDisjointRanges rs) :
  convertToDisjointRanges U = convertToDisjointRanges rs.
Proof.
  rewrite <- Hfeed. apply convert_canonical_fixpoint; [exact Hhit|].
  rewrite Hfeed. apply convert_canonical.
Qed.

Lemma convertToDisjointRanges_idempotent_witness :
  Forall (fun u => count u > 0) [mkUsage 0 2 1; mkUsage 5 10 7] /\
  map bounds [mkUsage 0 2 1; mkUsage 5 10 7]
    = convertToDisjointRanges [mkUsage 0 10 1; mkUsage 2 5 0] /\
  convertToDisjointRanges [mkUsage 0 2 1; mkUsage 5 10 7]
    = convertToDisjointRanges [mkUsage 0 10 1; mkUsage 2 5 0].
Proof.
  assert (H1 : Forall (fun u => count u > 0) [mkUsage 0 2 1; mkUsage 5 10 7])
    by (repeat constructor; simpl; lia).
  assert (H2 : map bounds [mkUsage 0 2 1; mkUsage 5 10 7]
               = convertToDisjointRanges [mkUsage 0 10 1; mkUsage 2 5 0])
    by reflexivity.
  split; [exact H1|]. split; [exact H2|].
  exact (convertToDisjointRanges_idempotent _ _ H1 H2).
Defined.

(** ** Only the sign of a hit count matters *)

Lemma hit_normalize r : hit (normalize r) = hit r.
Proof. unfold normalize, hit; cbn [count]. now destruct (count r >? 0). Qed.

Lemma comparePoints_normalize a b :
  comparePoints (normalize_point a) (normalize_point b) = comparePoints a b.
Proof. reflexivity. Qed.

Lemma insert_point_normalize a l :
  insert_point (normalize_point a) (map normalize_point l)
  = map normalize_point (insert_point a l).
Proof.
  induction l as [|b l IH]; simpl; [reflexivity|].
  rewrite comparePoints_normalize.
  destruct (comparePoints a b <=? 0); simpl; [reflexivity|now rewrite IH].
Qed.

Lemma sort_points_normalize l :
  sort_points (map normalize_point l) = map normalize_point (sort_points l).
Proof.
  induction l as [|a l IH]; simpl; [reflexivity|].
  fold (sort_points (map normalize_point l)). fold (sort_points l).
  now rewrite IH, insert_point_normalize.
Qed.

Lemma pointsOf_normalize rs :
  pointsOf (map normalize rs) = map normalize_point (pointsOf rs).
Proof.
  induction rs as [|r rs IH]; [reflexivity|].
  change (pointsOf (map normalize (r :: rs)))
    with (startPoint (normalize r) :: endPoint (normalize r)
            :: pointsOf (map normalize rs)).
  now rewrite IH.
Qed.

Lemma sweep_step_normalize st q :
  rsweep_step (normalize_sweep st) (normalize_point q)
  = normalize_sweep (rsweep_step st q).
Proof.
  unfold rsweep_step, normalize_sweep; simpl.
  f_equal.
  - destruct (type q =? 0); simpl.
    + reflexivity.
    + now destruct (hitCountStack st).
  - destruct (hitCountStack st) as [|top stk]; simpl; [reflexivity|].
    replace ((if top >? 0 then 1 else 0) >? 0) with (top >? 0)
      by now destruct (top >? 0).
    reflexivity.
Qed.

Lemma sweep_normalize pts st :
  rsweep (map normalize_point pts) (normalize_sweep st)
  = normalize_sweep (rsweep pts st).
Proof.
  revert st. induction pts as [|q pts IH]; intros st; [reflexivity|].
  simpl. rewrite sweep_step_normalize. apply IH.
Qed.

Lemma convert_normalize rs :
  convertToDisjointRanges (map normalize rs) = convertToDisjointRanges rs.
Proof.
  rewrite !convert_rev_eq. unfold convert_rev.
  rewrite pointsOf_normalize, sort_points_normalize.
  change sweep_init with (normalize_sweep sweep_init).
  now rewrite sweep_normalize.
Qed.

(** ** Independence of the input order *)

Lemma le_point_refl a : le_point a a.
Proof. destruct (le_point_total a a); assumption. Qed.

Lemma sorted_perm_unique l1 :
  forall l2,
    StronglySorted le_point l1 -> StronglySorted le_point l2 ->
    Permutation l1 l2 ->
    (forall a b, In a l1 -> In b l1 -> le_point a b -> le_point b a -> a = b) ->
    l1 = l2.
Proof.
  induction l1 as [|a l1 IH]; intros l2 H1 H2 Hp Hanti.
  - now apply Permutation_nil in Hp.
  - destruct l2 as [|b l2].
    + symmetry in Hp. now apply Permutation_nil in Hp.
    + inversion H1 as [|? ? Hs1 Ha]; subst. inversion H2 as [|? ? Hs2 Hb]; subst.
      rewrite Forall_forall in Ha, Hb.
      assert (Hab : le_point a b).
      { assert (Hin : In b (a :: l1))
          by (eapply Permutation_in; [symmetry; exact Hp|now left]).
        destruct Hin as [->|Hin]; [apply le_point_refl|now apply Ha]. }
      assert (Hba : le_point b a).
      { assert (Hin : In a (b :: l2))
          by (eapply Permutation_in; [exact Hp|now left]).
        destruct Hin as [->|Hin]; [apply le_point_refl|now apply Hb]. }
      assert (E : a = b).
      { apply Hanti; try assumption; [now left|].
        eapply Permutation_in; [symmetry; exact Hp|now left]. }
      subst b. f_equal. apply IH; try assumption.
      * eapply Permutation_cons_inv; exact Hp.
      * intros x y Hx Hy. apply Hanti; now right.
Qed.

Lemma in_pointsOf q rs :
  In q (pointsOf rs) <->
  exists r, In r rs /\ (q = startPoint r \/ q = endPoint r).
Proof.
  unfold pointsOf. rewrite in_flat_map. split.
  - intros (r & Hr & [H|[H|[]]]); exists r; auto.
  - intros (r & Hr & [H|H]); exists r; subst; simpl; auto.
Qed.

Lemma ties_equal_normalize rs : ties_agree rs -> ties_equal (map normalize rs).
Proof.
  intros Ht a b Ha Hb Hs He.
  apply in_map_iff in Ha, Hb.
  destruct Ha as (a0 & <- & Ha0). destruct Hb as (b0 & <- & Hb0).
  simpl in Hs, He. unfold normalize. rewrite (Ht a0 b0 Ha0 Hb0 Hs He).
  now rewrite Hs, He.
Qed.

Lemma le_point_antisym rs a b :
  ties_equal rs -> In a (pointsOf rs) -> In b (pointsOf rs) ->
  le_point a b -> le_point b a -> a = b.
Proof.
  intros Ht Ha Hb Hab Hba.
  apply in_pointsOf in Ha, Hb.
  destruct Ha as (ra & Hra & Ea). destruct Hb as (rb & Hrb & Eb).
  assert (Hr : type a = type b -> ra = rb).
  { intros Ety. apply Ht; try assumption;
      destruct Ea as [-> | ->], Eb as [-> | ->];
      simpl in *; try discriminate; cmp_cases; simpl in *; lia. }
  destruct Ea as [-> | ->], Eb as [-> | ->];
    try (rewrite (Hr eq_refl); reflexivity);
    exfalso; cmp_cases; simpl in *; lia.
Qed.

Lemma sort_points_perm_invariant rs rs' :
  ties_equal rs -> Permutation rs rs' ->
  sort_points (pointsOf rs) = sort_points (pointsOf rs').
Proof.
  intros Ht Hp.
  assert (Hpp : Permutation (pointsOf rs) (pointsOf rs'))
    by (unfold pointsOf; now apply Permutation_flat_map).
  apply sorted_perm_unique; try apply sort_points_sorted.
  - rewrite <- (sort_points_perm (pointsOf rs)), <- (sort_points_perm (pointsOf rs')).
    exact Hpp.
  - intros a b Ha Hb. apply (le_point_antisym rs); try assumption;
      eapply Permutation_in; try eassumption; symmetry; apply sort_points_perm.
Qed.

(** C3 (as the code has it): when ranges with the same bounds agree on being
    hit, every permutation of the input gives the same output. *)
Theorem convertToDisjointRanges_permutation
    (rs rs' : list UsageRange)
    (Hties : ties_agree rs)
    (Hperm : Permutation rs rs') :
  convertToDisjointRanges rs = convertToDisjointRanges rs'.
Proof.
  rewrite <- (convert_normalize rs), <- (convert_normalize rs').
  rewrite !convert_rev_eq. unfold convert_rev.
  rewrite (sort_points_perm_invariant (map normalize rs) (map normalize rs'));
    [reflexivity|now apply ties_equal_normalize|now apply Permutation_map].
Qed.

Lemma convertToDisjointRanges_permutation_witness :
  convertToDisjointRanges [mkUsage 0 10 1; mkUsage 0 10 3; mkUsage 2 5 0]
  = convertToDisjointRanges [mkUsage 2 5 0; mkUsage 0 10 3; mkUsage 0 10 1].
Proof.
  apply convertToDisjointRanges_permutation.
  - intros a b Ha Hb Hs He. simpl in Ha, Hb.
    destruct Ha as [<-|[<-|[<-|[]]]], Hb as [<-|[<-|[<-|[]]]];
      simpl in *; try reflexivity; try lia.
  - apply Permutation_rev.
Defined.

(** C3 as stated fails: two ranges with the same bounds and hit counts of
    different sign come out in the order they went in, and the later one
    decides. *)
Lemma convertToDisjointRanges_order_counterexample :
  Permutation [mkUsage 0 10 1; mkUsage 0 10 0] [mkUsage 0 10 0; mkUsage 0 10 1] /\
  convertToDisjointRanges [mkUsage 0 10 1; mkUsage 0 10 0] = [] /\
  convertToDisjointRanges [mkUsage 0 10 0; mkUsage 0 10 1] = [mkRange 0 10] /\
  convertToDisjointRanges [mkUsage 0 10 1; mkUsage 0 10 0]
  <> convertToDisjointRanges [mkUsage 0 10 0; mkUsage 0 10 1].
Proof.
  split; [apply perm_swap|]. repeat split; try reflexivity. discriminate.
Qed.

(** ** Coverage fidelity for properly nested input *)

Lemma startPoint_inj a b : startPoint a = startPoint b -> a = b.
Proof. intros H. now injection H. Qed.

Lemma endPoint_inj a b : endPoint a = endPoint b -> a = b.
Proof. intros H. now injection H. Qed.

Lemma start_neq_end a b : startPoint a <> endPoint b.
Proof. discriminate. Qed.

Lemma opens_pointsOf rs r :
  opens (pointsOf rs) r = count_occ UsageRange_eq_dec rs r.
Proof.
  unfold opens. induction rs as [|x rs IH]; [reflexivity|].
  change (pointsOf (x :: rs)) with (startPoint x :: endPoint x :: pointsOf rs).
  destruct (UsageRange_eq_dec x r) as [->|Hneq].
  - rewrite !count_occ_cons_eq by reflexivity.
    rewrite count_occ_cons_neq by (intros E; symmetry in E; revert E; apply start_neq_end).
    rewrite IH, ?count_occ_cons_eq by reflexivity. reflexivity.
  - rewrite !count_occ_cons_neq; [exact IH|assumption| |].
    + intros E; symmetry in E; revert E; apply start_neq_end.
    + intros E. apply Hneq. now apply startPoint_inj.
Qed.

Lemma closes_pointsOf rs r :
  closes (pointsOf rs) r = count_occ UsageRange_eq_dec rs r.
Proof.
  unfold closes. induction rs as [|x rs IH]; [reflexivity|].
  change (pointsOf (x :: rs)) with (startPoint x :: endPoint x :: pointsOf rs).
  destruct (UsageRange_eq_dec x r) as [->|Hneq].
  - rewrite count_occ_cons_neq by apply start_neq_end.
    rewrite !count_occ_cons_eq by reflexivity.
    rewrite IH, ?count_occ_cons_eq by reflexivity. reflexivity.
  - rewrite !count_occ_cons_neq; [exact IH|assumption| |].
    + intros E. apply Hneq. now apply endPoint_inj.
    + apply start_neq_end.
Qed.

Lemma count_occ_single {A} (dec : forall x y : A, {x = y} + {x <> y}) x y :
  count_occ dec [x] y = if dec x y then 1%nat else 0%nat.
Proof. reflexivity. Qed.

Lemma StronglySorted_app_inv {A} (R : A -> A -> Prop) l1 l2 :
  StronglySorted R (l1 ++ l2) ->
  StronglySorted R l1 /\ StronglySorted R l2 /\
  (forall a b, In a l1 -> In b l2 -> R a b).
Proof.
  induction l1 as [|x l1 IH]; simpl; intros H.
  - repeat split; [constructor|exact H|intros a b []].
  - apply StronglySorted_inv in H. destruct H as [Hs Hx].
    destruct (IH Hs) as (H1 & H2 & H3).
    apply Forall_app in Hx. destruct Hx as [Hx1 Hx2].
    repeat split; [now constructor|exact H2|].
    intros a b [<-|Ha] Hb; [|now apply H3].
    rewrite Forall_forall in Hx2. now apply Hx2.
Qed.

Lemma covered_cons d R p : covered (d :: R) p <-> inside d p \/ covered R p.
Proof.
  unfold covered. split.
  - intros (x & [<-|Hx] & Hp); [now left|right; now exists x].
  - intros [Hp|(x & Hx & Hp)]; [exists d|exists x]; simpl; auto.
Qed.

Lemma covered_nil p : ~ covered [] p.
Proof. intros (x & [] & _). Qed.

(** What one iteration adds to the covered positions. *)
Lemma covered_step st q p :
  rchain (results st) ->
  covered (results (rsweep_step st q)) p <->
  covered (results st) p \/
  (live st = true /\ lastOffset st <= p < offset q).
Proof.
  intros Hc. unfold rsweep_step, live; simpl.
  destruct (hitCountStack st) as [|top stk].
  - split; [now left|]. intros [H|[H _]]; [exact H|discriminate].
  - destruct (Z.ltb_spec (lastOffset st) (offset q)) as [Hlt|Hge]; simpl.
    + destruct (top >? 0) eqn:Etop.
      * destruct (results st) as [|l R].
        -- rewrite covered_cons. unfold inside; simpl. tauto.
        -- simpl in Hc. destruct Hc as (Hl & _ & _).
           destruct (Z.eqb_spec (end_ l) (lastOffset st)) as [Heq|Hneq];
             rewrite !covered_cons; unfold inside; simpl.
           ++ split; [intros [H|H]|intros [[H|H]|[_ H]]]; try tauto;
                destruct (Z.lt_ge_cases p (lastOffset st)); try tauto; lia.
           ++ tauto.
      * split; [now left|]. intros [H|[H _]]; [exact H|discriminate].
    + split; [now left|]. intros [H|[_ H]]; [exact H|lia].
Qed.

Section Fidelity.

Variable N : list UsageRange.
Hypothesis N_nonempty : Forall (fun r => startOffset r < endOffset r) N.
Hypothesis N_nested : properly_nested N.
Hypothesis N_ties : ties_equal N.

Lemma N_lt r : In r N -> startOffset r < endOffset r.
Proof. rewrite Forall_forall in N_nonempty. apply N_nonempty. Qed.

Lemma sorted_opens r :
  opens (sorted_points N) r = count_occ UsageRange_eq_dec N r.
Proof.
  rewrite <- opens_pointsOf. unfold opens, sorted_points.
  symmetry. apply Permutation_count_occ, sort_points_perm.
Qed.

Lemma sorted_closes r :
  closes (sorted_points N) r = count_occ UsageRange_eq_dec N r.
Proof.
  rewrite <- closes_pointsOf. unfold closes, sorted_points.
  symmetry. apply Permutation_count_occ, sort_points_perm.
Qed.

Lemma sorted_points_in q :
  In q (sorted_points N) ->
  exists r, In r N /\ (q = startPoint r \/ q = endPoint r).
Proof.
  intros H. apply in_pointsOf.
  eapply Permutation_in; [symmetry; apply sort_points_perm|exact H].
Qed.

Section Split.

Variables pre suf : list Point.
Hypothesis Hsplit : sorted_points N = pre ++ suf.
Variable G : list UsageRange.
Hypothesis HG : ghost pre G.

Lemma split_le a b : In a pre -> In b suf -> le_point a b.
Proof.
  pose proof (sort_points_sorted (pointsOf N)) as Hs.
  fold (sorted_points N) in Hs. rewrite Hsplit in Hs.
  apply StronglySorted_app_inv in Hs. apply Hs.
Qed.

Lemma split_suf_sorted : StronglySorted le_point suf.
Proof.
  pose proof (sort_points_sorted (pointsOf N)) as Hs.
  fold (sorted_points N) in Hs. rewrite Hsplit in Hs.
  apply StronglySorted_app_inv in Hs. apply Hs.
Qed.

Lemma split_counts r :
  (opens pre r + opens suf r = count_occ UsageRange_eq_dec N r /\
   closes pre r + closes suf r = count_occ UsageRange_eq_dec N r)%nat.
Proof.
  rewrite <- sorted_opens at 1. rewrite <- sorted_closes.
  unfold opens, closes. rewrite Hsplit, !count_occ_app. now split.
Qed.

(** A range on the ghost stack has been opened and is still to be
    closed. *)
Lemma ghost_in g :
  In g G -> In g N /\ In (startPoint g) pre /\ In (endPoint g) suf.
Proof.
  intros Hg. apply (count_occ_In UsageRange_eq_dec) in Hg.
  destruct HG as [_ Hc]. specialize (Hc g).
  destruct (split_counts g) as [Ho Hcl].
  repeat split.
  - apply (count_occ_In UsageRange_eq_dec). lia.
  - apply (count_occ_In Point_eq_dec). unfold opens in *. lia.
  - apply (count_occ_In Point_eq_dec). unfold opens, closes in *. lia.
Qed.

(** Between the last consumed point and the next one, the ghost stack
    holds exactly the ranges around the position. *)
Lemma ghost_region p :
  (forall a, In a pre -> offset a <= p) ->
  (forall b, In b suf -> p < offset b) ->
  forall r, In r G <-> In r N /\ contains r p.
Proof.
  intros Hpre Hsuf r. split.
  - intros Hr. destruct (ghost_in r Hr) as (HN & Ho & Hc).
    split; [exact HN|]. specialize (Hpre _ Ho). specialize (Hsuf _ Hc).
    unfold contains. simpl in *. lia.
  - intros [HN [Hs He]].
    assert (Ho : opens suf r = 0%nat).
    { apply (count_occ_not_In Point_eq_dec). intros Hin.
      specialize (Hsuf _ Hin). simpl in Hsuf. lia. }
    assert (Hc : closes pre r = 0%nat).
    { apply (count_occ_not_In Point_eq_dec). intros Hin.
      specialize (Hpre _ Hin). simpl in Hpre. lia. }
    apply (count_occ_In UsageRange_eq_dec) in HN.
    apply (count_occ_In UsageRange_eq_dec).
    destruct HG as [_ Hcnt]. specialize (Hcnt r).
    destruct (split_counts r) as [Ho' _]. lia.
Qed.

End Split.

(** The top of the ghost stack is a shortest range around the position. *)
Lemma ghost_top p g G :
  StronglySorted within (g :: G) ->
  (forall r, In r (g :: G) <-> In r N /\ contains r p) ->
  hit g = true <-> hit_innermost N p.
Proof.
  intros Hs Hreg. apply StronglySorted_inv in Hs. destruct Hs as [_ Hg].
  rewrite Forall_forall in Hg.
  assert (Hgin : In g N /\ contains g p) by (apply Hreg; now left).
  split.
  - intros Hhit. exists g. split; [|exact Hhit].
    split; [apply Hgin|]. split; [apply Hgin|].
    intros r' Hr' Hc'. assert (Hin : In r' (g :: G)) by (apply Hreg; now split).
    destruct Hin as [<-|Hin]; [lia|].
    specialize (Hg _ Hin). unfold within, length_of in *. lia.
  - intros (r & (HrN & Hrc & Hmin) & Hhit).
    assert (Hin : In r (g :: G)) by (apply Hreg; now split).
    destruct Hin as [<-|Hin]; [exact Hhit|].
    specialize (Hg _ Hin). specialize (Hmin g (proj1 Hgin) (proj2 Hgin)).
    replace g with r; [exact Hhit|].
    apply N_ties; try tauto; unfold within, length_of in *; lia.
Qed.

Lemma ghost_empty p :
  (forall r, In r [] <-> In r N /\ contains r p) -> ~ hit_innermost N p.
Proof.
  intros Hreg (r & (HrN & Hrc & _) & _).
  apply (Hreg r). now split.
Qed.

(** A range that opens lies within every range of the ghost stack. *)
Lemma ghost_open pre suf G r :
  sorted_points N = pre ++ startPoint r :: suf ->
  ghost pre G -> In r N -> Forall (within r) G.
Proof.
  intros Hsplit HG HrN. apply Forall_forall. intros g Hg.
  destruct (ghost_in _ _ Hsplit _ HG g Hg) as (HgN & Ho & Hc).
  assert (Hle1 : le_point (startPoint g) (startPoint r))
    by (apply (split_le _ _ Hsplit); [exact Ho|now left]).
  assert (Hle2 : le_point (startPoint r) (endPoint g)).
  { destruct Hc as [Hc|Hc]; [discriminate|].
    pose proof (split_suf_sorted _ _ Hsplit) as Hs.
    apply StronglySorted_inv in Hs. destruct Hs as [_ Hs].
    rewrite Forall_forall in Hs. now apply Hs. }
  pose proof (N_lt _ HgN). pose proof (N_lt _ HrN).
  pose proof (N_nested g r HgN HrN) as Hnest.
  unfold within, nested_or_disjoint in *.
  cmp_cases; simpl in *; lia.
Qed.

(** A range that closes is the top of the ghost stack. *)
Lemma ghost_close pre suf G r :
  sorted_points N = pre ++ endPoint r :: suf ->
  ghost pre G -> In r N -> exists G', G = r :: G'.
Proof.
  intros Hsplit HG HrN.
  assert (Hin : In r G).
  { assert (Ho : opens (endPoint r :: suf) r = 0%nat).
    { apply (count_occ_not_In Point_eq_dec). intros [Hin|Hin]; [discriminate|].
      pose proof (split_suf_sorted _ _ Hsplit) as Hs.
      apply StronglySorted_inv in Hs. destruct Hs as [_ Hs].
      rewrite Forall_forall in Hs. specialize (Hs _ Hin).
      pose proof (N_lt _ HrN). cmp_cases; simpl in *; lia. }
    assert (Hc : (closes (endPoint r :: suf) r > 0)%nat)
      by (apply (count_occ_In Point_eq_dec); now left).
    apply (count_occ_In UsageRange_eq_dec).
    destruct (split_counts _ _ Hsplit r) as [Ho' Hc'].
    destruct HG as [_ Hcnt]. specialize (Hcnt r). lia. }
  destruct G as [|g G']; [destruct Hin|]. exists G'. f_equal.
  destruct Hin as [E|Hin]; [exact E|].
  destruct (ghost_in _ _ Hsplit _ HG g (or_introl eq_refl)) as (HgN & _ & Hc).
  destruct Hc as [Hc|Hc]; [symmetry; now apply endPoint_inj|].
  pose proof (split_suf_sorted _ _ Hsplit) as Hs.
  apply StronglySorted_inv in Hs. destruct Hs as [_ Hs].
  rewrite Forall_forall in Hs. specialize (Hs _ Hc).
  destruct HG as [Hsorted _]. apply StronglySorted_inv in Hsorted.
  destruct Hsorted as [_ Hw]. rewrite Forall_forall in Hw. specialize (Hw _ Hin).
  apply N_ties; try assumption; unfold within in *; cmp_cases; simpl in *; lia.
Qed.

Lemma ghost_push pre G r :
  ghost pre G -> Forall (within r) G -> ghost (pre ++ [startPoint r]) (r :: G).
Proof.
  intros [Hs Hc] Hw. split; [now constructor|].
  intros r0. specialize (Hc r0). unfold opens, closes in *.
  rewrite !count_occ_app, !count_occ_single.
  destruct (Point_eq_dec (startPoint r) (endPoint r0)) as [E|_]; [discriminate|].
  destruct (UsageRange_eq_dec r r0) as [->|Hneq].
  - rewrite count_occ_cons_eq by reflexivity.
    destruct (Point_eq_dec (startPoint r0) (startPoint r0)); [lia|contradiction].
  - rewrite count_occ_cons_neq by assumption.
    destruct (Point_eq_dec (startPoint r) (startPoint r0)) as [E|_]; [|lia].
    apply startPoint_inj in E. contradiction.
Qed.

Lemma ghost_pop pre G r :
  ghost pre (r :: G) -> ghost (pre ++ [endPoint r]) G.
Proof.
  intros [Hs Hc]. split; [now apply StronglySorted_inv in Hs|].
  intros r0. specialize (Hc r0). unfold opens, closes in *.
  rewrite !count_occ_app, !count_occ_single.
  destruct (Point_eq_dec (endPoint r) (startPoint r0)) as [E|_]; [discriminate|].
  destruct (UsageRange_eq_dec r r0) as [->|Hneq].
  - rewrite count_occ_cons_eq in Hc by reflexivity.
    destruct (Point_eq_dec (endPoint r0) (endPoint r0)); [lia|contradiction].
  - rewrite count_occ_cons_neq in Hc by assumption.
    destruct (Point_eq_dec (endPoint r) (endPoint r0)) as [E|_]; [|lia].
    apply endPoint_inj in E. contradiction.
Qed.

Lemma fid_init : fid_inv N [] (sorted_points N) sweep_init.
Proof.
  exists []. split; [reflexivity|]. split; [split; [constructor|reflexivity]|].
  split; [intros q []|]. split; [intros H; now elim H|]. split.
  - intros p. split; [intros H; now apply covered_nil in H|].
    intros [H _]. now elim H.
  - unfold sweep_ok; simpl. split; [exact I|]. split; [intros d []|].
    intros H; now elim H.
Qed.

Lemma fid_step pre q suf st :
  sorted_points N = pre ++ q :: suf ->
  fid_inv N pre (q :: suf) st -> fid_inv N (pre ++ [q]) suf (rsweep_step st q).
Proof.
  intros Hsplit (G & I1 & HG & I4 & I5 & I6 & I7).
  assert (Hq : exists r, In r N /\ (q = startPoint r \/ q = endPoint r)).
  { apply sorted_points_in. rewrite Hsplit. apply in_or_app. right. now left. }
  assert (Hps : forall a, In a pre -> offset a <= offset q).
  { intros a Ha. apply le_point_offset, (split_le _ _ Hsplit); [exact Ha|now left]. }
  pose proof (split_suf_sorted _ _ Hsplit) as Hsorted.
  assert (Hqs : forall b, In b suf -> offset q <= offset b).
  { intros b Hb. apply StronglySorted_inv in Hsorted. destruct Hsorted as [_ Hs].
    rewrite Forall_forall in Hs. now apply le_point_offset, Hs. }
  assert (Hlo : pre <> [] -> lastOffset st <= offset q).
  { intros Hne. destruct (I5 Hne) as (a & Ha & <-). now apply Hps. }
  assert (Hempty : pre = [] \/ pre <> [])
    by (destruct pre; [now left|right; discriminate]).
  assert (Hsnoc : pre ++ [q] <> []) by (destruct pre; discriminate).
  assert (Hreg : forall p, (pre = [] \/ lastOffset st <= p) -> p < offset q ->
                 forall r, In r G <-> In r N /\ contains r p).
  { intros p Hp Hlt. apply (ghost_region _ _ Hsplit _ HG).
    - intros a Ha. destruct Hp as [->|Hp]; [destruct Ha|].
      specialize (I4 _ Ha). lia.
    - intros b [<-|Hb]; [exact Hlt|]. specialize (Hqs _ Hb). lia. }
  assert (HI6 : forall p, covered (results (rsweep_step st q)) p <->
                pre ++ [q] <> [] /\ p < offset q /\ hit_innermost N p).
  { intros p. rewrite covered_step by apply I7. rewrite I6. split.
    - intros [(Hne & Hlt & HP)|(Hlive & Hint)].
      + specialize (Hlo Hne). repeat split; [exact Hsnoc|lia|exact HP].
      + split; [exact Hsnoc|]. split; [lia|].
        unfold live in Hlive. rewrite I1 in Hlive.
        destruct G as [|g G0]; [discriminate|].
        apply (ghost_top p g G0); [apply HG| |exact Hlive].
        apply Hreg; [right|]; lia.
    - intros (_ & Hlt & HP).
      destruct Hempty as [Hnil|Hne].
      + exfalso. destruct G as [|g G0].
        * apply (ghost_empty p); [|exact HP]. apply Hreg; [now left|exact Hlt].
        * destruct (ghost_in _ _ Hsplit _ HG g (or_introl eq_refl)) as (_ & Ho & _).
          rewrite Hnil in Ho. destruct Ho.
      + destruct (Z.lt_ge_cases p (lastOffset st)) as [Hp|Hp]; [now left|].
        right. split; [|lia].
        assert (Hr : forall r, In r G <-> In r N /\ contains r p)
          by (apply Hreg; [now right|exact Hlt]).
        unfold live. rewrite I1. destruct G as [|g G0].
        * exfalso. now apply (ghost_empty p).
        * simpl. apply (ghost_top p g G0); [apply HG|exact Hr|exact HP]. }
  assert (Hrest : (forall a, In a (pre ++ [q]) -> offset a <= offset q) /\
                  (pre ++ [q] <> [] ->
                   exists a, In a (pre ++ [q]) /\ offset a = offset q) /\
                  sweep_ok (rsweep_step st q) suf).
  { split; [|split].
    - intros a Ha. apply in_app_or in Ha. destruct Ha as [Ha|[<-|[]]]; [now apply Hps|lia].
    - intros _. exists q. split; [apply in_or_app; right; now left|reflexivity].
    - now apply sweep_step_ok. }
  destruct Hrest as (I4' & I5' & I7').
  destruct Hq as (r & HrN & [-> | ->]).
  - exists (r :: G). split; [unfold rsweep_step; simpl; now rewrite I1|].
    split; [apply ghost_push; [exact HG|]; eapply ghost_open; eassumption|].
    split; [exact I4'|]. split; [exact I5'|]. split; [exact HI6|exact I7'].
  - destruct (ghost_close _ _ _ _ Hsplit HG HrN) as (G' & ->).
    exists G'. split; [unfold rsweep_step; simpl; now rewrite I1|].
    split; [now apply ghost_pop|].
    split; [exact I4'|]. split; [exact I5'|]. split; [exact HI6|exact I7'].
Qed.

Lemma fid_run suf :
  forall pre st,
    sorted_points N = pre ++ suf ->
    fid_inv N pre suf st -> fid_inv N (pre ++ suf) [] (rsweep suf st).
Proof.
  induction suf as [|q suf IH]; intros pre st Hsplit Hinv.
  - now rewrite app_nil_r.
  - simpl. replace (pre ++ q :: suf) with ((pre ++ [q]) ++ suf)
      by (now rewrite <- app_assoc).
    apply IH; [now rewrite <- app_assoc|]. now apply fid_step.
Qed.

(** Fidelity when ranges with the same bounds are equal. *)
Lemma fidelity_ties_equal p :
  covered (convertToDisjointRanges N) p <-> hit_innermost N p.
Proof.
  rewrite convert_unfiltered. fold (sorted_points N).
  destruct (fid_run (sorted_points N) [] sweep_init eq_refl fid_init)
    as (G & _ & _ & I4 & _ & I6 & _).
  simpl app in *.
  assert (Hrev : covered (rev (results (rsweep (sorted_points N) sweep_init))) p
                 <-> covered (results (rsweep (sorted_points N) sweep_init)) p).
  { unfold covered. split; intros (d & Hd & Hp); exists d;
      (split; [|exact Hp]); [now apply <- in_rev in Hd|now apply -> in_rev]. }
  rewrite Hrev, I6. split; [tauto|].
  intros HP. pose proof HP as (r & (HrN & Hc & Hmin) & Hhit).
  assert (Hin : In (endPoint r) (sorted_points N)).
  { apply (count_occ_In Point_eq_dec). fold (closes (sorted_points N) r).
    rewrite sorted_closes. now apply (count_occ_In UsageRange_eq_dec). }
  specialize (I4 _ Hin). simpl in I4. unfold contains in Hc.
  split; [intros E; rewrite E in Hin; destruct Hin|].
  split; [lia|exact HP].
Qed.

End Fidelity.

Lemma hit_innermost_normalize rs p :
  hit_innermost (map normalize rs) p <-> hit_innermost rs p.
Proof.
  unfold hit_innermost, innermost. split.
  - intros (r' & (Hin & Hc & Hmin) & Hhit).
    apply in_map_iff in Hin. destruct Hin as (r & <- & Hr).
    exists r. rewrite hit_normalize in Hhit. split; [|exact Hhit].
    split; [exact Hr|]. split; [exact Hc|].
    intros r0 Hr0 Hc0. apply (Hmin (normalize r0)); [now apply in_map|exact Hc0].
  - intros (r & (Hr & Hc & Hmin) & Hhit).
    exists (normalize r). rewrite hit_normalize. split; [|exact Hhit].
    split; [now apply in_map|]. split; [exact Hc|].
    intros r0' Hr0 Hc0. apply in_map_iff in Hr0. destruct Hr0 as (r0 & <- & Hr0).
    now apply (Hmin r0).
Qed.

Lemma fidelity_well_nested rs p :
  well_nested rs ->
  covered (convertToDisjointRanges rs) p <-> hit_innermost rs p.
Proof.
  intros (Hne & Hnest & Hties).
  rewrite <- convert_normalize, fidelity_ties_equal.
  - apply hit_innermost_normalize.
  - apply Forall_forall. intros r' Hin. apply in_map_iff in Hin.
    destruct Hin as (r & <- & Hr). rewrite Forall_forall in Hne.
    exact (Hne r Hr).
  - intros a' b' Ha Hb. apply in_map_iff in Ha, Hb.
    destruct Ha as (a & <- & Ha), Hb as (b & <- & Hb).
    exact (Hnest a b Ha Hb).
  - now apply ties_equal_normalize.
Qed.

(** C1 (as the code has it): for non-empty, properly nested usage ranges in
    which ranges with the same bounds agree on being hit, a position lies in
    some output range if and only if the innermost (shortest) input range
    that contains it has a positive hit count. *)
Theorem convertToDisjointRanges_fidelity
    (rs : list UsageRange) (Hnested : well_nested rs) (p : Z) :
  covered (convertToDisjointRanges rs) p <->
  exists r, innermost rs p r /\ count r > 0.
Proof.
  rewrite (fidelity_well_nested rs p Hnested). unfold hit_innermost, hit.
  split; intros (r & Hr & Hhit); exists r; (split; [exact Hr|]).
  - rewrite Z.gtb_ltb in Hhit. apply Z.ltb_lt in Hhit. lia.
  - rewrite Z.gtb_ltb. apply Z.ltb_lt. lia.
Qed.

Lemma convertToDisjointRanges_fidelity_witness :
  covered (convertToDisjointRanges [mkUsage 0 10 1; mkUsage 2 5 0; mkUsage 5 7 3]) 6
  <-> exists r, innermost [mkUsage 0 10 1; mkUsage 2 5 0; mkUsage 5 7 3] 6 r
                /\ count r > 0.
Proof.
  apply convertToDisjointRanges_fidelity. split; [|split].
  - repeat constructor; simpl; lia.
  - intros a b Ha Hb. simpl in Ha, Hb. unfold nested_or_disjoint.
    destruct Ha as [<-|[<-|[<-|[]]]], Hb as [<-|[<-|[<-|[]]]]; simpl; lia.
  - intros a b Ha Hb. simpl in Ha, Hb.
    destruct Ha as [<-|[<-|[<-|[]]]], Hb as [<-|[<-|[<-|[]]]];
      simpl; intros; try reflexivity; lia.
Defined.

(** C1 as stated fails: position 3 lies in the hit range (0,10) but also in
    the range (2,5) nested in it, whose hit count is zero, and the output
    leaves it out. *)
Lemma convertToDisjointRanges_fidelity_counterexample :
  convertToDisjointRanges [mkUsage 0 10 1; mkUsage 2 5 0]
    = [mkRange 0 2; mkRange 5 10] /\
  ~ (covered (convertToDisjointRanges [mkUsage 0 10 1; mkUsage 2 5 0]) 3 <->
     exists r, In r [mkUsage 0 10 1; mkUsage 2 5 0] /\ count r > 0 /\ contains r 3).
Proof.
  split; [reflexivity|]. intros [_ H].
  destruct H as (d & Hd & Hp).
  - exists (mkUsage 0 10 1). split; [now left|]. unfold contains; simpl. lia.
  - change (convertToDisjointRanges [mkUsage 0 10 1; mkUsage 2 5 0])
      with [mkRange 0 2; mkRange 5 10] in Hd.
    unfold inside in Hp. destruct Hd as [<-|[<-|[]]]; simpl in Hp; lia.
Qed.

(** Each precondition of the fidelity property is needed. *)

(** A range of length zero closes before it opens and leaves its hit count
    on the stack. *)
Example fidelity_needs_nonempty :
  convertToDisjointRanges [mkUsage 0 10 1; mkUsage 5 5 0] = [mkRange 0 5].
Proof. reflexivity. Qed.

(** Of two ranges that overlap without nesting, the one that closes first
    pops the hit count of the other. *)
Example fidelity_needs_nesting :
  convertToDisjointRanges [mkUsage 0 5 1; mkUsage 3 10 0]
  = [mkRange 0 3; mkRange 5 10].
Proof. reflexivity. Qed.

(** Among the ranges around a position there is a shortest one. *)
Lemma innermost_exists rs p :
  (forall r, In r rs -> ~ contains r p) \/ exists r, innermost rs p r.
Proof.
  induction rs as [|x rs IH]; [left; intros r []|].
  assert (Hx : contains x p \/ ~ contains x p) by (unfold contains; lia).
  destruct IH as [Hnone|(r0 & Hin & Hc & Hmin)].
  - destruct Hx as [Hx|Hx].
    + right. exists x. split; [now left|]. split; [exact Hx|].
      intros r' [<-|Hr'] Hc'; [lia|]. now elim (Hnone r' Hr').
    + left. intros r [<-|Hr]; [exact Hx|now apply Hnone].
  - right.
    assert (Hlen : (contains x p /\ length_of x <= length_of r0) \/
                   ~ (contains x p /\ length_of x <= length_of r0))
      by (unfold contains; lia).
    destruct Hlen as [[Hcx Hle]|Hno].
    + exists x. split; [now left|]. split; [exact Hcx|].
      intros r' [<-|Hr'] Hc'; [lia|]. specialize (Hmin r' Hr' Hc'). lia.
    + exists r0. split; [now right|]. split; [exact Hc|].
      intros r' [<-|Hr'] Hc'; [unfold contains in *; lia|]. now apply Hmin.
Qed.

(** When every hit count is positive, the covered positions are those of the
    union of the input ranges. *)
Lemma fidelity_all_hit rs p :
  well_nested rs -> Forall (fun r => count r > 0) rs ->
  covered (convertToDisjointRanges rs) p <->
  exists r, In r rs /\ count r > 0 /\ contains r p.
Proof.
  intros Hn Hall. rewrite (fidelity_well_nested rs p Hn).
  rewrite Forall_forall in Hall. split.
  - intros (r & (Hr & Hc & _) & Hhit). exists r.
    split; [exact Hr|]. split; [now apply Hall|exact Hc].
  - intros (r & Hr & _ & Hc).
    destruct (innermost_exists rs p) as [Hnone|(r0 & H0)].
    + now elim (Hnone r Hr).
    + exists r0. split; [exact H0|].
      unfold hit. rewrite Z.gtb_ltb. apply Z.ltb_lt.
      assert (count r0 > 0) by apply Hall, H0. lia.
Qed.

(** * Properties of the trackers *)

(** ** The map *)

Lemma JSMap_get_set_same {V} (m : JSMap.t V) k v :
  JSMap.get (JSMap.set k v m) k = Some v.
Proof.
  induction m as [|[k' v'] m IH]; simpl.
  - now rewrite String.eqb_refl.
  - destruct (String.eqb_spec k' k) as [->|Hneq]; simpl.
    + now rewrite String.eqb_refl.
    + apply String.eqb_neq in Hneq. now rewrite Hneq.
Qed.

Lemma JSMap_get_set_other {V} (m : JSMap.t V) k v k' :
  k <> k' -> JSMap.get (JSMap.set k v m) k' = JSMap.get m k'.
Proof.
  intros Hneq. induction m as [|[k0 v0] m IH]; simpl.
  - apply String.eqb_neq in Hneq. now rewrite Hneq.
  - destruct (String.eqb_spec k0 k) as [->|Hk]; simpl.
    + apply String.eqb_neq in Hneq. now rewrite Hneq.
    + now rewrite IH.
Qed.

Lemma JSMap_get_none {V} (m : JSMap.t V) k :
  JSMap.get m k = None <-> ~ In k (JSMap.keys m).
Proof.
  induction m as [|[k' v'] m IH]; simpl; [tauto|].
  destruct (String.eqb_spec k' k) as [->|Hneq].
  - split; [discriminate|]. intros H. elim H. now left.
  - rewrite IH. tauto.
Qed.

(** A key that is present keeps its place; a new key goes last. *)
Lemma JSMap_keys_set {V} (m : JSMap.t V) k v :
  JSMap.keys (JSMap.set k v m)
  = if JSMap.has m k then JSMap.keys m else JSMap.keys m ++ [k].
Proof.
  unfold JSMap.has. induction m as [|[k' v'] m IH]; simpl; [reflexivity|].
  destruct (String.eqb_spec k' k) as [->|Hneq]; simpl; [reflexivity|].
  rewrite IH. now destruct (JSMap.get m k).
Qed.

Lemma JSMap_has_keys {V W} (m : JSMap.t V) (m' : JSMap.t W) k :
  JSMap.keys m = JSMap.keys m' -> JSMap.has m k = JSMap.has m' k.
Proof.
  unfold JSMap.has. revert m'.
  induction m as [|[k1 v1] m IH]; intros [|[k2 v2] m']; simpl; intros H;
    try discriminate; [reflexivity|].
  injection H as -> H. destruct (String.eqb k2 k); [reflexivity|now apply IH].
Qed.

(** ** Lifecycle guards *)

(** C6: for every tracker state, [start] on an enabled tracker fails with the
    already-enabled error and [stop] on an idle tracker fails with the
    not-enabled error; the failing call leaves every field of the tracker as
    it was. *)
Theorem lifecycle_guards
    (js : JSCoverage.t) (jsOptions : JSCoverage.Options.t)
    (css : CSSCoverage.t) (cssOptions : CSSCoverage.Options.t) :
  (if JSCoverage.enabled js
   then fails_unchanged (JSCoverage.start jsOptions) js
          "JSCoverage is already enabled"
   else fails_unchanged JSCoverage.stop js "JSCoverage is not enabled") /\
  (if CSSCoverage.enabled css
   then fails_unchanged (CSSCoverage.start cssOptions) css
          "CSSCoverage is already enabled"
   else fails_unchanged CSSCoverage.stop css "CSSCoverage is not enabled").
Proof.
  unfold fails_unchanged, JSCoverage.start, JSCoverage.stop,
    CSSCoverage.start, CSSCoverage.stop.
  split.
  - destruct (JSCoverage.enabled js); reflexivity.
  - destruct (CSSCoverage.enabled css); reflexivity.
Qed.

(** ** Context reset *)

(** C9: the context-reset handler of either tracker, when
    [resetOnNavigation] is set, empties the URL map and the source map and
    leaves every other field (enabled flag, configuration, subscriptions,
    session) as it was; when it is not set, the tracker is unchanged.  The
    handlers suspended at their fetch are not touched either. *)
Theorem context_reset_frame
    (isPuppeteerURL : string -> bool)
    (js : JSCoverage.Loop) (css : CSSCoverage.Loop) :
  (if JSCoverage.resetOnNavigation (JSCoverage.tracker js)
   then
     JSCoverage.scriptURLs (JSCoverage.onExecutionContextsCleared (JSCoverage.tracker js)) = [] /\
     JSCoverage.scriptSources (JSCoverage.onExecutionContextsCleared (JSCoverage.tracker js)) = [] /\
     js_frame (JSCoverage.tracker js)
       (JSCoverage.onExecutionContextsCleared (JSCoverage.tracker js))
   else
     JSCoverage.onExecutionContextsCleared (JSCoverage.tracker js)
     = JSCoverage.tracker js) /\
  (if CSSCoverage.resetOnNavigation (CSSCoverage.tracker css)
   then
     CSSCoverage.stylesheetURLs (CSSCoverage.onExecutionContextsCleared (CSSCoverage.tracker css)) = [] /\
     CSSCoverage.stylesheetSources (CSSCoverage.onExecutionContextsCleared (CSSCoverage.tracker css)) = [] /\
     css_frame (CSSCoverage.tracker css)
       (CSSCoverage.onExecutionContextsCleared (CSSCoverage.tracker css))
   else
     CSSCoverage.onExecutionContextsCleared (CSSCoverage.tracker css)
     = CSSCoverage.tracker css) /\
  (if subscribed (JSCoverage.subscriptions (JSCoverage.tracker js))
        onExecutionContextsClearedH
   then
     JSCoverage.run_task isPuppeteerURL js JSCoverage.ExecutionContextsCleared
     = JSCoverage.mkLoop
         (JSCoverage.onExecutionContextsCleared (JSCoverage.tracker js))
         (JSCoverage.inflight js)
   else
     JSCoverage.run_task isPuppeteerURL js JSCoverage.ExecutionContextsCleared
     = js) /\
  (if subscribed (CSSCoverage.eventListeners (CSSCoverage.tracker css))
        onExecutionContextsClearedH
   then
     CSSCoverage.run_task css CSSCoverage.ExecutionContextsCleared
     = CSSCoverage.mkLoop
         (CSSCoverage.onExecutionContextsCleared (CSSCoverage.tracker css))
         (CSSCoverage.inflight css)
   else
     CSSCoverage.run_task css CSSCoverage.ExecutionContextsCleared = css).
Proof.
  unfold JSCoverage.onExecutionContextsCleared,
    CSSCoverage.onExecutionContextsCleared, js_frame, css_frame.
  repeat split.
  - destruct (JSCoverage.resetOnNavigation (JSCoverage.tracker js)) eqn:E;
      simpl; [|reflexivity]. repeat split; reflexivity.
  - destruct (CSSCoverage.resetOnNavigation (CSSCoverage.tracker css)) eqn:E;
      simpl; [|reflexivity]. repeat split; reflexivity.
  - simpl. now destruct (subscribed _ _).
  - simpl. now destruct (subscribed _ _).
Qed.

(** ** What [stop] returns *)

Lemma js_stop_body_app this coverage entry :
  JSCoverage.stop_body this coverage entry
  = coverage ++ JSCoverage.stop_body this [] entry.
Proof.
  unfold JSCoverage.stop_body.
  destruct (JSMap.get (JSCoverage.scriptSources this) (Protocol.scriptId entry));
    [|now rewrite app_nil_r].
  destruct (if negb (truthy_opt (JSMap.get (JSCoverage.scriptURLs this)
                                   (Protocol.scriptId entry)))
               && JSCoverage.reportAnonymousScripts this
            then Some ("debugger://VM" ++ Protocol.scriptId entry)%string
            else JSMap.get (JSCoverage.scriptURLs this) (Protocol.scriptId entry));
    [|now rewrite app_nil_r].
  now destruct (negb (JSCoverage.includeRawScriptCoverage this)).
Qed.

Lemma js_stop_loop this snapshot :
  forall coverage,
    fold_left (JSCoverage.stop_body this) snapshot coverage
    = coverage ++ flat_map (JSCoverage.stop_body this []) snapshot.
Proof.
  induction snapshot as [|entry snapshot IH]; intros coverage; simpl.
  - now rewrite app_nil_r.
  - rewrite IH, js_stop_body_app. now rewrite <- app_assoc.
Qed.

(** A snapshot entry whose script has no cached source is skipped. *)
Lemma js_stop_body_uncached this entry :
  JSMap.get (JSCoverage.scriptSources this) (Protocol.scriptId entry) = None ->
  JSCoverage.stop_body this [] entry = [].
Proof. intros H. unfold JSCoverage.stop_body. now rewrite H. Qed.

(** An entry is built from a snapshot entry and the cached source of its
    script. *)
Lemma js_stop_body_entry this entry e :
  In e (JSCoverage.stop_body this [] entry) ->
  JSMap.get (JSCoverage.scriptSources this) (Protocol.scriptId entry)
    = Some (text e) /\
  ranges e = convertToDisjointRanges (JSCoverage.flattenRanges entry) /\
  JSCoverage.stop_body this [] entry = [e].
Proof.
  unfold JSCoverage.stop_body.
  destruct (JSMap.get (JSCoverage.scriptSources this) (Protocol.scriptId entry));
    [|intros []].
  destruct (if negb (truthy_opt (JSMap.get (JSCoverage.scriptURLs this)
                                   (Protocol.scriptId entry)))
               && JSCoverage.reportAnonymousScripts this
            then Some ("debugger://VM" ++ Protocol.scriptId entry)%string
            else JSMap.get (JSCoverage.scriptURLs this) (Protocol.scriptId entry));
    [|intros []].
  destruct (negb (JSCoverage.includeRawScriptCoverage this)); simpl;
    intros [<-|[]]; auto.
Qed.

Lemma js_stop_resolved this this' result :
  JSCoverage.stop this = (this', Resolved result) ->
  JSCoverage.enabled this = true /\
  js_same_cache this this' /\
  exists snapshot,
    JSCoverage.client this Protocol.Profiler_takePreciseCoverage = Some snapshot /\
    result = flat_map (JSCoverage.stop_body this' []) snapshot.
Proof.
  unfold JSCoverage.stop, assert.
  destruct (JSCoverage.enabled this); [|discriminate].
  cbn [JSCoverage.client].
  destruct (JSCoverage.client this Protocol.Profiler_takePreciseCoverage)
    as [snapshot|]; [|discriminate].
  match goal with |- context [sendAll ?c ?l] => destruct (sendAll c l) end;
    [discriminate|].
  intros H. injection H as <- <-.
  split; [reflexivity|]. split; [repeat split|].
  exists snapshot. split; [reflexivity|]. now rewrite js_stop_loop.
Qed.

Lemma js_stop_body_same_cache a b entry :
  js_same_cache a b ->
  JSCoverage.stop_body b [] entry = JSCoverage.stop_body a [] entry.
Proof.
  intros (H1 & H2 & H3 & H4). unfold JSCoverage.stop_body.
  now rewrite H1, H2, H3, H4.
Qed.


(** ** Anonymous scripts *)

Lemma remove_nth_Forall {A} (P : A -> Prop) n l :
  Forall P l -> Forall P (JSCoverage.remove_nth n l).
Proof.
  intros H. revert n. induction H as [|a l Ha Hl IH]; intros [|n]; simpl;
    try constructor; auto.
Qed.











(** ** The stylesheet result *)

Lemma css_aggregate_other l id :
  (forall u, In u l -> Protocol.styleSheetId u <> id) ->
  forall m, JSMap.get (fold_left CSSCoverage.aggregate_body l m) id = JSMap.get m id.
Proof.
  induction l as [|u l IH]; intros H m; simpl; [reflexivity|].
  rewrite IH by (intros x Hx; apply H; now right).
  unfold CSSCoverage.aggregate_body. apply JSMap_get_set_other.
  apply H. now left.
Qed.

(** A stylesheet for which no rule usage was reported has no ranges. *)
Lemma css_usage_unreported ruleUsage id :
  (forall u, In u ruleUsage -> Protocol.styleSheetId u <> id) ->
  css_usage ruleUsage id = [].
Proof.
  intros H. unfold css_usage, CSSCoverage.aggregate.
  now rewrite css_aggregate_other.
Qed.

Lemma css_stop_loop_rejected this M ids e :
  fold_left (CSSCoverage.stop_body this M) ids (Rejected e) = Rejected e.
Proof. induction ids as [|id ids IH]; simpl; [reflexivity|exact IH]. Qed.

Lemma css_stop_loop_resolved this ruleUsage ids :
  forall coverage result,
    fold_left (CSSCoverage.stop_body this (CSSCoverage.aggregate ruleUsage))
      ids (Resolved coverage) = Resolved result ->
    exists entries,
      result = coverage ++ entries /\
      Forall2 (css_entry_for this ruleUsage) ids entries.
Proof.
  induction ids as [|id ids IH]; intros coverage result H; simpl in H.
  - injection H as <-. exists []. split; [now rewrite app_nil_r|constructor].
  - destruct (JSMap.get (CSSCoverage.stylesheetURLs this) id) as [u|] eqn:Eu;
      [|rewrite css_stop_loop_rejected in H; discriminate].
    destruct (JSMap.get (CSSCoverage.stylesheetSources this) id) as [t|] eqn:Et;
      [|rewrite css_stop_loop_rejected in H; discriminate].
    destruct (IH _ _ H) as (entries & -> & Hall).
    eexists (_ :: entries). split; [now rewrite <- app_assoc|].
    constructor; [|exact Hall]. unfold css_entry_for; simpl. now repeat split.
Qed.

Lemma css_stop_loop_total this M ids :
  (forall id, In id ids ->
     JSMap.get (CSSCoverage.stylesheetURLs this) id <> None /\
     JSMap.get (CSSCoverage.stylesheetSources this) id <> None) ->
  forall coverage, exists result,
    fold_left (CSSCoverage.stop_body this M) ids (Resolved coverage)
    = Resolved result.
Proof.
  induction ids as [|id ids IH]; intros H coverage; simpl.
  - now exists coverage.
  - destruct (H id (or_introl eq_refl)) as [Hu Ht].
    destruct (JSMap.get (CSSCoverage.stylesheetURLs this) id); [|now elim Hu].
    destruct (JSMap.get (CSSCoverage.stylesheetSources this) id); [|now elim Ht].
    apply IH. intros x Hx. apply H. now right.
Qed.

Lemma css_stop_resolved this this' result :
  CSSCoverage.stop this = (this', Resolved result) ->
  CSSCoverage.enabled this = true /\
  exists ruleUsage,
    CSSCoverage.client this Protocol.CSS_stopRuleUsageTracking = Some ruleUsage /\
    Forall2 (css_entry_for this ruleUsage)
      (JSMap.keys (CSSCoverage.stylesheetURLs this)) result.
Proof.
  unfold CSSCoverage.stop, assert.
  destruct (CSSCoverage.enabled this); [|discriminate].
  cbn [CSSCoverage.client CSSCoverage.stylesheetURLs].
  destruct (CSSCoverage.client this Protocol.CSS_stopRuleUsageTracking)
    as [ruleUsage|]; [|discriminate].
  match goal with |- context [sendAll ?c ?l] => destruct (sendAll c l) end;
    [discriminate|].
  intros H. injection H as <- H.
  split; [reflexivity|]. exists ruleUsage. split; [reflexivity|].
  apply css_stop_loop_resolved in H. destruct H as (entries & -> & Hall).
  exact Hall.
Qed.

(** [stop] resolves when the two maps hold the same stylesheets and the
    session accepts the commands. *)
Lemma css_stop_total this ruleUsage :
  CSSCoverage.enabled this = true ->
  JSMap.keys (CSSCoverage.stylesheetURLs this)
  = JSMap.keys (CSSCoverage.stylesheetSources this) ->
  CSSCoverage.client this Protocol.CSS_stopRuleUsageTracking = Some ruleUsage ->
  sendAll (CSSCoverage.client this) [Protocol.CSS_disable; Protocol.DOM_disable]
  = None ->
  exists this' result, CSSCoverage.stop this = (this', Resolved result).
Proof.
  intros He Hk Hc Hs. unfold CSSCoverage.stop, assert. rewrite He.
  cbn [CSSCoverage.client CSSCoverage.stylesheetURLs]. rewrite Hc, Hs.
  match goal with
  | |- context [fold_left (CSSCoverage.stop_body ?t ?M) ?ids (Resolved [])] =>
      destruct (css_stop_loop_total t M ids) with (coverage := @nil CoverageEntry)
        as [result Hr]
  end.
  - intros id Hid. simpl. split.
    + intros E. now apply JSMap_get_none in E.
    + intros E. apply JSMap_get_none in E. apply E. now rewrite <- Hk.
  - eexists _, result. now rewrite Hr.
Qed.

(** The two maps of the stylesheet tracker always hold the same
    stylesheets. *)
Lemma css_keys_resume this ev response :
  JSMap.keys (CSSCoverage.stylesheetURLs this)
  = JSMap.keys (CSSCoverage.stylesheetSources this) ->
  JSMap.keys (CSSCoverage.stylesheetURLs
                (CSSCoverage.onStyleSheet_resume this ev response))
  = JSMap.keys (CSSCoverage.stylesheetSources
                  (CSSCoverage.onStyleSheet_resume this ev response)).
Proof.
  intros H. destruct response as [t|]; simpl; [|exact H].
  rewrite !JSMap_keys_set, H.
  now rewrite (JSMap_has_keys _ _ _ H).
Qed.

Lemma css_keys_run tasks :
  forall w,
    JSMap.keys (CSSCoverage.stylesheetURLs (CSSCoverage.tracker w))
    = JSMap.keys (CSSCoverage.stylesheetSources (CSSCoverage.tracker w)) ->
    JSMap.keys (CSSCoverage.stylesheetURLs
                  (CSSCoverage.tracker (CSSCoverage.run tasks w)))
    = JSMap.keys (CSSCoverage.stylesheetSources
                    (CSSCoverage.tracker (CSSCoverage.run tasks w))).
Proof.
  induction tasks as [|task tasks IH]; intros w H; [exact H|].
  simpl. apply IH. destruct task as [ev|n response|]; simpl.
  - destruct (subscribed _ _); [|exact H].
    now destruct (CSSCoverage.onStyleSheet_request _ _).
  - destruct (nth_error _ _); [|exact H]. simpl. now apply css_keys_resume.
  - destruct (subscribed _ _); [|exact H].
    unfold CSSCoverage.onExecutionContextsCleared. now destruct (negb _).
Qed.

(** Between [start] and [stop] the tasks leave the session and the enabled
    flag alone. *)
Lemma css_run_frame tasks :
  forall w,
    CSSCoverage.client (CSSCoverage.tracker (CSSCoverage.run tasks w))
    = CSSCoverage.client (CSSCoverage.tracker w) /\
    CSSCoverage.enabled (CSSCoverage.tracker (CSSCoverage.run tasks w))
    = CSSCoverage.enabled (CSSCoverage.tracker w).
Proof.
  induction tasks as [|task tasks IH]; intros w; [now split|].
  simpl. destruct (IH (CSSCoverage.run_task w task)) as [-> ->].
  destruct task as [ev|n response|]; simpl.
  - destruct (subscribed _ _); [|now split].
    now destruct (CSSCoverage.onStyleSheet_request _ _).
  - destruct (nth_error _ _); [|now split]. now destruct response.
  - destruct (subscribed _ _); [|now split].
    unfold CSSCoverage.onExecutionContextsCleared. now destruct (negb _).
Qed.

(** On a session that accepts the commands, a stylesheet tracker that was
    started resolves its [stop], whatever happened in between. *)
Lemma css_session_stop_total client options tasks ruleUsage :
  sendAll client [Protocol.DOM_enable; Protocol.CSS_enable;
                  Protocol.CSS_startRuleUsageTracking] = None ->
  client Protocol.CSS_stopRuleUsageTracking = Some ruleUsage ->
  sendAll client [Protocol.CSS_disable; Protocol.DOM_disable] = None ->
  exists css' result,
    CSSCoverage.stop
      (CSSCoverage.tracker
         (CSSCoverage.run tasks
            (CSSCoverage.mkLoop
               (fst (CSSCoverage.start options (CSSCoverage.new client))) [])))
    = (css', Resolved result).
Proof.
  intros Hstart Hc Hstop.
  assert (E : exists started,
             CSSCoverage.start options (CSSCoverage.new client)
             = (started, Resolved tt) /\
             CSSCoverage.client started = client /\
             CSSCoverage.enabled started = true /\
             JSMap.keys (CSSCoverage.stylesheetURLs started)
             = JSMap.keys (CSSCoverage.stylesheetSources started)).
  { unfold CSSCoverage.start, CSSCoverage.new, assert.
    cbn [CSSCoverage.enabled CSSCoverage.client negb]. rewrite Hstart.
    eexists. split; [reflexivity|]. now repeat split. }
  destruct E as (started & -> & Hcl0 & Hen0 & Hk0). cbn [fst].
  pose proof (css_run_frame tasks (CSSCoverage.mkLoop started [])) as [Hcl Hen].
  pose proof (css_keys_run tasks (CSSCoverage.mkLoop started []) Hk0) as Hk.
  cbn [CSSCoverage.tracker] in Hcl, Hen.
  apply css_stop_total with (ruleUsage := ruleUsage).
  - now rewrite Hen.
  - exact Hk.
  - now rewrite Hcl, Hcl0.
  - now rewrite Hcl, Hcl0.
Qed.

(** The facade hands [stop] on to its tracker. *)
Lemma facade_stopCSSCoverage cov cov' result :
  Coverage.stopCSSCoverage cov = (cov', Resolved result) ->
  exists css',
    CSSCoverage.stop (Coverage.cssCoverage cov) = (css', Resolved result).
Proof.
  unfold Coverage.stopCSSCoverage.
  destruct (CSSCoverage.stop (Coverage.cssCoverage cov)) as [css r].
  intros H. injection H as _ ->. now exists css.
Qed.

Lemma facade_stopJSCoverage cov cov' result :
  Coverage.stopJSCoverage cov = (cov', Resolved result) ->
  exists js',
    JSCoverage.stop (Coverage.jsCoverage cov) = (js', Resolved result).
Proof.
  unfold Coverage.stopJSCoverage.
  destruct (JSCoverage.stop (Coverage.jsCoverage cov)) as [js r].
  intros H. injection H as _ ->. now exists js.
Qed.

(** ** Order of the result and the join with the usage data *)

(** C8 (as the code has it): [stopCSSCoverage] resolves to one entry per
    cached stylesheet, in the iteration order of the URL map, where a
    stylesheet stands at the place of its first successful fetch since the
    map was last cleared; [stopJSCoverage] resolves to the entries of the
    cached scripts in the order in which the profiler's snapshot lists
    them. *)
Theorem result_order :
  (forall cov cov' result,
      Coverage.stopCSSCoverage cov = (cov', Resolved result) ->
      exists ruleUsage,
        CSSCoverage.client (Coverage.cssCoverage cov)
          Protocol.CSS_stopRuleUsageTracking = Some ruleUsage /\
        Forall2 (css_entry_for (Coverage.cssCoverage cov) ruleUsage)
          (JSMap.keys (CSSCoverage.stylesheetURLs (Coverage.cssCoverage cov)))
          result) /\
  (forall css ev text,
      JSMap.keys (CSSCoverage.stylesheetURLs
                    (CSSCoverage.onStyleSheet_resume css ev (Some text)))
      = if JSMap.has (CSSCoverage.stylesheetURLs css)
             (Protocol.CSSStyleSheetHeader.styleSheetId
                (Protocol.StyleSheetAddedEvent.header ev))
        then JSMap.keys (CSSCoverage.stylesheetURLs css)
        else JSMap.keys (CSSCoverage.stylesheetURLs css)
               ++ [Protocol.CSSStyleSheetHeader.styleSheetId
                     (Protocol.StyleSheetAddedEvent.header ev)]) /\
  (forall cov cov' result,
      Coverage.stopJSCoverage cov = (cov', Resolved result) ->
      exists snapshot,
        JSCoverage.client (Coverage.jsCoverage cov)
          Protocol.Profiler_takePreciseCoverage = Some snapshot /\
        result
        = flat_map (JSCoverage.stop_body (Coverage.jsCoverage cov) []) snapshot /\
        forall entry,
          (List.length (JSCoverage.stop_body (Coverage.jsCoverage cov) [] entry)
           <= 1)%nat).
Proof.
  split; [|split].
  - intros cov cov' result H.
    apply facade_stopCSSCoverage in H. destruct H as [css' H].
    now apply css_stop_resolved in H.
  - intros css ev t. simpl. apply JSMap_keys_set.
  - intros cov cov' result H.
    apply facade_stopJSCoverage in H. destruct H as [js' H].
    destruct (js_stop_resolved _ _ _ H) as (_ & Hsame & snapshot & Hc & ->).
    exists snapshot. split; [exact Hc|]. split.
    + apply flat_map_ext. intros entry. now apply js_stop_body_same_cache.
    + intros entry.
      destruct (JSCoverage.stop_body (Coverage.jsCoverage cov) [] entry)
        as [|e l] eqn:E; [simpl; lia|].
      assert (Hin : In e (JSCoverage.stop_body (Coverage.jsCoverage cov) [] entry))
        by (rewrite E; now left).
      apply js_stop_body_entry in Hin. destruct Hin as (_ & _ & Hone).
      rewrite E in Hone. injection Hone as ->. simpl. lia.
Qed.

(** C10: at [stop], every stylesheet in the cache gives an entry, with no
    ranges when the target reported no rule usage for it; a script gives an
    entry only through a snapshot entry whose script is in the cache. *)
Theorem usage_join_asymmetry :
  (forall css ruleUsage,
      CSSCoverage.enabled css = true ->
      JSMap.keys (CSSCoverage.stylesheetURLs css)
      = JSMap.keys (CSSCoverage.stylesheetSources css) ->
      CSSCoverage.client css Protocol.CSS_stopRuleUsageTracking = Some ruleUsage ->
      sendAll (CSSCoverage.client css) [Protocol.CSS_disable; Protocol.DOM_disable]
      = None ->
      exists css' result,
        CSSCoverage.stop css = (css', Resolved result) /\
        Forall2 (fun id e =>
                   css_entry_for css ruleUsage id e /\
                   ((forall u, In u ruleUsage -> Protocol.styleSheetId u <> id) ->
                    ranges e = []))
          (JSMap.keys (CSSCoverage.stylesheetURLs css)) result) /\
  (forall js js' result,
      JSCoverage.stop js = (js', Resolved result) ->
      exists snapshot,
        JSCoverage.client js Protocol.Profiler_takePreciseCoverage
        = Some snapshot /\
        result = flat_map (JSCoverage.stop_body js []) snapshot /\
        (forall entry,
            JSMap.get (JSCoverage.scriptSources js) (Protocol.scriptId entry)
            = None ->
            JSCoverage.stop_body js [] entry = []) /\
        (forall e, In e result ->
           exists entry,
             In entry snapshot /\
             JSMap.get (JSCoverage.scriptSources js) (Protocol.scriptId entry)
             = Some (text e))).
Proof.
  split.
  - intros css ruleUsage He Hk Hc Hs.
    destruct (css_stop_total css ruleUsage He Hk Hc Hs) as (css' & result & H).
    exists css', result. split; [exact H|].
    apply css_stop_resolved in H. destruct H as (_ & ru & Hc' & Hall).
    rewrite Hc in Hc'. injection Hc' as <-.
    eapply Forall2_impl; [|exact Hall].
    intros id e Hent. split; [exact Hent|]. intros Hno.
    destruct Hent as (_ & _ & -> & _). now rewrite css_usage_unreported.
  - intros js js' result H.
    destruct (js_stop_resolved _ _ _ H) as (_ & Hsame & snapshot & Hc & ->).
    exists snapshot. split; [exact Hc|]. split; [|split].
    + apply flat_map_ext. intros entry. now apply js_stop_body_same_cache.
    + intros entry. apply js_stop_body_uncached.
    + intros e He. apply in_flat_map in He. destruct He as (entry & Hin & He).
      exists entry. split; [exact Hin|].
      rewrite (js_stop_body_same_cache _ _ entry Hsame) in He.
      now apply js_stop_body_entry in He.
Qed.

Example js_two_scripts_cache :
  JSCoverage.scriptURLs Demo.js_two_scripts
  = [("1", "a.js"); ("2", "b.js")]%string.
Proof. reflexivity. Qed.

Example css_two_sheets_cache :
  CSSCoverage.stylesheetURLs Demo.css_two_sheets
  = [("s2", "b.css"); ("s1", "a.css")]%string.
Proof. reflexivity. Qed.

Example css_two_sheets_stop :
  snd (CSSCoverage.stop Demo.css_two_sheets)
  = Resolved [mkEntry "b.css" [] "B" None;
              mkEntry "a.css" [mkRange 0 5] "A" None].
Proof. reflexivity. Qed.

(** C8 as stated fails for scripts: the cache holds script 1 before script
    2, the snapshot lists script 2 first, and so does the result of
    [stopJSCoverage]. *)
Lemma js_result_order_counterexample :
  exists cov' result,
    Coverage.stopJSCoverage Demo.coverage = (cov', Resolved result) /\
    JSCoverage.scriptURLs (Coverage.jsCoverage Demo.coverage)
    = [("1", "a.js"); ("2", "b.js")]%string /\
    map url result = ["b.js"; "a.js"]%string /\
    subsequence (map url result)
      (map snd (JSCoverage.scriptURLs (Coverage.jsCoverage Demo.coverage)))
    = false.
Proof.
  eexists. eexists. split; [reflexivity|]. repeat split; reflexivity.
Qed.

Lemma result_order_witness :
  (exists ruleUsage,
      CSSCoverage.client Demo.css_two_sheets Protocol.CSS_stopRuleUsageTracking
      = Some ruleUsage /\
      Forall2 (css_entry_for Demo.css_two_sheets ruleUsage)
        ["s2"; "s1"]%string
        [mkEntry "b.css" [] "B" None; mkEntry "a.css" [mkRange 0 5] "A" None]) /\
  (exists snapshot,
      JSCoverage.client Demo.js_two_scripts Protocol.Profiler_takePreciseCoverage
      = Some snapshot /\
      [mkEntry "b.js" [mkRange 0 4] "B" None;
       mkEntry "a.js" [mkRange 0 2; mkRange 5 10] "A" None]
      = flat_map (JSCoverage.stop_body Demo.js_two_scripts []) snapshot /\
      forall entry,
        (List.length (JSCoverage.stop_body Demo.js_two_scripts [] entry) <= 1)%nat).
Proof.
  destruct result_order as (Hcss & _ & Hjs). split.
  - exact (Hcss Demo.coverage _ _ eq_refl).
  - exact (Hjs Demo.coverage _ _ eq_refl).
Defined.



Lemma usage_join_asymmetry_witness :
  (exists css' result,
      CSSCoverage.stop Demo.css_two_sheets = (css', Resolved result) /\
      Forall2 (fun id e =>
                 css_entry_for Demo.css_two_sheets Demo.ruleUsage id e /\
                 ((forall u, In u Demo.ruleUsage -> Protocol.styleSheetId u <> id) ->
                  ranges e = []))
        ["s2"; "s1"]%string result) /\
  (exists snapshot,
      JSCoverage.client Demo.js_two_scripts Protocol.Profiler_takePreciseCoverage
      = Some snapshot /\
      [mkEntry "b.js" [mkRange 0 4] "B" None;
       mkEntry "a.js" [mkRange 0 2; mkRange 5 10] "A" None]
      = flat_map (JSCoverage.stop_body Demo.js_two_scripts []) snapshot /\
      (forall entry,
          JSMap.get (JSCoverage.scriptSources Demo.js_two_scripts)
            (Protocol.scriptId entry) = None ->
          JSCoverage.stop_body Demo.js_two_scripts [] entry = []) /\
      (forall e,
          In e [mkEntry "b.js" [mkRange 0 4] "B" None;
                mkEntry "a.js" [mkRange 0 2; mkRange 5 10] "A" None] ->
          exists entry,
            In entry snapshot /\
            JSMap.get (JSCoverage.scriptSources Demo.js_two_scripts)
              (Protocol.scriptId entry) = Some (text e))).
Proof.
  destruct usage_join_asymmetry as [Hcss Hjs]. split.
  - exact (Hcss Demo.css_two_sheets Demo.ruleUsage eq_refl eq_refl eq_refl eq_refl).
  - exact (Hjs Demo.js_two_scripts _ _ eq_refl).
Defined.


(** * Further properties of the range merger *)

(** ** The comparator *)

(** X1: the comparator is consistent, as [Array.prototype.sort] asks of a
    comparator: swapping its arguments negates its result, and both its
    order and its ties are transitive. *)
Theorem comparePoints_consistent (a b c : Point) :
  comparePoints b a = - comparePoints a b /\
  (comparePoints a b <= 0 -> comparePoints b c <= 0 -> comparePoints a c <= 0) /\
  (comparePoints a b = 0 -> comparePoints b c = 0 -> comparePoints a c = 0).
Proof.
  split; [|split].
  - cmp_cases; lia.
  - intros Hab Hbc. cmp_cases; lia.
  - intros Hab Hbc. cmp_cases; lia.
Qed.

(** ** What the loop records *)

Lemma rsweep_boundaries (S : Z -> Prop) pts :
  forall st,
    (forall d, In d (results st) -> S (start d) /\ S (end_ d)) ->
    (hitCountStack st <> [] -> S (lastOffset st)) ->
    (forall q, In q pts -> S (offset q)) ->
    forall d, In d (results (rsweep pts st)) -> S (start d) /\ S (end_ d).
Proof.
  induction pts as [|q pts IH]; intros st Hres Hlast Hpts; [exact Hres|].
  simpl. apply IH.
  - assert (Hq : S (offset q)) by (apply Hpts; now left).
    unfold rsweep_step; simpl.
    destruct (hitCountStack st) as [|top stk]; [exact Hres|].
    assert (Hlo : S (lastOffset st)) by (apply Hlast; discriminate).
    destruct ((lastOffset st <? offset q) && (top >? 0)); [|exact Hres].
    destruct (results st) as [|l R].
    + intros d [<-|[]]. now split.
    + destruct (end_ l =? lastOffset st).
      * intros d [<-|Hd]; simpl.
        -- split; [|exact Hq]. apply (Hres l). now left.
        -- apply Hres. now right.
      * intros d [<-|Hd]; [now split|now apply Hres].
  - intros _. simpl. apply Hpts. now left.
  - intros x Hx. apply Hpts. now right.
Qed.

(** X3: the merger never invents a boundary: the start and the end of every
    output range are starts or ends of input ranges. *)
Theorem convertToDisjointRanges_boundaries (rs : list UsageRange)
    (d : DisjointRange) :
  In d (convertToDisjointRanges rs) ->
  boundary_of rs (start d) /\ boundary_of rs (end_ d).
Proof.
  rewrite convert_unfiltered, <- in_rev.
  apply rsweep_boundaries.
  - intros x [].
  - intros H. now elim H.
  - intros q Hq.
    assert (Hin : In q (pointsOf rs))
      by (eapply Permutation_in; [symmetry; apply sort_points_perm|exact Hq]).
    apply in_pointsOf in Hin. destruct Hin as (r & Hr & [-> | ->]);
      exists r; simpl; auto.
Qed.

Lemma convertToDisjointRanges_boundaries_witness :
  boundary_of [mkUsage 0 10 1; mkUsage 2 5 0] (start (mkRange 5 10)) /\
  boundary_of [mkUsage 0 10 1; mkUsage 2 5 0] (end_ (mkRange 5 10)).
Proof.
  apply convertToDisjointRanges_boundaries. right. now left.
Defined.

(** X2: the loop never records an empty range, so the final [filter]
    removes nothing: the merger returns [results] as the loop leaves it. *)
Theorem convertToDisjointRanges_filter_idle (rs : list UsageRange) :
  convertToDisjointRanges rs
  = results (sweep (sort_points (pointsOf rs)) sweep_init) /\
  Forall (fun range => end_ range - start range > 0)
    (results (sweep (sort_points (pointsOf rs)) sweep_init)).
Proof.
  assert (E : results (sweep (sort_points (pointsOf rs)) sweep_init)
              = rev (results (rsweep (sort_points (pointsOf rs)) sweep_init))).
  { pose proof (mirror_sweep (sort_points (pointsOf rs)) sweep_init) as H.
    apply (f_equal results) in H. simpl in H.
    change (mirror sweep_init) with sweep_init in H.
    rewrite <- H. now rewrite rev_involutive. }
  rewrite E. split; [apply convert_unfiltered|].
  destruct (rchain_rev _ (sweep_chain rs)) as [Hne _].
  eapply Forall_impl; [|exact Hne]. intros d Hd. simpl in Hd. lia.
Qed.

(** ** Hit counts *)

Lemma normalize_bounds_hit r :
  normalize r
  = mkUsage (start (bounds r)) (end_ (bounds r)) (if hit r then 1 else 0).
Proof. reflexivity. Qed.

Lemma map_normalize_eq rs :
  forall rs',
    map bounds rs = map bounds rs' -> map hit rs = map hit rs' ->
    map normalize rs = map normalize rs'.
Proof.
  induction rs as [|r rs IH]; intros [|r' rs'] Hb Hh; try discriminate;
    [reflexivity|].
  simpl in *. injection Hb as Hs He Hb. injection Hh as Hh1 Hh2.
  rewrite (IH rs' Hb Hh2). unfold normalize. now rewrite Hs, He, Hh1.
Qed.

(** X4: the merger looks at a hit count only to see whether it is positive:
    two inputs with the same bounds, in the same order, whose hit counts have
    the same signs give the same output. *)
Theorem convertToDisjointRanges_sign_only (rs rs' : list UsageRange)
    (Hbounds : map bounds rs = map bounds rs')
    (Hsigns : map hit rs = map hit rs') :
  convertToDisjointRanges rs = convertToDisjointRanges rs'.
Proof.
  rewrite <- (convert_normalize rs), <- (convert_normalize rs').
  now rewrite (map_normalize_eq rs rs' Hbounds Hsigns).
Qed.

Lemma convertToDisjointRanges_sign_only_witness :
  convertToDisjointRanges [mkUsage 0 10 7; mkUsage 2 5 0; mkUsage 3 4 2]
  = convertToDisjointRanges [mkUsage 0 10 1; mkUsage 2 5 (-3); mkUsage 3 4 1].
Proof.
  apply convertToDisjointRanges_sign_only; reflexivity.
Defined.

Lemma rsweep_no_hit pts :
  forall st,
    Forall (fun c => c <= 0) (hitCountStack st) ->
    Forall (fun q => count (range q) <= 0) pts ->
    results (rsweep pts st) = results st.
Proof.
  induction pts as [|q pts IH]; intros st Hst Hpts; [reflexivity|].
  inversion Hpts as [|? ? Hq Hpts']; subst. simpl. rewrite IH; [| |exact Hpts'].
  - unfold rsweep_step; simpl.
    destruct (hitCountStack st) as [|top stk]; [reflexivity|].
    inversion Hst; subst.
    replace (top >? 0) with false
      by (symmetry; rewrite Z.gtb_ltb; apply Z.ltb_ge; lia).
    now rewrite andb_false_r.
  - unfold rsweep_step; simpl. destruct (type q =? 0).
    + now constructor.
    + destruct (hitCountStack st); [constructor|now inversion Hst].
Qed.

(** X5: when no input range has a positive hit count, the output is empty,
    however the ranges overlap. *)
Theorem convertToDisjointRanges_no_hit (rs : list UsageRange)
    (Hnone : Forall (fun r => count r <= 0) rs) :
  convertToDisjointRanges rs = [].
Proof.
  rewrite convert_unfiltered, rsweep_no_hit; [reflexivity|constructor|].
  apply Forall_forall. intros q Hq.
  assert (Hin : In q (pointsOf rs))
    by (eapply Permutation_in; [symmetry; apply sort_points_perm|exact Hq]).
  apply in_pointsOf in Hin. rewrite Forall_forall in Hnone.
  destruct Hin as (r & Hr & [-> | ->]); simpl; now apply Hnone.
Qed.

Lemma convertToDisjointRanges_no_hit_witness :
  convertToDisjointRanges [mkUsage 0 10 0; mkUsage 5 20 0; mkUsage 7 7 (-1)] = [].
Proof.
  apply convertToDisjointRanges_no_hit. repeat constructor; simpl; lia.
Defined.

(** ** Ranges that overlap without nesting *)

Lemma remove_first_count r G r0 :
  In r G ->
  (count_occ UsageRange_eq_dec (remove_first r G) r0
   + (if UsageRange_eq_dec r r0 then 1 else 0)
   = count_occ UsageRange_eq_dec G r0)%nat.
Proof.
  induction G as [|g G IH]; intros Hin; [destruct Hin|].
  simpl. destruct (UsageRange_eq_dec g r) as [->|Hneq].
  - destruct (UsageRange_eq_dec r r0); lia.
  - destruct Hin as [E|Hin]; [contradiction|]. specialize (IH Hin).
    simpl. destruct (UsageRange_eq_dec g r0); lia.
Qed.

Lemma remove_first_length r G :
  In r G -> S (List.length (remove_first r G)) = List.length G.
Proof.
  induction G as [|g G IH]; intros Hin; [destruct Hin|].
  simpl. destruct (UsageRange_eq_dec g r) as [->|Hneq]; [reflexivity|].
  destruct Hin as [E|Hin]; [contradiction|]. simpl. now rewrite IH.
Qed.

Lemma pushes_snoc l q :
  pushes (l ++ [q]) = (pushes l + (if (type q =? 0)%Z then 1 else 0))%nat.
Proof.
  unfold pushes. rewrite filter_app, length_app. simpl.
  now destruct (type q =? 0).
Qed.

Lemma pops_snoc l q :
  pops (l ++ [q]) = (pops l + (if (type q =? 0)%Z then 0 else 1))%nat.
Proof.
  unfold pops. rewrite filter_app, length_app. simpl.
  now destruct (type q =? 0).
Qed.

Section Union.

Variable N : list UsageRange.
Hypothesis N_nonempty : Forall (fun r => startOffset r < endOffset r) N.

Lemma open_in pre suf G g :
  sorted_points N = pre ++ suf -> open_ranges pre G -> In g G ->
  In g N /\ In (startPoint g) pre /\ In (endPoint g) suf.
Proof.
  intros Hsplit HG Hg. apply (count_occ_In UsageRange_eq_dec) in Hg.
  specialize (HG g). destruct (split_counts _ _ _ Hsplit g) as [Ho Hcl].
  repeat split.
  - apply (count_occ_In UsageRange_eq_dec). lia.
  - apply (count_occ_In Point_eq_dec). unfold opens in *. lia.
  - apply (count_occ_In Point_eq_dec). unfold opens, closes in *. lia.
Qed.

Lemma open_region pre suf G p :
  sorted_points N = pre ++ suf -> open_ranges pre G ->
  (forall a, In a pre -> offset a <= p) ->
  (forall b, In b suf -> p < offset b) ->
  forall r, In r G <-> In r N /\ contains r p.
Proof.
  intros Hsplit HG Hpre Hsuf r. split.
  - intros Hr. destruct (open_in _ _ _ _ Hsplit HG Hr) as (HN & Ho & Hc).
    split; [exact HN|]. specialize (Hpre _ Ho). specialize (Hsuf _ Hc).
    unfold contains. simpl in *. lia.
  - intros [HN [Hs He]].
    assert (Ho : opens suf r = 0%nat).
    { apply (count_occ_not_In Point_eq_dec). intros Hin.
      specialize (Hsuf _ Hin). simpl in Hsuf. lia. }
    assert (Hc : closes pre r = 0%nat).
    { apply (count_occ_not_In Point_eq_dec). intros Hin.
      specialize (Hpre _ Hin). simpl in Hpre. lia. }
    apply (count_occ_In UsageRange_eq_dec) in HN.
    apply (count_occ_In UsageRange_eq_dec).
    specialize (HG r). destruct (split_counts _ _ _ Hsplit r) as [Ho' _]. lia.
Qed.

(** A range that closes is open. *)
Lemma open_close pre suf G r :
  sorted_points N = pre ++ endPoint r :: suf ->
  open_ranges pre G -> In r N -> In r G.
Proof.
  intros Hsplit HG HrN.
  assert (Ho : opens (endPoint r :: suf) r = 0%nat).
  { apply (count_occ_not_In Point_eq_dec). intros [Hin|Hin]; [discriminate|].
    pose proof (split_suf_sorted _ _ _ Hsplit) as Hs.
    apply StronglySorted_inv in Hs. destruct Hs as [_ Hs].
    rewrite Forall_forall in Hs. specialize (Hs _ Hin).
    pose proof (N_lt _ N_nonempty _ HrN). cmp_cases; simpl in *; lia. }
  assert (Hc : (closes (endPoint r :: suf) r > 0)%nat)
    by (apply (count_occ_In Point_eq_dec); now left).
  apply (count_occ_In UsageRange_eq_dec).
  destruct (split_counts _ _ _ Hsplit r) as [Ho' Hc'].
  specialize (HG r). lia.
Qed.

Lemma open_push pre G r :
  open_ranges pre G -> open_ranges (pre ++ [startPoint r]) (r :: G).
Proof.
  intros Hc r0. specialize (Hc r0). unfold opens, closes in *.
  rewrite !count_occ_app, !count_occ_single.
  destruct (Point_eq_dec (startPoint r) (endPoint r0)) as [E|_]; [discriminate|].
  destruct (UsageRange_eq_dec r r0) as [->|Hneq].
  - rewrite count_occ_cons_eq by reflexivity.
    destruct (Point_eq_dec (startPoint r0) (startPoint r0)); [lia|contradiction].
  - rewrite count_occ_cons_neq by assumption.
    destruct (Point_eq_dec (startPoint r) (startPoint r0)) as [E|_]; [|lia].
    apply startPoint_inj in E. contradiction.
Qed.

Lemma open_pop pre G r :
  open_ranges pre G -> In r G ->
  open_ranges (pre ++ [endPoint r]) (remove_first r G).
Proof.
  intros Hc Hin r0. specialize (Hc r0). unfold opens, closes in *.
  rewrite !count_occ_app, !count_occ_single.
  pose proof (remove_first_count r G r0 Hin) as Hrm.
  destruct (Point_eq_dec (endPoint r) (startPoint r0)) as [E|_]; [discriminate|].
  destruct (UsageRange_eq_dec r r0) as [->|Hneq].
  - destruct (Point_eq_dec (endPoint r0) (endPoint r0)); [lia|contradiction].
  - destruct (Point_eq_dec (endPoint r) (endPoint r0)) as [E|_]; [|lia].
    apply endPoint_inj in E. contradiction.
Qed.

Lemma union_init : union_inv N [] (sorted_points N) sweep_init.
Proof.
  exists []. split; [reflexivity|]. split; [intros r; reflexivity|].
  split; [reflexivity|]. split; [constructor|]. split; [intros q []|].
  split; [intros H; now elim H|]. split; [intros p H; now apply covered_nil in H|].
  split; [intros _ p H; now elim H|].
  unfold sweep_ok; simpl. split; [exact I|]. split; [intros d []|].
  intros H; now elim H.
Qed.

Lemma union_step pre q suf st :
  sorted_points N = pre ++ q :: suf ->
  union_inv N pre (q :: suf) st ->
  union_inv N (pre ++ [q]) suf (rsweep_step st q).
Proof.
  intros Hsplit (G & U1 & U2 & U3 & U8 & U4 & U5 & U7 & U9 & U6).
  assert (Hq : exists r, In r N /\ (q = startPoint r \/ q = endPoint r)).
  { apply sorted_points_in. rewrite Hsplit. apply in_or_app. right. now left. }
  assert (Hps : forall a, In a pre -> offset a <= offset q).
  { intros a Ha. apply le_point_offset, (split_le _ _ _ Hsplit); [exact Ha|now left]. }
  pose proof (split_suf_sorted _ _ _ Hsplit) as Hsorted.
  assert (Hqs : forall b, In b suf -> offset q <= offset b).
  { intros b Hb. apply StronglySorted_inv in Hsorted. destruct Hsorted as [_ Hs].
    rewrite Forall_forall in Hs. now apply le_point_offset, Hs. }
  assert (Hlo : pre <> [] -> lastOffset st <= offset q).
  { intros Hne. destruct (U5 Hne) as (a & Ha & <-). now apply Hps. }
  assert (Hempty : pre = [] \/ pre <> [])
    by (destruct pre; [now left|right; discriminate]).
  assert (Hsnoc : pre ++ [q] <> []) by (destruct pre; discriminate).
  assert (Hreg : forall p, (pre = [] \/ lastOffset st <= p) -> p < offset q ->
                 forall r, In r G <-> In r N /\ contains r p).
  { intros p Hp Hlt. apply (open_region _ _ _ _ Hsplit U2).
    - intros a Ha. destruct Hp as [->|Hp]; [destruct Ha|].
      specialize (U4 _ Ha). lia.
    - intros b [<-|Hb]; [exact Hlt|]. specialize (Hqs _ Hb). lia. }
  assert (Hnil : pre = [] -> G = []).
  { intros E. destruct G as [|g G0]; [reflexivity|].
    destruct (open_in _ _ _ g Hsplit U2 (or_introl eq_refl)) as (_ & Ho & _).
    rewrite E in Ho. destruct Ho. }
  assert (Hsound : forall p, covered (results (rsweep_step st q)) p ->
                             union_of N p).
  { intros p. rewrite covered_step by apply U6.
    intros [Hc|(Hlive & Hint)]; [now apply U7|].
    unfold live in Hlive.
    destruct (hitCountStack st) as [|top stk] eqn:Estk; [discriminate|].
    destruct G as [|g G0]; [discriminate|].
    destruct Hempty as [E|Hne]; [specialize (Hnil E); discriminate|].
    exists g. apply (Hreg p); [right; lia|lia|now left]. }
  assert (Hcomplete : Forall (fun r => count r > 0) N ->
            forall p, pre ++ [q] <> [] -> p < offset q -> union_of N p ->
                      covered (results (rsweep_step st q)) p).
  { intros Hall p _ Hlt Hun. rewrite covered_step by apply U6.
    destruct Hempty as [E|Hne].
    - exfalso. destruct Hun as (r & Hr). specialize (Hnil E).
      assert (Hin : In r G) by (apply (Hreg p); [now left|exact Hlt|exact Hr]).
      rewrite Hnil in Hin. destruct Hin.
    - destruct (Z.lt_ge_cases p (lastOffset st)) as [Hp|Hp];
        [left; now apply U9|].
      right. split; [|lia]. destruct Hun as (r & Hr).
      assert (Hin : In r G) by (apply (Hreg p); [now right|exact Hlt|exact Hr]).
      unfold live. destruct (hitCountStack st) as [|top stk] eqn:Estk.
      + destruct G; [destruct Hin|discriminate].
      + inversion U8 as [|? ? (r0 & Hr0 & ->) _]; subst.
        rewrite Forall_forall in Hall. specialize (Hall _ Hr0). simpl in Hall.
        rewrite Z.gtb_ltb. apply Z.ltb_lt. lia. }
  assert (Hrest : (forall a, In a (pre ++ [q]) -> offset a <= offset q) /\
                  (pre ++ [q] <> [] ->
                   exists a, In a (pre ++ [q]) /\ offset a = offset q) /\
                  sweep_ok (rsweep_step st q) suf).
  { split; [|split].
    - intros a Ha. apply in_app_or in Ha.
      destruct Ha as [Ha|[<-|[]]]; [now apply Hps|lia].
    - intros _. exists q. split; [apply in_or_app; right; now left|reflexivity].
    - now apply sweep_step_ok. }
  destruct Hrest as (U4' & U5' & U6').
  destruct Hq as (r & HrN & [-> | ->]).
  - exists (r :: G).
    split; [simpl; now rewrite U1|]. split; [now apply open_push|].
    split; [rewrite pushes_snoc, pops_snoc; simpl; lia|].
    split; [simpl; constructor; [now exists r|exact U8]|].
    split; [exact U4'|]. split; [exact U5'|]. split; [exact Hsound|].
    split; [exact Hcomplete|exact U6'].
  - pose proof (open_close _ _ _ _ Hsplit U2 HrN) as Hin.
    pose proof (remove_first_length r G Hin) as Hlen.
    assert (Htl : S (List.length (tl (hitCountStack st)))
                  = List.length (hitCountStack st)).
    { destruct (hitCountStack st); [|reflexivity].
      simpl in U1. rewrite <- U1 in Hlen. discriminate. }
    exists (remove_first r G).
    split; [simpl; lia|]. split; [now apply open_pop|].
    split; [rewrite pushes_snoc, pops_snoc; simpl; lia|].
    split; [simpl; destruct (hitCountStack st); [constructor|now inversion U8]|].
    split; [exact U4'|]. split; [exact U5'|]. split; [exact Hsound|].
    split; [exact Hcomplete|exact U6'].
Qed.

(** The invariant holds after every prefix of the sorted points. *)
Lemma union_prefix pre :
  forall suf,
    sorted_points N = pre ++ suf ->
    union_inv N pre suf (rsweep pre sweep_init).
Proof.
  induction pre as [|q pre IH] using rev_ind; intros suf Hsplit.
  - simpl in Hsplit. rewrite <- Hsplit. apply union_init.
  - unfold rsweep. rewrite fold_left_app. simpl.
    rewrite <- app_assoc in Hsplit. simpl in Hsplit.
    apply union_step; [exact Hsplit|]. now apply IH.
Qed.

End Union.

Lemma covered_rev R p : covered (rev R) p <-> covered R p.
Proof.
  unfold covered. split; intros (d & Hd & Hp); exists d;
    (split; [|exact Hp]); [now apply <- in_rev in Hd|now apply -> in_rev].
Qed.

Lemma mirror_stack_length pts :
  List.length (hitCountStack (sweep pts sweep_init))
  = List.length (hitCountStack (rsweep pts sweep_init)).
Proof.
  pose proof (mirror_sweep pts sweep_init) as H.
  apply (f_equal hitCountStack) in H. simpl in H.
  change (mirror sweep_init) with sweep_init in H.
  now rewrite <- H, length_rev.
Qed.

(** X6: for non-empty input ranges (nested or not) the sorted points form a
    valid parenthesis sequence: after every prefix the stack holds one hit
    count per start point not yet matched by an end point, an end point never
    finds the stack empty, and the loop leaves the stack empty. *)
Theorem sorted_points_parenthesis_sequence (rs : list UsageRange)
    (Hnonempty : Forall (fun r => startOffset r < endOffset r) rs) :
  (forall pre suf,
      sort_points (pointsOf rs) = pre ++ suf ->
      (List.length (hitCountStack (sweep pre sweep_init)) + pops pre
       = pushes pre)%nat) /\
  (forall pre q suf,
      sort_points (pointsOf rs) = pre ++ q :: suf -> type q <> 0 ->
      hitCountStack (sweep pre sweep_init) <> []) /\
  hitCountStack (sweep (sort_points (pointsOf rs)) sweep_init) = [].
Proof.
  assert (Hbal : forall pre suf,
             sort_points (pointsOf rs) = pre ++ suf ->
             (List.length (hitCountStack (sweep pre sweep_init)) + pops pre
              = pushes pre)%nat).
  { intros pre suf Hsplit. rewrite mirror_stack_length.
    destruct (union_prefix rs Hnonempty pre suf Hsplit) as (G & _ & _ & H & _).
    exact H. }
  split; [exact Hbal|]. split.
  - intros pre q suf Hsplit Hty Hnil.
    pose proof (Hbal pre (q :: suf) Hsplit) as H1.
    assert (Hsplit' : sort_points (pointsOf rs) = (pre ++ [q]) ++ suf)
      by now rewrite <- app_assoc.
    pose proof (Hbal (pre ++ [q]) suf Hsplit') as H2.
    rewrite pushes_snoc, pops_snoc in H2. rewrite Hnil in H1. simpl in H1.
    destruct (Z.eqb_spec (type q) 0); [contradiction|]. lia.
  - assert (Hsplit : sorted_points rs = sort_points (pointsOf rs) ++ [])
      by now rewrite app_nil_r.
    destruct (union_prefix rs Hnonempty _ _ Hsplit) as (G & HG & Hopen & _).
    assert (E : G = []).
    { destruct G as [|g G0]; [reflexivity|].
      destruct (open_in rs _ _ _ g Hsplit Hopen (or_introl eq_refl))
        as (_ & _ & []). }
    subst G. rewrite <- mirror_stack_length in HG.
    now destruct (hitCountStack (sweep (sort_points (pointsOf rs)) sweep_init)).
Qed.

Lemma sorted_points_parenthesis_sequence_witness :
  hitCountStack
    (sweep (sort_points (pointsOf [mkUsage 0 5 1; mkUsage 3 10 0; mkUsage 3 4 2]))
       sweep_init) = [].
Proof.
  apply sorted_points_parenthesis_sequence. repeat constructor; simpl; lia.
Defined.

Lemma union_final rs :
  Forall (fun r => startOffset r < endOffset r) rs ->
  (forall p, covered (convertToDisjointRanges rs) p -> union_of rs p) /\
  (Forall (fun r => count r > 0) rs ->
   forall p, union_of rs p -> covered (convertToDisjointRanges rs) p).
Proof.
  intros Hne.
  assert (Hsplit : sorted_points rs = sort_points (pointsOf rs) ++ [])
    by now rewrite app_nil_r.
  destruct (union_prefix rs Hne _ _ Hsplit)
    as (G & _ & _ & _ & _ & U4 & _ & U7 & U9 & _).
  split.
  - intros p. rewrite convert_unfiltered, covered_rev. apply U7.
  - intros Hall p Hun. rewrite convert_unfiltered, covered_rev.
    pose proof Hun as (r & Hr & Hc).
    assert (Hin : In (endPoint r) (sort_points (pointsOf rs))).
    { eapply Permutation_in; [apply sort_points_perm|].
      apply in_pointsOf. exists r. auto. }
    specialize (U4 _ Hin). simpl in U4. unfold contains in Hc.
    apply (U9 Hall); [intros E; rewrite E in Hin; destruct Hin|lia|exact Hun].
Qed.

(** X7: for non-empty input ranges, nested or not, every position of an
    output range lies in some input range. *)
Theorem convertToDisjointRanges_within_union (rs : list UsageRange)
    (Hnonempty : Forall (fun r => startOffset r < endOffset r) rs) (p : Z) :
  covered (convertToDisjointRanges rs) p -> union_of rs p.
Proof. intros H. now apply (proj1 (union_final rs Hnonempty)). Qed.

Lemma convertToDisjointRanges_within_union_witness :
  union_of [mkUsage 0 5 1; mkUsage 3 10 0] 7.
Proof.
  apply convertToDisjointRanges_within_union.
  - repeat constructor; simpl; lia.
  - exists (mkRange 5 10). split; [right; now left|]. unfold inside; simpl. lia.
Defined.

(** X8: when the input ranges are non-empty and every hit count is positive,
    the output ranges cover exactly the union of the input ranges, whether or
    not the ranges are nested. *)
Theorem convertToDisjointRanges_union (rs : list UsageRange)
    (Hnonempty : Forall (fun r => startOffset r < endOffset r) rs)
    (Hhit : Forall (fun r => count r > 0) rs) (p : Z) :
  covered (convertToDisjointRanges rs) p <-> union_of rs p.
Proof.
  destruct (union_final rs Hnonempty) as [Hsound Hcomplete].
  split; [apply Hsound|now apply Hcomplete].
Qed.

Lemma convertToDisjointRanges_union_witness :
  covered (convertToDisjointRanges [mkUsage 0 5 1; mkUsage 3 10 2; mkUsage 12 14 1]) 7
  <-> union_of [mkUsage 0 5 1; mkUsage 3 10 2; mkUsage 12 14 1] 7.
Proof.
  apply convertToDisjointRanges_union; repeat constructor; simpl; lia.
Defined.


(** * Further properties of the trackers *)

(** ** Writing to the cache *)

(** X9: when a source fetch settles with success, both maps answer for that
    resource with the URL of the registration and the fetched source, every
    other resource is answered as before, and no other field changes; when
    the fetch is rejected, the tracker is unchanged.  The handler consults
    neither the enabled flag nor the subscriptions, so this also holds for a
    fetch that settles after [stop]. *)
Theorem cache_write_round_trip :
  (forall js ev source other,
      let js' := JSCoverage.onScriptParsed_resume js ev (Some source) in
      JSMap.get (JSCoverage.scriptURLs js')
        (Protocol.ScriptParsedEvent.scriptId ev)
      = Some (Protocol.ScriptParsedEvent.url ev) /\
      JSMap.get (JSCoverage.scriptSources js')
        (Protocol.ScriptParsedEvent.scriptId ev) = Some source /\
      (other <> Protocol.ScriptParsedEvent.scriptId ev ->
       JSMap.get (JSCoverage.scriptURLs js') other
       = JSMap.get (JSCoverage.scriptURLs js) other /\
       JSMap.get (JSCoverage.scriptSources js') other
       = JSMap.get (JSCoverage.scriptSources js) other) /\
      js_frame js js' /\
      JSCoverage.onScriptParsed_resume js ev None = js) /\
  (forall css ev source other,
      let css' := CSSCoverage.onStyleSheet_resume css ev (Some source) in
      let header := Protocol.StyleSheetAddedEvent.header ev in
      JSMap.get (CSSCoverage.stylesheetURLs css')
        (Protocol.CSSStyleSheetHeader.styleSheetId header)
      = Some (Protocol.CSSStyleSheetHeader.sourceURL header) /\
      JSMap.get (CSSCoverage.stylesheetSources css')
        (Protocol.CSSStyleSheetHeader.styleSheetId header) = Some source /\
      (other <> Protocol.CSSStyleSheetHeader.styleSheetId header ->
       JSMap.get (CSSCoverage.stylesheetURLs css') other
       = JSMap.get (CSSCoverage.stylesheetURLs css) other /\
       JSMap.get (CSSCoverage.stylesheetSources css') other
       = JSMap.get (CSSCoverage.stylesheetSources css) other) /\
      css_frame css css' /\
      CSSCoverage.onStyleSheet_resume css ev None = css).
Proof.
  split.
  - intros js ev source other js'. subst js'. simpl.
    rewrite !JSMap_get_set_same.
    split; [reflexivity|]. split; [reflexivity|]. split.
    + intros Hneq. rewrite !JSMap_get_set_other by congruence. now split.
    + split; [now repeat split|reflexivity].
  - intros css ev source other css' header. subst css' header. simpl.
    rewrite !JSMap_get_set_same.
    split; [reflexivity|]. split; [reflexivity|]. split.
    + intros Hneq. rewrite !JSMap_get_set_other by congruence. now split.
    + split; [now repeat split|reflexivity].
Qed.

(** ** Registrations that are ignored *)

Lemma js_run_task_puppeteer isPuppeteerURL w task id :
  js_unknown w id ->
  puppeteer_only isPuppeteerURL [task] id ->
  js_unknown (JSCoverage.run_task isPuppeteerURL w task) id.
Proof.
  intros (Hu & Hs & Hf) Hpup.
  destruct task as [ev|n response|]; simpl.
  - destruct (subscribed _ _); [|now repeat split].
    unfold JSCoverage.onScriptParsed_request.
    destruct (isPuppeteerURL (Protocol.ScriptParsedEvent.url ev)) eqn:Ep;
      [now repeat split|].
    destruct (negb _ && negb _); [now repeat split|].
    split; [exact Hu|]. split; [exact Hs|]. simpl.
    apply Forall_app. split; [exact Hf|]. constructor; [|constructor].
    intros Hid. rewrite (Hpup ev (or_introl eq_refl) Hid) in Ep. discriminate.
  - destruct (nth_error (JSCoverage.inflight w) n) as [ev|] eqn:En;
      [|now repeat split].
    assert (Hid : Protocol.ScriptParsedEvent.scriptId ev <> id).
    { rewrite Forall_forall in Hf. eapply Hf, nth_error_In, En. }
    simpl. destruct response as [source|]; unfold js_unknown; simpl.
    + rewrite !JSMap_get_set_other by exact Hid.
      split; [exact Hu|]. split; [exact Hs|]. now apply remove_nth_Forall.
    + split; [exact Hu|]. split; [exact Hs|]. now apply remove_nth_Forall.
  - destruct (subscribed _ _); [|now repeat split].
    unfold JSCoverage.onExecutionContextsCleared.
    destruct (negb _); simpl; now repeat split.
Qed.

(** X10: a script that is only ever registered under URLs that
    [isPuppeteerURL] recognizes is never fetched: over any run of events it
    reaches neither map, whatever the flags, and [stop] skips its snapshot
    entries. *)
Theorem puppeteer_scripts_ignored (isPuppeteerURL : string -> bool)
    (tasks : list JSCoverage.Task) (w : JSCoverage.Loop) (id : string)
    (Hunknown : js_unknown w id)
    (Hpuppeteer : puppeteer_only isPuppeteerURL tasks id) :
  js_unknown (JSCoverage.run isPuppeteerURL tasks w) id /\
  forall entry coverage,
    Protocol.scriptId entry = id ->
    JSCoverage.stop_body
      (JSCoverage.tracker (JSCoverage.run isPuppeteerURL tasks w))
      coverage entry = coverage.
Proof.
  assert (H : js_unknown (JSCoverage.run isPuppeteerURL tasks w) id).
  { revert w Hunknown. induction tasks as [|task tasks IH]; intros w Hu;
      [exact Hu|].
    simpl. apply IH.
    - intros ev Hev. apply Hpuppeteer. now right.
    - apply js_run_task_puppeteer; [exact Hu|].
      intros ev [Hev|[]]. apply Hpuppeteer. now left. }
  split; [exact H|]. intros entry coverage Hid.
  destruct H as (_ & Hs & _). rewrite js_stop_body_app.
  rewrite js_stop_body_uncached by now rewrite Hid.
  apply app_nil_r.
Qed.

Lemma puppeteer_scripts_ignored_witness :
  js_unknown
    (JSCoverage.run Demo.isPuppeteerURL
       [Demo.parsed "9" "pptr:internal"; Demo.parsed "8" "c.js";
        JSCoverage.ScriptSourceSettled 0 (Some "C"%string)]
       (Demo.js_started (JSCoverage.Options.mk None (Some true) None None)))
    "9".
Proof.
  apply puppeteer_scripts_ignored.
  - repeat split; constructor.
  - intros ev Hin Hid. simpl in Hin.
    destruct Hin as [H|[H|[H|[]]]]; try discriminate;
      injection H as <-; [reflexivity|discriminate Hid].
Defined.

Lemma css_run_task_anonymous w task id :
  css_unknown w id ->
  css_anonymous_only [task] id ->
  css_unknown (CSSCoverage.run_task w task) id.
Proof.
  intros (Hu & Hs & Hf) Hanon.
  destruct task as [ev|n response|]; simpl.
  - destruct (subscribed _ _); [|now repeat split].
    unfold CSSCoverage.onStyleSheet_request.
    destruct (negb (truthy _)) eqn:E; [now repeat split|].
    split; [exact Hu|]. split; [exact Hs|]. simpl.
    apply Forall_app. split; [exact Hf|]. constructor; [|constructor].
    intros Hid. rewrite (Hanon ev (or_introl eq_refl) Hid) in E. discriminate.
  - destruct (nth_error (CSSCoverage.inflight w) n) as [ev|] eqn:En;
      [|now repeat split].
    assert (Hid : Protocol.CSSStyleSheetHeader.styleSheetId
                    (Protocol.StyleSheetAddedEvent.header ev) <> id).
    { rewrite Forall_forall in Hf. eapply Hf, nth_error_In, En. }
    simpl. destruct response as [source|]; unfold css_unknown; simpl.
    + rewrite !JSMap_get_set_other by exact Hid.
      split; [exact Hu|]. split; [exact Hs|]. now apply remove_nth_Forall.
    + split; [exact Hu|]. split; [exact Hs|]. now apply remove_nth_Forall.
  - destruct (subscribed _ _); [|now repeat split].
    unfold CSSCoverage.onExecutionContextsCleared.
    destruct (negb _); simpl; now repeat split.
Qed.

(** X11: the stylesheet tracker has no option for anonymous stylesheets: a
    stylesheet that is only ever registered without a source URL reaches
    neither map over any run of events, and [stop] builds its entries from
    stylesheets other than this one. *)
Theorem css_anonymous_ignored
    (tasks : list CSSCoverage.Task) (w : CSSCoverage.Loop) (id : string)
    (Hunknown : css_unknown w id)
    (Hanonymous : css_anonymous_only tasks id) :
  css_unknown (CSSCoverage.run tasks w) id /\
  forall css' result,
    CSSCoverage.stop (CSSCoverage.tracker (CSSCoverage.run tasks w))
    = (css', Resolved result) ->
    exists ruleUsage ids,
      Forall2 (css_entry_for (CSSCoverage.tracker (CSSCoverage.run tasks w))
                 ruleUsage) ids result /\
      ~ In id ids.
Proof.
  assert (H : css_unknown (CSSCoverage.run tasks w) id).
  { revert w Hunknown. induction tasks as [|task tasks IH]; intros w Hu;
      [exact Hu|].
    simpl. apply IH.
    - intros ev Hev. apply Hanonymous. now right.
    - apply css_run_task_anonymous; [exact Hu|].
      intros ev [Hev|[]]. apply Hanonymous. now left. }
  split; [exact H|]. intros css' result Hstop.
  apply css_stop_resolved in Hstop. destruct Hstop as (_ & ru & _ & Hall).
  exists ru, (JSMap.keys (CSSCoverage.stylesheetURLs
                            (CSSCoverage.tracker (CSSCoverage.run tasks w)))).
  split; [exact Hall|]. apply JSMap_get_none. apply H.
Qed.

Lemma css_anonymous_ignored_witness :
  css_unknown
    (CSSCoverage.run
       [Demo.added "s9" ""; Demo.added "s1" "a.css";
        CSSCoverage.StyleSheetTextSettled 0 (Some "A"%string)]
       (CSSCoverage.mkLoop
          (fst (CSSCoverage.start CSSCoverage.Options.none
                  (CSSCoverage.new (Demo.session [] Demo.ruleUsage))))
          []))
    "s9".
Proof.
  apply css_anonymous_ignored.
  - repeat split; constructor.
  - intros ev Hin Hid. simpl in Hin.
    destruct Hin as [H|[H|[H|[]]]]; try discriminate;
      injection H as <-; [reflexivity|discriminate Hid].
Defined.

(** ** The two maps of the script tracker *)

Lemma js_maps_agree_task isPuppeteerURL w task :
  js_maps_agree (JSCoverage.tracker w) ->
  js_maps_agree (JSCoverage.tracker (JSCoverage.run_task isPuppeteerURL w task)).
Proof.
  unfold js_maps_agree. intros H. destruct task as [ev|n response|]; simpl.
  - destruct (subscribed _ _); [|exact H].
    now destruct (JSCoverage.onScriptParsed_request _ _ _).
  - destruct (nth_error _ _); [|exact H]. simpl.
    destruct response as [source|]; simpl; [|exact H].
    rewrite !JSMap_keys_set, H. now rewrite (JSMap_has_keys _ _ _ H).
  - destruct (subscribed _ _); [|exact H].
    unfold JSCoverage.onExecutionContextsCleared. now destruct (negb _).
Qed.

Lemma js_maps_agree_run isPuppeteerURL tasks :
  forall w,
    js_maps_agree (JSCoverage.tracker w) ->
    js_maps_agree (JSCoverage.tracker (JSCoverage.run isPuppeteerURL tasks w)).
Proof.
  induction tasks as [|task tasks IH]; intros w H; [exact H|].
  simpl. apply IH. now apply js_maps_agree_task.
Qed.

Lemma JSMap_has_in {V} (m : JSMap.t V) k :
  JSMap.has m k = true <-> In k (JSMap.keys m).
Proof.
  unfold JSMap.has. destruct (JSMap.get m k) eqn:E.
  - split; [intros _|reflexivity].
    destruct (in_dec string_dec k (JSMap.keys m)) as [Hin|Hnot]; [exact Hin|].
    apply JSMap_get_none in Hnot. congruence.
  - split; [discriminate|]. intros Hin. apply JSMap_get_none in E. contradiction.
Qed.

(** X12: the two maps of the script tracker hold the same scripts after
    [start] and after every event, and then [stop] builds exactly one entry
    for a snapshot entry whose script is cached and none for any other: the
    test [url === undefined] never decides. *)
Theorem js_entry_iff_cached :
  (forall options this,
      JSCoverage.enabled this = false ->
      js_maps_agree (fst (JSCoverage.start options this))) /\
  (forall isPuppeteerURL tasks w,
      js_maps_agree (JSCoverage.tracker w) ->
      js_maps_agree
        (JSCoverage.tracker (JSCoverage.run isPuppeteerURL tasks w))) /\
  (forall this entry,
      js_maps_agree this ->
      List.length (JSCoverage.stop_body this [] entry)
      = if JSMap.has (JSCoverage.scriptSources this) (Protocol.scriptId entry)
        then 1%nat else 0%nat).
Proof.
  split; [|split].
  - intros options this Hidle. unfold JSCoverage.start, assert. rewrite Hidle.
    cbn [negb]. now destruct (sendAll _ _).
  - intros isP tasks w. apply js_maps_agree_run.
  - intros this entry Hagree.
    pose proof (JSMap_has_keys (JSCoverage.scriptURLs this)
                  (JSCoverage.scriptSources this) (Protocol.scriptId entry)
                  Hagree) as Hhas.
    unfold JSCoverage.stop_body, JSMap.has in *.
    destruct (JSMap.get (JSCoverage.scriptSources this) (Protocol.scriptId entry));
      [|reflexivity].
    destruct (JSMap.get (JSCoverage.scriptURLs this) (Protocol.scriptId entry))
      as [u|]; [|discriminate].
    destruct (negb (truthy_opt (Some u)) && JSCoverage.reportAnonymousScripts this);
      now destruct (negb (JSCoverage.includeRawScriptCoverage this)).
Qed.

Lemma js_entry_iff_cached_witness :
  List.length
    (JSCoverage.stop_body Demo.js_two_scripts []
       (Demo.script "2" [mkUsage 0 4 1])) = 1%nat /\
  List.length
    (JSCoverage.stop_body Demo.js_two_scripts []
       (Demo.script "3" [mkUsage 0 4 1])) = 0%nat.
Proof.
  destruct js_entry_iff_cached as (_ & _ & H).
  split; [exact (H Demo.js_two_scripts (Demo.script "2" [mkUsage 0 4 1]) eq_refl)|].
  exact (H Demo.js_two_scripts (Demo.script "3" [mkUsage 0 4 1]) eq_refl).
Defined.

(** ** The entries of the result *)

(** X13: the ranges of every entry that [stop] returns, for scripts and for
    stylesheets, are non-empty and each ends strictly before the next
    starts. *)
Theorem result_ranges_canonical :
  (forall js js' result,
      JSCoverage.stop js = (js', Resolved result) ->
      Forall (fun e => canonical (ranges e)) result) /\
  (forall css css' result,
      CSSCoverage.stop css = (css', Resolved result) ->
      Forall (fun e => canonical (ranges e)) result).
Proof.
  split.
  - intros js js' result H.
    destruct (js_stop_resolved _ _ _ H) as (_ & _ & snapshot & _ & ->).
    apply Forall_forall. intros e He. apply in_flat_map in He.
    destruct He as (entry & _ & He). apply js_stop_body_entry in He.
    destruct He as (_ & -> & _). apply convert_canonical.
  - intros css css' result H.
    destruct (css_stop_resolved _ _ _ H) as (_ & ru & _ & Hall). clear H.
    induction Hall as [|id e ids result Hent _ IH]; [constructor|].
    constructor; [|exact IH].
    destruct Hent as (_ & _ & -> & _). apply convert_canonical.
Qed.

Lemma result_ranges_canonical_witness :
  Forall (fun e => canonical (ranges e))
    [mkEntry "b.js" [mkRange 0 4] "B" None;
     mkEntry "a.js" [mkRange 0 2; mkRange 5 10] "A" None].
Proof.
  destruct result_ranges_canonical as [Hjs _].
  exact (Hjs Demo.js_two_scripts _ _ eq_refl).
Defined.

Lemma js_stop_body_raw this entry e :
  In e (JSCoverage.stop_body this [] entry) ->
  rawScriptCoverage e
  = if JSCoverage.includeRawScriptCoverage this then Some entry else None.
Proof.
  unfold JSCoverage.stop_body.
  destruct (JSMap.get (JSCoverage.scriptSources this) (Protocol.scriptId entry));
    [|intros []].
  destruct (if negb (truthy_opt (JSMap.get (JSCoverage.scriptURLs this)
                                   (Protocol.scriptId entry)))
               && JSCoverage.reportAnonymousScripts this
            then Some ("debugger://VM" ++ Protocol.scriptId entry)%string
            else JSMap.get (JSCoverage.scriptURLs this) (Protocol.scriptId entry));
    [|intros []].
  destruct (JSCoverage.includeRawScriptCoverage this); simpl;
    intros [<-|[]]; reflexivity.
Qed.

(** X14: with [includeRawScriptCoverage] on, every entry of the script
    result carries the snapshot entry it was built from, whose ranges are the
    ones that were merged; with it off, no entry carries one. *)
Theorem raw_coverage_attached (js js' : JSCoverage.t)
    (result : list CoverageEntry)
    (Hstop : JSCoverage.stop js = (js', Resolved result)) :
  exists snapshot,
    JSCoverage.client js Protocol.Profiler_takePreciseCoverage = Some snapshot /\
    Forall (fun e =>
              if JSCoverage.includeRawScriptCoverage js
              then exists entry,
                     In entry snapshot /\
                     rawScriptCoverage e = Some entry /\
                     ranges e
                     = convertToDisjointRanges (JSCoverage.flattenRanges entry)
              else rawScriptCoverage e = None)
           result.
Proof.
  destruct (js_stop_resolved _ _ _ Hstop)
    as (_ & (_ & _ & _ & Hraw) & snapshot & Hc & ->).
  exists snapshot. split; [exact Hc|].
  apply Forall_forall. intros e He. apply in_flat_map in He.
  destruct He as (entry & Hin & He).
  pose proof (js_stop_body_raw _ _ _ He) as Hr. rewrite Hraw in Hr.
  apply js_stop_body_entry in He. destruct He as (_ & Hranges & _).
  destruct (JSCoverage.includeRawScriptCoverage js); [|exact Hr].
  exists entry. now repeat split.
Qed.

Lemma raw_coverage_attached_witness :
  exists snapshot,
    JSCoverage.client
      (JSCoverage.onScriptParsed_resume
         (JSCoverage.tracker
            (Demo.js_started (JSCoverage.Options.mk None None (Some true) None)))
         (Protocol.ScriptParsedEvent.mk "2" "b.js") (Some "B"%string))
      Protocol.Profiler_takePreciseCoverage = Some snapshot /\
    Forall (fun e =>
              exists entry,
                In entry snapshot /\
                rawScriptCoverage e = Some entry /\
                ranges e
                = convertToDisjointRanges (JSCoverage.flattenRanges entry))
      [mkEntry "b.js" [mkRange 0 4] "B" (Some (Demo.script "2" [mkUsage 0 4 1]))].
Proof.
  exact (raw_coverage_attached
           (JSCoverage.onScriptParsed_resume
              (JSCoverage.tracker
                 (Demo.js_started
                    (JSCoverage.Options.mk None None (Some true) None)))
              (Protocol.ScriptParsedEvent.mk "2" "b.js") (Some "B"%string))
           _ _ eq_refl).
Defined.

(** ** Rule usage by stylesheet *)

Lemma ranges_at_set m k v id :
  ranges_at (JSMap.set k v m) id = if String.eqb k id then v else ranges_at m id.
Proof.
  unfold ranges_at. destruct (String.eqb_spec k id) as [->|Hneq].
  - now rewrite JSMap_get_set_same.
  - now rewrite JSMap_get_set_other.
Qed.

Lemma ranges_at_aggregate l id :
  forall m,
    ranges_at (fold_left CSSCoverage.aggregate_body l m) id
    = ranges_at m id
      ++ map usage_of_rule
           (filter (fun u => String.eqb (Protocol.styleSheetId u) id) l).
Proof.
  induction l as [|u l IH]; intros m; simpl; [now rewrite app_nil_r|].
  rewrite IH. unfold CSSCoverage.aggregate_body. rewrite ranges_at_set.
  fold (ranges_at m (Protocol.styleSheetId u)).
  destruct (String.eqb_spec (Protocol.styleSheetId u) id) as [->|Hneq];
    [|reflexivity].
  simpl. now rewrite <- app_assoc.
Qed.

Lemma convert_unhit rs :
  Forall (fun r => hit r = false) rs -> convertToDisjointRanges rs = [].
Proof.
  intros Hnone.
  rewrite convert_unfiltered, rsweep_no_hit; [reflexivity|constructor|].
  apply Forall_forall. intros q Hq.
  assert (Hin : In q (pointsOf rs))
    by (eapply Permutation_in; [symmetry; apply sort_points_perm|exact Hq]).
  apply in_pointsOf in Hin. rewrite Forall_forall in Hnone.
  destruct Hin as (r & Hr & [-> | ->]); simpl; specialize (Hnone r Hr);
    unfold hit in Hnone; rewrite Z.gtb_ltb in Hnone; apply Z.ltb_ge in Hnone;
    exact Hnone.
Qed.

(** X15: [stop] groups the rule usage by stylesheet and keeps the reported
    order: the ranges merged for a stylesheet are those of the usage records
    that name it, in the order of the report, with hit count 1 for a used rule
    and 0 for an unused one.  A stylesheet all of whose reported rules are
    unused gets an entry without ranges. *)
Theorem css_usage_by_stylesheet :
  (forall ruleUsage id,
      css_usage ruleUsage id
      = map usage_of_rule
          (filter (fun u => String.eqb (Protocol.styleSheetId u) id) ruleUsage)) /\
  (forall css css' result,
      CSSCoverage.stop css = (css', Resolved result) ->
      exists ruleUsage,
        CSSCoverage.client css Protocol.CSS_stopRuleUsageTracking
        = Some ruleUsage /\
        Forall2 (fun id e =>
                   ranges e
                   = convertToDisjointRanges
                       (map usage_of_rule
                          (filter (fun u =>
                                     String.eqb (Protocol.styleSheetId u) id)
                             ruleUsage)) /\
                   ((forall u, In u ruleUsage ->
                       Protocol.styleSheetId u = id -> Protocol.used u = false) ->
                    ranges e = []))
          (JSMap.keys (CSSCoverage.stylesheetURLs css)) result).
Proof.
  assert (Hgroup : forall ruleUsage id,
             css_usage ruleUsage id
             = map usage_of_rule
                 (filter (fun u => String.eqb (Protocol.styleSheetId u) id)
                    ruleUsage)).
  { intros ruleUsage id.
    change (css_usage ruleUsage id)
      with (ranges_at (CSSCoverage.aggregate ruleUsage) id).
    unfold CSSCoverage.aggregate. now rewrite ranges_at_aggregate. }
  split; [exact Hgroup|].
  intros css css' result H.
  destruct (css_stop_resolved _ _ _ H) as (_ & ru & Hc & Hall).
  exists ru. split; [exact Hc|].
  eapply Forall2_impl; [|exact Hall].
  intros id e (_ & _ & Hr & _). rewrite Hr, Hgroup.
  split; [reflexivity|]. intros Hunused. apply convert_unhit.
  apply Forall_forall. intros r Hin. apply in_map_iff in Hin.
  destruct Hin as (u & <- & Hu). apply filter_In in Hu. destruct Hu as [Hu Hid].
  apply String.eqb_eq in Hid. unfold hit, usage_of_rule; simpl.
  now rewrite (Hunused u Hu Hid).
Qed.

Lemma css_usage_by_stylesheet_witness :
  exists ruleUsage,
    CSSCoverage.client Demo.css_two_sheets Protocol.CSS_stopRuleUsageTracking
    = Some ruleUsage /\
    Forall2 (fun id e =>
               ranges e
               = convertToDisjointRanges
                   (map usage_of_rule
                      (filter (fun u => String.eqb (Protocol.styleSheetId u) id)
                         ruleUsage)) /\
               ((forall u, In u ruleUsage ->
                   Protocol.styleSheetId u = id -> Protocol.used u = false) ->
                ranges e = []))
      ["s2"; "s1"]%string
      [mkEntry "b.css" [] "B" None; mkEntry "a.css" [mkRange 0 5] "A" None].
Proof.
  destruct css_usage_by_stylesheet as [_ H].
  exact (H Demo.css_two_sheets _ _ eq_refl).
Defined.

(** ** The lifecycle *)




(** X17: [stop] leaves the two maps as they are and the tracker idle, so a
    tracker that was stopped can be started again; it is [start] that empties
    the maps, and the new session begins with none of the old resources. *)
Theorem restart_after_stop :
  (forall js js1 result options,
      JSCoverage.stop js = (js1, Resolved result) ->
      sendAll (JSCoverage.client js)
        [Protocol.Profiler_enable;
         Protocol.Profiler_startPreciseCoverage
           (JSCoverage.orDefault false
              (JSCoverage.Options.includeRawScriptCoverage options))
           (JSCoverage.orDefault true
              (JSCoverage.Options.useBlockCoverage options));
         Protocol.Debugger_enable;
         Protocol.Debugger_setSkipAllPauses true] = None ->
      JSCoverage.enabled js1 = false /\
      JSCoverage.scriptURLs js1 = JSCoverage.scriptURLs js /\
      JSCoverage.scriptSources js1 = JSCoverage.scriptSources js /\
      exists js2,
        JSCoverage.start options js1 = (js2, Resolved tt) /\
        JSCoverage.enabled js2 = true /\
        JSCoverage.scriptURLs js2 = [] /\
        JSCoverage.scriptSources js2 = []) /\
  (forall css css1 result options,
      CSSCoverage.stop css = (css1, Resolved result) ->
      sendAll (CSSCoverage.client css)
        [Protocol.DOM_enable; Protocol.CSS_enable;
         Protocol.CSS_startRuleUsageTracking] = None ->
      CSSCoverage.enabled css1 = false /\
      CSSCoverage.stylesheetURLs css1 = CSSCoverage.stylesheetURLs css /\
      CSSCoverage.stylesheetSources css1 = CSSCoverage.stylesheetSources css /\
      exists css2,
        CSSCoverage.start options css1 = (css2, Resolved tt) /\
        CSSCoverage.enabled css2 = true /\
        CSSCoverage.stylesheetURLs css2 = [] /\
        CSSCoverage.stylesheetSources css2 = []).
Proof.
  split.
  - intros js js1 result options Hstop Hstart.
    unfold JSCoverage.stop, assert in Hstop.
    destruct (JSCoverage.enabled js); [|discriminate].
    cbn [JSCoverage.client] in Hstop.
    destruct (JSCoverage.client js Protocol.Profiler_takePreciseCoverage);
      [|discriminate].
    destruct (sendAll (JSCoverage.client js)
                [Protocol.Profiler_stopPreciseCoverage;
                 Protocol.Profiler_disable; Protocol.Debugger_disable]);
      [discriminate|].
    injection Hstop as <- _.
    repeat (split; [reflexivity|]).
    unfold JSCoverage.start, assert. cbn [JSCoverage.enabled JSCoverage.client negb].
    rewrite Hstart. eexists. split; [reflexivity|]. now repeat split.
  - intros css css1 result options Hstop Hstart.
    unfold CSSCoverage.stop, assert in Hstop.
    destruct (CSSCoverage.enabled css); [|discriminate].
    cbn [CSSCoverage.client] in Hstop.
    destruct (CSSCoverage.client css Protocol.CSS_stopRuleUsageTracking);
      [|discriminate].
    destruct (sendAll (CSSCoverage.client css)
                [Protocol.CSS_disable; Protocol.DOM_disable]);
      [discriminate|].
    injection Hstop as <- _.
    repeat (split; [reflexivity|]).
    unfold CSSCoverage.start, assert.
    cbn [CSSCoverage.enabled CSSCoverage.client negb].
    rewrite Hstart. eexists. split; [reflexivity|]. now repeat split.
Qed.

Lemma restart_after_stop_witness :
  exists js2,
    JSCoverage.start JSCoverage.Options.none
      (fst (JSCoverage.stop Demo.js_two_scripts))
    = (js2, Resolved tt) /\
    JSCoverage.enabled js2 = true /\
    JSCoverage.scriptURLs js2 = [] /\
    JSCoverage.scriptSources js2 = [].
Proof.
  destruct restart_after_stop as [H _].
  exact (proj2 (proj2 (proj2
           (H Demo.js_two_scripts _ _ JSCoverage.Options.none eq_refl eq_refl)))).
Defined.

(** X18: when the session rejects a command of [start], the call is rejected
    with the tracker already enabled, its maps emptied and its handlers
    subscribed; a second [start] then fails with the already-enabled error
    and changes nothing. *)
Theorem start_rejected_leaves_enabled :
  (forall js js1 options command options',
      JSCoverage.start options js = (js1, Rejected (ProtocolError command)) ->
      JSCoverage.enabled js = false /\
      JSCoverage.enabled js1 = true /\
      JSCoverage.scriptURLs js1 = [] /\
      JSCoverage.scriptSources js1 = [] /\
      subscribed (JSCoverage.subscriptions js1) onScriptParsedH = true /\
      subscribed (JSCoverage.subscriptions js1) onExecutionContextsClearedH
      = true /\
      fails_unchanged (JSCoverage.start options') js1
        "JSCoverage is already enabled") /\
  (forall css css1 options command options',
      CSSCoverage.start options css = (css1, Rejected (ProtocolError command)) ->
      CSSCoverage.enabled css = false /\
      CSSCoverage.enabled css1 = true /\
      CSSCoverage.stylesheetURLs css1 = [] /\
      CSSCoverage.stylesheetSources css1 = [] /\
      subscribed (CSSCoverage.eventListeners css1) onStyleSheetH = true /\
      subscribed (CSSCoverage.eventListeners css1) onExecutionContextsClearedH
      = true /\
      fails_unchanged (CSSCoverage.start options') css1
        "CSSCoverage is already enabled").
Proof.
  split.
  - intros js js1 options command options' H.
    unfold JSCoverage.start, assert in H.
    destruct (JSCoverage.enabled js); [discriminate|]. cbn [negb] in H.
    match type of H with
    | context [sendAll ?c ?l] => destruct (sendAll c l); [|discriminate]
    end.
    injection H as <- _. now repeat split.
  - intros css css1 options command options' H.
    unfold CSSCoverage.start, assert in H.
    destruct (CSSCoverage.enabled css); [discriminate|]. cbn [negb] in H.
    match type of H with
    | context [sendAll ?c ?l] => destruct (sendAll c l); [|discriminate]
    end.
    injection H as <- _. now repeat split.
Qed.

Lemma css_stop_loop_no_protocol_error this M ids :
  forall coverage command,
    fold_left (CSSCoverage.stop_body this M) ids (Resolved coverage)
    <> Rejected (ProtocolError command).
Proof.
  induction ids as [|id ids IH]; intros coverage command H; [discriminate|].
  simpl in H.
  destruct (JSMap.get (CSSCoverage.stylesheetURLs this) id);
    [|rewrite css_stop_loop_rejected in H; discriminate].
  destruct (JSMap.get (CSSCoverage.stylesheetSources this) id);
    [|rewrite css_stop_loop_rejected in H; discriminate].
  exact (IH _ _ H).
Qed.

(** X19: when the session rejects a command of [stop], the call is rejected
    with the tracker already idle but its subscriptions not disposed and its
    maps kept; a second [stop] then fails with the not-enabled error, so
    [stop] cannot release these subscriptions any more. *)
Theorem stop_rejected_keeps_subscriptions :
  (forall js js1 command,
      JSCoverage.stop js = (js1, Rejected (ProtocolError command)) ->
      JSCoverage.enabled js = true /\
      JSCoverage.enabled js1 = false /\
      JSCoverage.subscriptions js1 = JSCoverage.subscriptions js /\
      JSCoverage.scriptURLs js1 = JSCoverage.scriptURLs js /\
      JSCoverage.scriptSources js1 = JSCoverage.scriptSources js /\
      fails_unchanged JSCoverage.stop js1 "JSCoverage is not enabled") /\
  (forall css css1 command,
      CSSCoverage.stop css = (css1, Rejected (ProtocolError command)) ->
      CSSCoverage.enabled css = true /\
      CSSCoverage.enabled css1 = false /\
      CSSCoverage.eventListeners css1 = CSSCoverage.eventListeners css /\
      CSSCoverage.stylesheetURLs css1 = CSSCoverage.stylesheetURLs css /\
      CSSCoverage.stylesheetSources css1 = CSSCoverage.stylesheetSources css /\
      fails_unchanged CSSCoverage.stop css1 "CSSCoverage is not enabled").
Proof.
  split.
  - intros js js1 command H.
    unfold JSCoverage.stop, assert in H.
    destruct (JSCoverage.enabled js); [|discriminate].
    cbn [JSCoverage.client] in H.
    destruct (JSCoverage.client js Protocol.Profiler_takePreciseCoverage).
    + match type of H with
      | context [sendAll ?c ?l] => destruct (sendAll c l); [|discriminate]
      end.
      injection H as <- _. now repeat split.
    + injection H as <- _. now repeat split.
  - intros css css1 command H.
    unfold CSSCoverage.stop, assert in H.
    destruct (CSSCoverage.enabled css); [|discriminate].
    cbn [CSSCoverage.client CSSCoverage.stylesheetURLs] in H.
    destruct (CSSCoverage.client css Protocol.CSS_stopRuleUsageTracking).
    + match type of H with
      | context [sendAll ?c ?l] => destruct (sendAll c l) eqn:Es
      end.
      * injection H as <- _. now repeat split.
      * exfalso. injection H as _ H.
        exact (css_stop_loop_no_protocol_error _ _ _ _ _ H).
    + injection H as <- _. now repeat split.
Qed.

Lemma start_rejected_leaves_enabled_witness :
  fails_unchanged (JSCoverage.start JSCoverage.Options.none)
    (fst (JSCoverage.start JSCoverage.Options.none
            (JSCoverage.new Refusing.noDebugger)))
    "JSCoverage is already enabled".
Proof.
  destruct start_rejected_leaves_enabled as [H _].
  exact (proj2 (proj2 (proj2 (proj2 (proj2 (proj2
           (H (JSCoverage.new Refusing.noDebugger) _ JSCoverage.Options.none
              Protocol.Debugger_enable JSCoverage.Options.none eq_refl))))))).
Defined.

Lemma stop_rejected_keeps_subscriptions_witness :
  subscribed
    (JSCoverage.subscriptions
       (fst (JSCoverage.stop
               (fst (JSCoverage.start JSCoverage.Options.none
                       (JSCoverage.new Refusing.noProfilerDisable))))))
    onScriptParsedH = true /\
  fails_unchanged JSCoverage.stop
    (fst (JSCoverage.stop
            (fst (JSCoverage.start JSCoverage.Options.none
                    (JSCoverage.new Refusing.noProfilerDisable)))))
    "JSCoverage is not enabled".
Proof.
  destruct stop_rejected_keeps_subscriptions as [H _].
  destruct (H (fst (JSCoverage.start JSCoverage.Options.none
                      (JSCoverage.new Refusing.noProfilerDisable)))
              _ Protocol.Profiler_disable eq_refl)
    as (_ & _ & Hsubs & _ & _ & Hfail).
  split; [reflexivity|exact Hfail].
Defined.

(** ** The URLs of the result *)

Lemma JSMap_set_Forall {V} (Q : V -> Prop) (m : JSMap.t V) k v :
  Q v -> Forall (fun kv => Q (snd kv)) m ->
  Forall (fun kv => Q (snd kv)) (JSMap.set k v m).
Proof.
  intros Hv. induction 1 as [|[k' v'] m Hk Hm IH]; simpl.
  - now repeat constructor.
  - destruct (String.eqb k' k); constructor; assumption.
Qed.

Lemma JSMap_get_Forall {V} (Q : V -> Prop) (m : JSMap.t V) k v :
  Forall (fun kv => Q (snd kv)) m -> JSMap.get m k = Some v -> Q v.
Proof.
  induction 1 as [|[k' v'] m Hk Hm IH]; simpl; [discriminate|].
  destruct (String.eqb k' k); [|exact IH]. intros E. now injection E as <-.
Qed.

Lemma truthy_nonempty s : truthy s = true -> s <> EmptyString.
Proof.
  unfold truthy. intros H ->. discriminate.
Qed.

Lemma js_urls_named_task isPuppeteerURL w task :
  js_urls_named w -> js_urls_named (JSCoverage.run_task isPuppeteerURL w task).
Proof.
  unfold js_urls_named. intros H. destruct task as [ev|n response|]; simpl.
  - destruct (subscribed _ _); [|exact H].
    unfold JSCoverage.onScriptParsed_request.
    destruct (isPuppeteerURL _); [exact H|].
    destruct (truthy (Protocol.ScriptParsedEvent.url ev)) eqn:Et; simpl.
    + destruct H as [H|[Hu Hf]]; [now left|right].
      split; [exact Hu|]. apply Forall_app. split; [exact Hf|].
      now repeat constructor.
    + destruct (JSCoverage.reportAnonymousScripts (JSCoverage.tracker w)) eqn:Er;
        simpl; [now left|].
      destruct H as [H|H]; [discriminate|]. rewrite Er. now right.
  - destruct (nth_error (JSCoverage.inflight w) n) as [ev|] eqn:En; [|exact H].
    simpl. destruct H as [H|[Hu Hf]].
    + left. now destruct response.
    + right. split; [|now apply remove_nth_Forall].
      destruct response as [source|]; simpl; [|exact Hu].
      apply (JSMap_set_Forall (fun u => truthy u = true)); [|exact Hu].
      rewrite Forall_forall in Hf. eapply Hf, nth_error_In, En.
  - destruct (subscribed _ _); [|exact H].
    unfold JSCoverage.onExecutionContextsCleared.
    destruct (negb _); simpl; [exact H|].
    destruct H as [H|[_ Hf]]; [now left|right]. now split.
Qed.

Lemma js_urls_named_run isPuppeteerURL tasks :
  forall w,
    js_urls_named w -> js_urls_named (JSCoverage.run isPuppeteerURL tasks w).
Proof.
  induction tasks as [|task tasks IH]; intros w H; [exact H|].
  simpl. apply IH. now apply js_urls_named_task.
Qed.

Lemma js_stop_body_url this entry e :
  In e (JSCoverage.stop_body this [] entry) ->
  url e = ("debugger://VM" ++ Protocol.scriptId entry)%string \/
  (JSMap.get (JSCoverage.scriptURLs this) (Protocol.scriptId entry)
   = Some (url e) /\
   (truthy (url e) = true \/ JSCoverage.reportAnonymousScripts this = false)).
Proof.
  unfold JSCoverage.stop_body.
  destruct (JSMap.get (JSCoverage.scriptSources this) (Protocol.scriptId entry));
    [|intros []].
  destruct (JSMap.get (JSCoverage.scriptURLs this) (Protocol.scriptId entry))
    as [u|]; simpl.
  - destruct (truthy u) eqn:Et; simpl.
    + destruct (negb (JSCoverage.includeRawScriptCoverage this)); simpl;
        intros [<-|[]]; right; simpl; auto.
    + destruct (JSCoverage.reportAnonymousScripts this);
        destruct (negb (JSCoverage.includeRawScriptCoverage this)); simpl;
        intros [<-|[]]; simpl; auto.
  - destruct (JSCoverage.reportAnonymousScripts this); [|intros []].
    destruct (negb (JSCoverage.includeRawScriptCoverage this)); simpl;
      intros [<-|[]]; now left.
Qed.

Lemma css_urls_named_run tasks :
  forall w, css_urls_named w -> css_urls_named (CSSCoverage.run tasks w).
Proof.
  induction tasks as [|task tasks IH]; intros w H; [exact H|].
  simpl. apply IH. destruct H as [Hu Hf]. unfold css_urls_named.
  destruct task as [ev|n response|]; simpl.
  - destruct (subscribed _ _); [|now split].
    unfold CSSCoverage.onStyleSheet_request.
    destruct (truthy _) eqn:Et; simpl; [|now split].
    split; [exact Hu|]. apply Forall_app. split; [exact Hf|].
    now repeat constructor.
  - destruct (nth_error (CSSCoverage.inflight w) n) as [ev|] eqn:En;
      [|now split].
    simpl. split; [|now apply remove_nth_Forall].
    destruct response as [source|]; simpl; [|exact Hu].
    apply (JSMap_set_Forall (fun u => truthy u = true)); [|exact Hu].
    rewrite Forall_forall in Hf. eapply Hf, nth_error_In, En.
  - destruct (subscribed _ _); [|now split].
    unfold CSSCoverage.onExecutionContextsCleared.
    destruct (negb _); simpl; now split.
Qed.

(** X20: when [start] is called on an idle tracker and every registration
    whose fetch is still pending from before has a non-empty URL (for
    scripts it is enough, instead, that the new session reports anonymous
    scripts), then whatever events and fetch completions follow, no entry
    that [stop] returns has an empty URL: a script entry has the URL of its
    registration or the synthesized [debugger://VM] URL, a stylesheet entry
    has its source URL.  For scripts the condition on the pending fetches
    cannot be dropped: [stop] on [Leak.second_session_settled] returns an
    entry with the empty URL.  A stylesheet handler fetches only when the
    source URL is non-empty, so for stylesheets the condition holds of every
    fetch that a handler started. *)
Theorem result_urls_named :
  (forall isPuppeteerURL options this pending tasks js' result,
      JSCoverage.enabled this = false ->
      JSCoverage.orDefault false
        (JSCoverage.Options.reportAnonymousScripts options) = true \/
      Forall (fun ev => truthy (Protocol.ScriptParsedEvent.url ev) = true)
        pending ->
      JSCoverage.stop
        (JSCoverage.tracker
           (JSCoverage.run isPuppeteerURL tasks
              (JSCoverage.mkLoop (fst (JSCoverage.start options this)) pending)))
      = (js', Resolved result) ->
      Forall (fun e => url e <> EmptyString) result) /\
  (forall options this pending tasks css' result,
      CSSCoverage.enabled this = false ->
      Forall (fun ev =>
                truthy (Protocol.CSSStyleSheetHeader.sourceURL
                          (Protocol.StyleSheetAddedEvent.header ev)) = true)
        pending ->
      CSSCoverage.stop
        (CSSCoverage.tracker
           (CSSCoverage.run tasks
              (CSSCoverage.mkLoop (fst (CSSCoverage.start options this))
                 pending)))
      = (css', Resolved result) ->
      Forall (fun e => url e <> EmptyString) result).
Proof.
  split.
  - intros isP options this pending tasks js' result Hidle Hpending Hstop.
    assert (Hinit : js_urls_named
                      (JSCoverage.mkLoop (fst (JSCoverage.start options this))
                         pending)).
    { unfold js_urls_named, JSCoverage.start, assert. rewrite Hidle. cbn [negb].
      destruct Hpending as [Hrep|Hpend].
      - left. now destruct (sendAll _ _).
      - right. destruct (sendAll _ _); simpl; (split; [constructor|exact Hpend]). }
    pose proof (js_urls_named_run isP tasks _ Hinit) as Hinv.
    destruct (js_stop_resolved _ _ _ Hstop) as (_ & Hsame & snapshot & _ & ->).
    apply Forall_forall. intros e He. apply in_flat_map in He.
    destruct He as (entry & _ & He).
    rewrite (js_stop_body_same_cache _ _ entry Hsame) in He.
    apply js_stop_body_url in He.
    destruct He as [-> |(Hget & [Ht|Hr])]; [discriminate|now apply truthy_nonempty|].
    destruct Hinv as [Hinv|[Hu _]]; [congruence|].
    apply truthy_nonempty.
    exact (JSMap_get_Forall (fun u => truthy u = true) _ _ _ Hu Hget).
  - intros options this pending tasks css' result Hidle Hpending Hstop.
    assert (Hinit : css_urls_named
                      (CSSCoverage.mkLoop (fst (CSSCoverage.start options this))
                         pending)).
    { unfold css_urls_named, CSSCoverage.start, assert. rewrite Hidle.
      cbn [negb]. destruct (sendAll _ _); simpl; (split; [constructor|exact Hpending]). }
    pose proof (css_urls_named_run tasks _ Hinit) as [Hu _].
    destruct (css_stop_resolved _ _ _ Hstop) as (_ & ru & _ & Hall).
    clear Hstop. induction Hall as [|id e ids result Hent _ IH]; [constructor|].
    constructor; [|exact IH]. destruct Hent as (Hget & _).
    apply truthy_nonempty.
    exact (JSMap_get_Forall (fun u => truthy u = true) _ _ _ Hu Hget).
Qed.

Lemma result_urls_named_witness :
  Forall (fun e => url e <> EmptyString)
    [mkEntry "b.js" [mkRange 0 4] "B" None;
     mkEntry "a.js" [mkRange 0 2; mkRange 5 10] "A" None].
Proof.
  destruct result_urls_named as [H _].
  assert (Hpending : Forall
                       (fun ev => truthy (Protocol.ScriptParsedEvent.url ev)
                                  = true)
                       [Protocol.ScriptParsedEvent.mk "1" "a.js"]).
  { constructor; [reflexivity|constructor]. }
  apply (H Demo.isPuppeteerURL JSCoverage.Options.none
           (JSCoverage.new (Demo.session Demo.snapshot []))
           [Protocol.ScriptParsedEvent.mk "1" "a.js"]
           [Demo.parsed "2" "b.js";
            JSCoverage.ScriptSourceSettled 0 (Some "A"%string);
            JSCoverage.ScriptSourceSettled 0 (Some "B"%string)]
           (fst (JSCoverage.stop
                   (JSCoverage.tracker
                      (JSCoverage.run Demo.isPuppeteerURL
                         [Demo.parsed "2" "b.js";
                          JSCoverage.ScriptSourceSettled 0 (Some "A"%string);
                          JSCoverage.ScriptSourceSettled 0 (Some "B"%string)]
                         (JSCoverage.mkLoop
                            (fst (JSCoverage.start JSCoverage.Options.none
                                    (JSCoverage.new
                                       (Demo.session Demo.snapshot []))))
                            [Protocol.ScriptParsedEvent.mk "1" "a.js"])))))).
  - reflexivity.
  - right. exact Hpending.
  - reflexivity.
Defined.

(** * The output as a normal form *)

Lemma canonical_head_least d out x :
  canonical (d :: out) -> In x out -> end_ d < start x /\ start x < end_ x.
Proof.
  intros [Hne Hs] Hx. apply StronglySorted_inv in Hs. destruct Hs as [_ Hd].
  rewrite Forall_forall in Hd. unfold all_nonempty in Hne.
  rewrite Forall_forall in Hne. split; [now apply Hd|].
  apply Hne. now right.
Qed.

Lemma canonical_same_cover l1 :
  forall l2,
    canonical l1 -> canonical l2 ->
    (forall p, covered l1 p <-> covered l2 p) -> l1 = l2.
Proof.
  induction l1 as [|a l1 IH]; intros l2 H1 H2 Hcov.
  - destruct l2 as [|b l2]; [reflexivity|]. exfalso.
    apply (covered_nil (start b)), Hcov, covered_cons. left.
    apply canonical_cons_inv in H2. unfold inside. lia.
  - destruct l2 as [|b l2].
    + exfalso. apply (covered_nil (start a)), Hcov, covered_cons. left.
      apply canonical_cons_inv in H1. unfold inside. lia.
    + pose proof (canonical_cons_inv _ _ H1) as (Ha & Hc1 & _).
      pose proof (canonical_cons_inv _ _ H2) as (Hb & Hc2 & _).
      assert (Hstart : start a = start b).
      { assert (Hab : covered (b :: l2) (start a))
          by (apply Hcov, covered_cons; left; unfold inside; lia).
        assert (Hba : covered (a :: l1) (start b))
          by (apply Hcov, covered_cons; left; unfold inside; lia).
        apply covered_cons in Hab, Hba. unfold inside in *.
        destruct Hab as [Hab|(x & Hx & Hp)], Hba as [Hba|(y & Hy & Hq)];
          unfold inside in *; try lia.
        - pose proof (canonical_head_least _ _ _ H1 Hy). lia.
        - pose proof (canonical_head_least _ _ _ H2 Hx). lia.
        - pose proof (canonical_head_least _ _ _ H1 Hy).
          pose proof (canonical_head_least _ _ _ H2 Hx). lia. }
      assert (Hend : end_ a = end_ b).
      { destruct (Z.lt_trichotomy (end_ a) (end_ b)) as [Hlt|[E|Hgt]];
          [|exact E|]; exfalso.
        - assert (Hp : covered (a :: l1) (end_ a))
            by (apply Hcov, covered_cons; left; unfold inside; lia).
          apply covered_cons in Hp. unfold inside in Hp.
          destruct Hp as [Hp|(x & Hx & Hp)]; [lia|].
          pose proof (canonical_head_least _ _ _ H1 Hx).
          unfold inside in Hp. lia.
        - assert (Hp : covered (b :: l2) (end_ b))
            by (apply Hcov, covered_cons; left; unfold inside; lia).
          apply covered_cons in Hp. unfold inside in Hp.
          destruct Hp as [Hp|(x & Hx & Hp)]; [lia|].
          pose proof (canonical_head_least _ _ _ H2 Hx).
          unfold inside in Hp. lia. }
      assert (E : a = b) by (destruct a, b; simpl in *; now subst).
      subst b. f_equal. apply IH; try assumption.
      intros p. split; intros (x & Hx & Hp).
      * assert (Hc : covered (a :: l2) p)
          by (apply Hcov, covered_cons; right; now exists x).
        apply covered_cons in Hc. destruct Hc as [Hc|Hc]; [|exact Hc].
        pose proof (canonical_head_least _ _ _ H1 Hx).
        unfold inside in *. lia.
      * assert (Hc : covered (a :: l1) p)
          by (apply Hcov, covered_cons; right; now exists x).
        apply covered_cons in Hc. destruct Hc as [Hc|Hc]; [|exact Hc].
        pose proof (canonical_head_least _ _ _ H2 Hx).
        unfold inside in *. lia.
Qed.

(** X21: the output is a normal form of the positions it covers: any list of
    non-empty ranges, each ending strictly before the next starts, that
    covers the same positions as the output is the output. *)
Theorem convertToDisjointRanges_normal_form (rs : list UsageRange)
    (out : list DisjointRange)
    (Hcanonical : canonical out)
    (Hcover : forall p, covered out p <-> covered (convertToDisjointRanges rs) p) :
  out = convertToDisjointRanges rs.
Proof.
  apply canonical_same_cover; [exact Hcanonical|apply convert_canonical|].
  exact Hcover.
Qed.

Lemma convertToDisjointRanges_normal_form_witness :
  [mkRange 0 10]
  = convertToDisjointRanges [mkUsage 0 5 1; mkUsage 5 10 1; mkUsage 2 7 3].
Proof.
  apply convertToDisjointRanges_normal_form.
  - split; repeat constructor; simpl; lia.
  - intros p. reflexivity.
Defined.
